(** * hIPPYlib [MultiVector]: a shallow embedding of
    [hippylib/algorithms/cpp_multivector/multivector.cpp]

    A [MultiVector] owns an ordered sequence [mv] of shared pointers to
    [GenericVector] objects and offers batched linear algebra built from
    repeated single-vector calls.  The vector type is an abstract class of
    dolfin; here it is a type class, and every method of [MultiVector] is a
    computation in a state-and-error monad over a world that holds the
    vector objects (by address), the caller's [Array<double>] buffers, the
    [MultiVector] objects and the trace of the calls made and cells stored. *)

From Stdlib Require Import ZArith Lia.
From stdpp Require Import base tactics option list numbers strings.

Open Scope Z_scope.

(** ** The vector capability (dolfin's [GenericVector]) *)

(** [R] stands for [double], [V] for the value held by a vector object.
    Each field gives the value a virtual method leaves or returns:
    [gv_zero x] is [x] after [x.zero()], [gv_axpy a x y] is [y] after
    [y.axpy(a, x)], [gv_inner x y] is [x.inner(y)], [gv_scale a x] is [x]
    after [x *= a], [gv_norm t x] is [x.norm(t)].  [copy()] allocates a new
    object that holds the same value.  The methods are taken to return: an
    error raised inside the vector library (vectors of different layouts,
    an unknown norm type) is outside this model, as it is outside
    [multivector.cpp], which catches nothing. *)
Class GenericVector (R V : Type) := {
  gv_zero : V → V;
  gv_axpy : R → V → V → V;
  gv_inner : V → V → R;
  gv_scale : R → V → V;
  gv_norm : string → V → R
}.

(** ** Outcomes of a call *)

Inductive outcome (A : Type) : Type :=
| Done (a : A)      (* the call returns *)
| AssertFail        (* an [assert] fails: the program aborts *)
| Thrown            (* a C++ exception leaves the call *)
| Undefined.        (* undefined behaviour: access out of bounds, dangling
                       pointer, signed overflow *)
Arguments Done {A} a.
Arguments AssertFail {A}.
Arguments Thrown {A}.
Arguments Undefined {A}.

(** ** [int] *)

Definition int_min : Z := - 2 ^ 31.
Definition int_max : Z := 2 ^ 31 - 1.

(** Narrowing of a [size_t] to [int] ([int s = mv.size()]): two's
    complement wrap-around. *)
Definition to_int (z : Z) : Z := (z + 2 ^ 31) `mod` 2 ^ 32 - 2 ^ 31.

(** ** Objects *)

(** Addresses of vector objects ([shared_ptr<GenericVector>]), of arrays and
    of [MultiVector] objects are indices into the world's stores. *)
Abbreviation loc := nat (only parsing).
Abbreviation arr := nat (only parsing).
Abbreviation obj := nat (only parsing).

(** The state of a [MultiVector]: its only member,
    [std::vector<std::shared_ptr<GenericVector>> mv], as the address of its
    element buffer ([mv.begin()], [0] when nothing is allocated) and the
    pointers it holds. *)
Record MultiVector := {
  mv_begin : nat;
  mv : list loc
}.

Section MultiVector.

Context {R V : Type} `{GV : GenericVector R V}.

(** What a call does that a caller can observe besides the final state: the
    virtual calls on vectors and the stores into arrays, in order. *)
Inductive event : Type :=
| CallCopy (x new : loc)
| CallZero (x : loc)
| CallAxpy (y : loc) (a : R) (x : loc)
| CallInner (x y : loc)
| CallScale (x : loc) (a : R)
| CallNorm (x : loc) (norm_type : string)
| Store (m : arr) (k : nat) (val : R).

Record World := {
  vectors : list V;             (* the GenericVector objects *)
  arrays : list (list R);       (* the Array<double> objects *)
  objects : list MultiVector;   (* the MultiVector objects *)
  brk : nat;                    (* next unused element-buffer address *)
  trace : list event
}.

Definition set_vectors (h : list V) (w : World) : World :=
  {| vectors := h; arrays := arrays w; objects := objects w;
     brk := brk w; trace := trace w |}.
Definition set_arrays (bs : list (list R)) (w : World) : World :=
  {| vectors := vectors w; arrays := bs; objects := objects w;
     brk := brk w; trace := trace w |}.
Definition set_objects (os : list MultiVector) (w : World) : World :=
  {| vectors := vectors w; arrays := arrays w; objects := os;
     brk := brk w; trace := trace w |}.
Definition set_brk (b : nat) (w : World) : World :=
  {| vectors := vectors w; arrays := arrays w; objects := objects w;
     brk := b; trace := trace w |}.
Definition set_trace (t : list event) (w : World) : World :=
  {| vectors := vectors w; arrays := arrays w; objects := objects w;
     brk := brk w; trace := t |}.

(** ** The monad *)

Definition M (A : Type) : Type := World → outcome (A * World).

Definition ret {A} (a : A) : M A := λ w, Done (a, w).
Definition bind {A B} (m : M A) (f : A → M B) : M B :=
  λ w, match m w with
       | Done (a, w') => f a w'
       | AssertFail => AssertFail
       | Thrown => Thrown
       | Undefined => Undefined
       end.

Notation "x ← m ; k" := (bind m (λ x, k))
  (at level 20, m at level 100, k at level 200, only parsing).
Notation "m ;; k" := (bind m (λ _, k))
  (at level 100, k at level 200, right associativity, only parsing).

Definition undefined {A} : M A := λ _, Undefined.
Definition throw {A} : M A := λ _, Thrown.
Definition gets {A} (f : World → A) : M A := λ w, Done (f w, w).
Definition modify (f : World → World) : M unit := λ w, Done (tt, f w).
Definition emit (e : event) : M unit :=
  modify (λ w, set_trace (trace w ++ [e]) w).

(** [assert(b)] *)
Definition assert (b : bool) : M unit :=
  if b then ret tt else λ _, AssertFail.

(** An access that is defined only where the store has an entry. *)
Definition defined {A} (o : option A) : M A :=
  match o with Some a => ret a | None => undefined end.

(** Loops.  [foldM] is a range-based [for] that carries a local variable
    (the running pointer [data++]); [for_int lo hi] is
    [for (int i = lo; i < hi; ++i)]. *)
Fixpoint foldM {A B} (f : B → A → M B) (b : B) (l : list A) : M B :=
  match l with
  | [] => ret b
  | x :: l' => b' ← f b x; foldM f b' l'
  end.
Definition forM_ {A} (l : list A) (f : A → M unit) : M unit :=
  foldM (λ _ x, f x) tt l.
Definition for_int (lo hi : Z) (body : Z → M unit) : M unit :=
  forM_ (seqZ lo (hi - lo)) body.

(** Arithmetic in [int]: overflow is undefined. *)
Definition int_op (z : Z) : M Z :=
  if decide (int_min ≤ z ≤ int_max) then ret z else undefined.

(** An [int] used as a [size_t] index.  A negative [int] converts to a
    value of at least [2^63], beyond the extent of any array or vector. *)
Definition index (k : Z) : M nat :=
  if decide (0 ≤ k) then ret (Z.to_nat k) else undefined.

(** ** Vector objects, through a pointer *)

Definition deref (x : loc) : M V :=
  h ← gets vectors; defined (h !! x).
Definition assign (x : loc) (v : V) : M unit :=
  modify (λ w, set_vectors (<[x := v]> (vectors w)) w).

(** [x->copy()] *)
Definition call_copy (x : loc) : M loc :=
  vx ← deref x;
  h ← gets vectors;
  modify (set_vectors (h ++ [vx])) ;;
  emit (CallCopy x (length h)) ;;
  ret (length h).
(** [x->zero()] *)
Definition call_zero (x : loc) : M unit :=
  vx ← deref x;
  assign x (gv_zero vx) ;;
  emit (CallZero x).
(** [y->axpy(a, x)], [x] passed by reference *)
Definition call_axpy (y : loc) (a : R) (x : loc) : M unit :=
  vx ← deref x;
  vy ← deref y;
  assign y (gv_axpy a vx vy) ;;
  emit (CallAxpy y a x).
(** [x->inner(y)], [y] passed by reference *)
Definition call_inner (x y : loc) : M R :=
  vx ← deref x;
  vy ← deref y;
  emit (CallInner x y) ;;
  ret (gv_inner vx vy).
(** [x *= a] *)
Definition call_scale (x : loc) (a : R) : M unit :=
  vx ← deref x;
  assign x (gv_scale a vx) ;;
  emit (CallScale x a).
(** [x->norm(norm_type)] *)
Definition call_norm (x : loc) (norm_type : string) : M R :=
  vx ← deref x;
  emit (CallNorm x norm_type) ;;
  ret (gv_norm norm_type vx).

(** ** [Array<double>] *)

Definition array (a : arr) : M (list R) :=
  bs ← gets arrays; defined (bs !! a).
(** [a.size()] *)
Definition array_size (a : arr) : M nat :=
  buf ← array a; ret (length buf).
(** reading [a[k]], or [*p] with [p == a.data() + k] *)
Definition array_load (a : arr) (k : nat) : M R :=
  buf ← array a; defined (buf !! k).
(** [a[k] = x], or [*p = x] with [p == a.data() + k] *)
Definition array_store (a : arr) (k : nat) (x : R) : M unit :=
  buf ← array a;
  if decide (k < length buf)%nat
  then modify (λ w, set_arrays (<[a := <[k := x]> buf]> (arrays w)) w) ;;
       emit (Store a k x)
  else undefined.

(** ** [MultiVector] objects *)

Definition object (o : obj) : M MultiVector :=
  os ← gets objects; defined (os !! o).
(** the pointers held by [o.mv] *)
Definition the_mv (o : obj) : M (list loc) :=
  ob ← object o; ret (mv ob).
(** [mv[i]] for an [int] or [size_t] index *)
Definition mv_at (vs : list loc) (i : Z) : M loc :=
  k ← index i; defined (vs !! k).
Definition new_object (ob : MultiVector) : M obj :=
  os ← gets objects;
  modify (set_objects (os ++ [ob])) ;;
  ret (length os).
(** The allocation [std::vector] makes for [n] elements: none for [n = 0]. *)
Definition allocate (n : nat) : M nat :=
  match n with
  | O => ret O
  | S _ => b ← gets brk; modify (set_brk (b + n)%nat) ;; ret b
  end.

(** Modelled from the spec: [nvec()] is defined in the header
    [multivector.hpp], of which only the include is known; the spec says it
    returns [N], the current number of contained vectors. *)
Definition nvec (this : obj) : M Z :=
  vs ← the_mv this; ret (Z.of_nat (length vs)).

(** [MultiVector::MultiVector()] *)
Definition MultiVector_new : M obj :=
  new_object {| mv_begin := 0; mv := [] |}.

(** The loop of the constructor from a template: every slot becomes
    [v.copy()], then is zeroed. *)
Definition zeroed_copies (v : loc) (n : nat) : M (list loc) :=
  foldM (λ vs _, vj ← call_copy v; call_zero vj ;; ret (vs ++ [vj]))
        [] (seq 0 n).

(** [MultiVector::MultiVector(const GenericVector & v, int nvec)].
    [mv(nvec)] converts [nvec] to [size_t]; a negative count is beyond
    [max_size()] and [std::vector] throws [std::length_error]. *)
Definition MultiVector_from (v : loc) (nvec : Z) : M obj :=
  if decide (nvec < 0) then throw
  else
    b ← allocate (Z.to_nat nvec);
    vs ← zeroed_copies v (Z.to_nat nvec);
    new_object {| mv_begin := b; mv := vs |}.

(** [MultiVector::dot(const GenericVector & v, Array<double> & m)] *)
Definition dot_v (this : obj) (v : loc) (m : arr) : M unit :=
  vs ← the_mv this;
  foldM (λ im vj, x ← call_inner vj v; array_store m im x ;; ret (S im))
        O vs ;;
  ret tt.

(** The body of the inner loop of [dot_self],
    [m[i + s*j] = m[j + s*i] = mv[i]->inner(mv[j])]: the inner product is
    evaluated once, stored at [j + s*i], and the value of that assignment,
    read back from the cell, is stored at [i + s*j]. *)
Definition dot_self_pair (vs : list loc) (m : arr) (s i j : Z) : M unit :=
  vi ← mv_at vs i;
  vj ← mv_at vs j;
  x ← call_inner vi vj;
  si ← int_op (s * i);
  ji ← int_op (j + si);
  kji ← index ji;
  array_store m kji x ;;
  y ← array_load m kji;
  sj ← int_op (s * j);
  ij ← int_op (i + sj);
  kij ← index ij;
  array_store m kij y.

(** The body of the outer loop of [dot_self]: the diagonal entry, then the
    inner loop over [j < i]. *)
Definition dot_self_row (vs : list loc) (m : arr) (s i : Z) : M unit :=
  vi ← mv_at vs i;
  vi' ← mv_at vs i;
  x ← call_inner vi vi';
  si ← int_op (s * i);
  d ← int_op (i + si);
  kd ← index d;
  array_store m kd x ;;
  for_int 0 i (dot_self_pair vs m s i).

(** [MultiVector::dot_self(Array<double> & m)] *)
Definition dot_self (this : obj) (m : arr) : M unit :=
  vs ← the_mv this;
  let s := to_int (Z.of_nat (length vs)) in
  for_int 0 s (dot_self_row vs m s).

(** The [else] branch of [dot]: the flat fill by two nested loops. *)
Definition dot_nested (vs os : list loc) (m : arr) : M unit :=
  foldM (λ data vi,
           foldM (λ data vj,
                    x ← call_inner vi vj;
                    array_store m data x ;;
                    ret (S data))
                 data os)
        O vs ;;
  ret tt.

(** [MultiVector::dot(const MultiVector & other, Array<double> & m)] *)
Definition dot_mv (this other : obj) (m : arr) : M unit :=
  me ← object this;
  ot ← object other;
  if decide (mv_begin ot = mv_begin me)
  then dot_self this m
  else dot_nested (mv me) (mv ot) m.

(** [MultiVector::reduce(GenericVector & v, const Array<double> & alpha)] *)
Definition reduce (this : obj) (v : loc) (alpha : arr) : M unit :=
  vs ← the_mv this;
  foldM (λ data vi, a ← array_load alpha data; call_axpy v a vi ;;
                    ret (S data))
        O vs ;;
  ret tt.

(** [MultiVector::axpy(double a, const GenericVector & y)] *)
Definition axpy_v (this : obj) (a : R) (y : loc) : M unit :=
  vs ← the_mv this;
  forM_ vs (λ vi, call_axpy vi a y).

(** [MultiVector::axpy(const Array<double> & a, const MultiVector & y)] *)
Definition axpy_mv (this : obj) (a : arr) (y : obj) : M unit :=
  n ← nvec this;
  sz ← array_size a;
  assert (bool_decide (Z.of_nat sz = n)) ;;
  ny ← nvec y;
  assert (bool_decide (ny = n)) ;;
  for_int 0 n (λ i,
    vs ← the_mv this;
    vi ← mv_at vs i;
    ai ← (k ← index i; array_load a k);
    ys ← the_mv y;
    yi ← mv_at ys i;
    call_axpy vi ai yi).

(** [MultiVector::scale(int k, double a)] *)
Definition scale_k (this : obj) (k : Z) (a : R) : M unit :=
  vs ← the_mv this;
  vk ← mv_at vs k;
  call_scale vk a.

(** [MultiVector::scale(const Array<double> & a)] *)
Definition scale_a (this : obj) (a : arr) : M unit :=
  vs ← the_mv this;
  foldM (λ data vj, x ← array_load a data; call_scale vj x ;; ret (S data))
        O vs ;;
  ret tt.

(** [MultiVector::zero()] *)
Definition zero (this : obj) : M unit :=
  vs ← the_mv this;
  forM_ vs call_zero.

(** [MultiVector::norm_all(const std::string norm_type, Array<double> & norms)] *)
Definition norm_all (this : obj) (norm_type : string) (norms : arr) : M unit :=
  vs ← the_mv this;
  foldM (λ data vi, x ← call_norm vi norm_type; array_store norms data x ;;
                    ret (S data))
        O vs ;;
  ret tt.

(** [MultiVector::swap(MultiVector & other)]: [mv.swap(other.mv)] exchanges
    the element buffers of the two vectors. *)
Definition swap (this other : obj) : M unit :=
  me ← object this;
  ot ← object other;
  modify (λ w, set_objects (<[this := ot]> (objects w)) w) ;;
  modify (λ w, set_objects (<[other := me]> (objects w)) w).

End MultiVector.

(** ** A concrete vector capability: integer vectors, with exact arithmetic

    Used to run the methods on concrete worlds. *)

Definition Zinner (x y : list Z) : Z := foldr Z.add 0 (zip_with Z.mul x y).
Definition Zaxpy (a : Z) (x y : list Z) : list Z :=
  imap (λ i yi, yi + a * default 0 (x !! i)) y.
Definition Zzero (x : list Z) : list Z := (λ _, 0) <$> x.
Definition Zscale (a : Z) (x : list Z) : list Z := Z.mul a <$> x.
Definition Znorm (t : string) (x : list Z) : Z :=
  if decide (t = "linf") then foldr Z.max 0 (Z.abs <$> x)
  else foldr Z.add 0 (Z.abs <$> x).

#[export] Instance ZVector : GenericVector Z (list Z) :=
  {| gv_zero := Zzero; gv_axpy := Zaxpy; gv_inner := Zinner;
     gv_scale := Zscale; gv_norm := Znorm |}.

(** A world with three vectors held by the [MultiVector] at address 0, an
    empty [MultiVector] at 1, a one-vector [MultiVector] at 2 that holds
    the vector at 3, a buffer of ten cells, a coefficient array and a
    one-hot coefficient array. *)
Definition ob0 : MultiVector := {| mv_begin := 1; mv := [0; 1; 2]%nat |}.
Definition ob1 : MultiVector := {| mv_begin := 0; mv := [] |}.
Definition ob2 : MultiVector := {| mv_begin := 4; mv := [3]%nat |}.
Definition buf0 : list Z := [0; 0; 0; 0; 0; 0; 0; 0; 0; 77].

Definition w0 : @World Z (list Z) :=
  {| vectors := [[1; 2]; [3; 4]; [5; 6]; [1; 1]];
     arrays := [buf0; [1; 0; 2]; [0; 1; 0]];
     objects := [ob0; ob1; ob2];
     brk := 5;
     trace := [] |}.

(** [w0] after [scale] of the MultiVector at 0 by the ten-cell buffer. *)
Definition w0_scaled : @World Z (list Z) :=
  {| vectors := [[0; 0]; [0; 0]; [0; 0]; [1; 1]];
     arrays := arrays w0;
     objects := objects w0;
     brk := 5;
     trace := [CallScale 0%nat 0; CallScale 1%nat 0; CallScale 2%nat 0] |}.

(** [w0] after a default-constructed MultiVector has been added, at 3. *)
Definition w0_new : @World Z (list Z) :=
  {| vectors := vectors w0;
     arrays := arrays w0;
     objects := [ob0; ob1; ob2; {| mv_begin := 0; mv := [] |}];
     brk := 5;
     trace := [] |}.

(** A world with only a template vector of dimension 5 filled with ones
    and a buffer of nine cells. *)
Definition w_ones : @World Z (list Z) :=
  {| vectors := [[1; 1; 1; 1; 1]];
     arrays := [[0; 0; 0; 0; 0; 0; 0; 0; 0]];
     objects := [];
     brk := 1;
     trace := [] |}.

(** The spec's end-to-end scenario: construct three zeroed copies of the
    template, add the template to each, take the Gram matrix. *)
Definition end_to_end : M unit :=
  bind (MultiVector_from 0 3) (λ this,
  bind (axpy_v this 1 0) (λ _,
  dot_self this 0)).

(** [w0] after the MultiVector at 0 has been swapped with the one at 1. *)
Definition w0_swapped : @World Z (list Z) :=
  {| vectors := vectors w0;
     arrays := arrays w0;
     objects := [ob1; ob0; ob2];
     brk := 5;
     trace := [] |}.

(** [w0] with a single array, of two cells: shorter than the three
    vectors of the MultiVector at 0. *)
Definition w_short : @World Z (list Z) :=
  {| vectors := vectors w0;
     arrays := [[7; 7]];
     objects := objects w0;
     brk := 5;
     trace := [] |}.

(** [w0] with a single coefficient array, [1; 1; 0]. *)
Definition w_alias : @World Z (list Z) :=
  {| vectors := vectors w0;
     arrays := [[1; 1; 0]];
     objects := objects w0;
     brk := 5;
     trace := [] |}.

(** [w_alias] after [reduce] of the MultiVector at 0 into its own vector
    at position 1, with the coefficients [1; 1; 0]. *)
Definition w_alias_reduced : @World Z (list Z) :=
  {| vectors := [[1; 2]; [8; 12]; [5; 6]; [1; 1]];
     arrays := [[1; 1; 0]];
     objects := objects w0;
     brk := 5;
     trace := [CallAxpy 1%nat 1 0%nat; CallAxpy 1%nat 1 1%nat;
               CallAxpy 1%nat 0 2%nat] |}.

(** ** Reading a world and a trace *)

Section Observations.

Context {R V : Type} `{GV : GenericVector R V}.

(** The values held at the addresses [ls], when all of them are live. *)
Definition values (w : @World R V) (ls : list loc) : option (list V) :=
  mapM (λ l, vectors w !! l) ls.

(** The cells of array [m] stored into by a trace, in order. *)
Definition stores_to (m : arr) (t : list (@event R)) : list nat :=
  omap (λ e, match e with
             | Store m' k _ => if decide (m' = m) then Some k else None
             | _ => None
             end) t.


(** The inner products a trace evaluates, in order. *)
Definition inner_calls (t : list (@event R)) : list (nat * nat) :=
  omap (λ e, match e with CallInner x y => Some (x, y) | _ => None end) t.

(** The world after array [m] has become [buf] and the events [t] have
    happened. *)
Definition filled (m : arr) (buf : list R) (t : list event)
    (w : @World R V) : World :=
  set_trace (trace w ++ t) (set_arrays (<[m := buf]> (arrays w)) w).

(** The events of a flat fill: for each element, the call that produces the
    value, then the store at the running position. *)
Fixpoint fill_events {A} (m : arr) (ev : A → @event R) (k : nat)
    (l : list A) (rs : list R) : list event :=
  match l, rs with
  | x :: l', r :: rs' => ev x :: Store m k r :: fill_events m ev (S k) l' rs'
  | _, _ => []
  end.

(** The events of [dot_nested]: row after row. *)
Fixpoint nested_events (m : arr) (os : list loc) (ys : list V) (k : nat)
    (vs : list loc) (xs : list V) : list (@event R) :=
  match vs, xs with
  | vi :: vs', xi :: xs' =>
      fill_events m (CallInner vi) k os (gv_inner xi <$> ys)
      ++ nested_events m os ys (k + length os) vs' xs'
  | _, _ => []
  end.

(** The output buffer and the events of [dot_self], replayed on the values
    [xs] held by the vectors [ls]: after [c] turns of the inner loop in row
    [i], and after [r] turns of the outer loop. *)
Fixpoint gram_row_buf (n i : nat) (xi : V) (xs : list V) (c : nat)
    (buf : list R) : list R :=
  match c with
  | O => buf
  | S c' =>
      let b := gram_row_buf n i xi xs c' buf in
      match xs !! c' with
      | Some xj => <[(i + n * c')%nat := gv_inner xi xj]>
                     (<[(c' + n * i)%nat := gv_inner xi xj]> b)
      | None => b
      end
  end.

Fixpoint gram_row_events (m : arr) (n i : nat) (vi : loc) (xi : V)
    (ls : list loc) (xs : list V) (c : nat) : list (@event R) :=
  match c with
  | O => []
  | S c' =>
      gram_row_events m n i vi xi ls xs c'
      ++ match ls !! c', xs !! c' with
         | Some vj, Some xj =>
             [CallInner vi vj;
              Store m (c' + n * i)%nat (gv_inner xi xj);
              Store m (i + n * c')%nat (gv_inner xi xj)]
         | _, _ => []
         end
  end.

Fixpoint gram_buf (n : nat) (xs : list V) (r : nat) (buf : list R)
    : list R :=
  match r with
  | O => buf
  | S r' =>
      let b := gram_buf n xs r' buf in
      match xs !! r' with
      | Some xi => gram_row_buf n r' xi xs r'
                     (<[(r' + n * r')%nat := gv_inner xi xi]> b)
      | None => b
      end
  end.

Fixpoint gram_events (m : arr) (n : nat) (ls : list loc) (xs : list V)
    (r : nat) : list (@event R) :=
  match r with
  | O => []
  | S r' =>
      gram_events m n ls xs r'
      ++ match ls !! r', xs !! r' with
         | Some vi, Some xi =>
             CallInner vi vi :: Store m (r' + n * r')%nat (gv_inner xi xi)
             :: gram_row_events m n r' vi xi ls xs r'
         | _, _ => []
         end
  end.




(** The value accumulated by axpy after axpy, in index order:
    [(...((v + a0*x0) + a1*x1) ...)]. *)
Definition axpy_sum (xv : V) (al : list R) (xs : list V) : V :=
  foldl (λ acc ax, gv_axpy ax.1 ax.2 acc) xv (zip al xs).

(** The vector store after the vectors at [ls] have been given the values
    [ys], one after the other. *)
Definition update_all (ls : list loc) (ys : list V) (h : list V) : list V :=
  foldl (λ h lx, <[lx.1 := lx.2]> h) h (zip ls ys).

(** The events of the constructor's loop: [n] copies of [v], allocated
    from address [l0] on, each zeroed right after it is made. *)
Definition copy_events (v : loc) (l0 n : nat) : list (@event R) :=
  l ← seq l0 n; [CallCopy v l; CallZero l].

(** The methods the theorems on calls range over, [this] aside: both
    [dot], [dot_self], [reduce], both [axpy], both [scale], [zero],
    [norm_all] and [swap].  The constructors, [operator[]] and
    [setSizeFromVector] are not among them. *)
Inductive call : Type :=
| Dot_v (v : loc) (m : arr)
| Dot_mv (other : obj) (m : arr)
| Dot_self (m : arr)
| Reduce (v : loc) (alpha : arr)
| Axpy_v (a : R) (y : loc)
| Axpy_mv (a : arr) (y : obj)
| Scale_k (k : Z) (a : R)
| Scale_a (a : arr)
| Zero
| Norm_all (norm_type : string) (norms : arr)
| Swap (other : obj).

Definition exec (this : obj) (c : call) : @M R V unit :=
  match c with
  | Dot_v v m => dot_v this v m
  | Dot_mv other m => dot_mv this other m
  | Dot_self m => dot_self this m
  | Reduce v alpha => reduce this v alpha
  | Axpy_v a y => axpy_v this a y
  | Axpy_mv a y => axpy_mv this a y
  | Scale_k k a => scale_k this k a
  | Scale_a a => scale_a this a
  | Zero => zero this
  | Norm_all norm_type norms => norm_all this norm_type norms
  | Swap other => swap this other
  end.

(** A computation that, when it returns, leaves every [MultiVector] with
    the sequence it had. *)
Definition keeps_objects {A} (m : @M R V A) : Prop :=
  ∀ w a w', m w = Done (a, w') → objects w' = objects w.

End Observations.

(** ** The rest of the class and the binding *)

Section MoreMethods.

Context {R V : Type} `{GV : GenericVector R V}.

Notation "x ← m ; k" := (bind m (λ x, k))
  (at level 20, m at level 100, k at level 200, only parsing).
Notation "m ;; k" := (bind m (λ _, k))
  (at level 100, k at level 200, right associativity, only parsing).

(** [MultiVector::operator[](int i)], const or not: the shared pointer held
    at position [i]. *)
Definition get_item (this : obj) (i : Z) : @M R V loc :=
  vs ← the_mv this;
  mv_at vs i.

(** [MultiVector::MultiVector(const MultiVector & orig)]: [mv] gets
    [orig.mv.size()] null slots, then [mv[i] = orig.mv[i]->copy()] for
    [i] below [int n = mv.size()].  Every MultiVector gets its size from an
    [int] count (the constructor from a template, [setSizeFromVector]) or
    from another MultiVector, so the size is within [int] and the loop
    fills every slot; a longer sequence, for which the narrowed bound would
    leave null slots, is not given a meaning here. *)
Definition MultiVector_copy (orig : obj) : @M R V obj :=
  os ← the_mv orig;
  if decide (Z.of_nat (length os) ≤ int_max)
  then
    b ← allocate (length os);
    let n := to_int (Z.of_nat (length os)) in
    vs ← foldM (λ vs i, oi ← mv_at os i; c ← call_copy oi; ret (vs ++ [c]))
               [] (seqZ 0 n);
    new_object {| mv_begin := b; mv := vs |}
  else undefined.

(** [py::array_t<double> ma(n)]: a new array of [n] doubles that is not
    initialised; [init k] stands for what the memory holds at cell [k]. *)
Definition new_array (init : nat → R) (n : nat) : @M R V arr :=
  bs ← gets arrays;
  modify (set_arrays (bs ++ [init <$> seq 0 n])) ;;
  ret (length bs).

(** The binding of [dot] with a vector: allocate [nvec()] doubles, wrap
    them as an [Array<double>], fill, return the array. *)
Definition py_dot_v (init : nat → R) (self : obj) (v : loc) : @M R V arr :=
  size ← nvec self;
  ma ← new_array init (Z.to_nat size);
  dot_v self v ma ;;
  ret ma.

(** The binding of [dot] with a MultiVector: [size1*size2] doubles, the
    product taken in [int], once for the array and once for its wrapper. *)
Definition py_dot_mv (init : nat → R) (self other : obj) : @M R V arr :=
  size1 ← nvec self;
  size2 ← nvec other;
  n ← int_op (size1 * size2);
  ma ← new_array init (Z.to_nat n);
  n' ← int_op (size1 * size2);
  dot_mv self other ma ;;
  ret ma.

(** The binding of [norm_all], exposed as [norm]. *)
Definition py_norm (init : nat → R) (self : obj) (norm_type : string)
    : @M R V arr :=
  size ← nvec self;
  ma ← new_array init (Z.to_nat size);
  norm_all self norm_type ma ;;
  ret ma.

(** A computation that, when it returns, leaves the observation [f] of the
    world as it was. *)
Definition keeps {X A} (f : @World R V → X) (m : @M R V A) : Prop :=
  ∀ w a w', m w = Done (a, w') → f w' = f w.

(** The sizes of a world: how many vector objects there are, how long each
    array is, and the next free buffer address. *)
Definition sizes (w : @World R V) : nat * list nat * nat :=
  (length (vectors w), length <$> arrays w, brk w).

(** The vectors a call may change. *)
Definition footprint (ob : MultiVector) (c : @call R) : list loc :=
  match c with
  | Dot_v _ _ | Dot_mv _ _ | Dot_self _ | Norm_all _ _ | Swap _ => []
  | Reduce v _ => [v]
  | Axpy_v _ _ | Axpy_mv _ _ | Scale_k _ _ | Scale_a _ | Zero => mv ob
  end.

(** A computation that, run where [this] is the MultiVector [ob], leaves
    it so and changes no vector outside [S]. *)
Definition confined {A} (this : obj) (ob : MultiVector) (S : list loc)
    (m : @M R V A) : Prop :=
  ∀ w a w',
    objects w !! this = Some ob → m w = Done (a, w') →
    objects w' !! this = Some ob
    ∧ ∀ l : nat, l ∉ S → vectors w' !! l = vectors w !! l.

(** The storage invariant of the worlds that the three constructors and
    the methods of [call] build: the pointers of a MultiVector are pairwise
    distinct and live; two MultiVectors share no pointer; an empty one has
    no element buffer, a non-empty one has a buffer of its own, below the
    next free address.  It is not an invariant of [setSizeFromVector],
    which can leave an empty MultiVector with a buffer. *)
Definition wf (w : @World R V) : Prop :=
  (1 ≤ brk w)%nat
  ∧ (∀ (o : nat) ob, objects w !! o = Some ob →
       NoDup (mv ob)
       ∧ (∀ l : nat, l ∈ mv ob → (l < length (vectors w))%nat)
       ∧ (mv ob = [] → mv_begin ob = O)
       ∧ (mv ob ≠ [] → (0 < mv_begin ob < brk w)%nat))
  ∧ (∀ (o1 o2 : nat) ob1 ob2,
       o1 ≠ o2 → objects w !! o1 = Some ob1 → objects w !! o2 = Some ob2 →
       (∀ l : nat, l ∈ mv ob1 → l ∉ mv ob2)
       ∧ (mv ob1 ≠ [] → mv_begin ob1 ≠ mv_begin ob2)).

End MoreMethods.

(** * Verification *)

Section Proofs.

Context {R V : Type} `{GV : GenericVector R V}.

Implicit Types (w : @World R V) (xs : list V) (buf : list R).

Local Abbreviation M := (@M R V).

(** ** Running the primitives *)

Lemma bind_Done {A B} (m : M A) (f : A → M B) w a w' :
  m w = Done (a, w') → bind m f w = f a w'.
Proof. unfold bind. by intros ->. Qed.

Lemma bind_assoc {A B C} (m : M A) (f : A → M B) (g : B → M C) w :
  bind (bind m f) g w = bind m (λ a, bind (f a) g) w.
Proof. unfold bind. by destruct (m w) as [[a w']| | |]. Qed.

Lemma bind_ret {A B} (a : A) (f : A → M B) w : bind (ret a) f w = f a w.
Proof. done. Qed.

Lemma bind_inv {A B} (m : M A) (f : A → M B) w b w2 :
  bind m f w = Done (b, w2) →
  ∃ a w1, m w = Done (a, w1) ∧ f a w1 = Done (b, w2).
Proof.
  unfold bind. destruct (m w) as [[a w1]| | |] eqn:E; try discriminate.
  intros Hf. by exists a, w1.
Qed.

Lemma deref_run w x vx : vectors w !! x = Some vx → deref x w = Done (vx, w).
Proof. intros Hx. unfold deref, bind, gets, defined. by rewrite Hx. Qed.

Lemma call_inner_run w x y vx vy :
  vectors w !! x = Some vx → vectors w !! y = Some vy →
  call_inner x y w
  = Done (gv_inner vx vy, set_trace (trace w ++ [CallInner x y]) w).
Proof.
  intros Hx Hy. unfold call_inner.
  rewrite (bind_Done _ _ _ _ _ (deref_run _ _ _ Hx)).
  by rewrite (bind_Done _ _ _ _ _ (deref_run _ _ _ Hy)).
Qed.

Lemma call_norm_run w x t vx :
  vectors w !! x = Some vx →
  call_norm x t w = Done (gv_norm t vx, set_trace (trace w ++ [CallNorm x t]) w).
Proof.
  intros Hx. unfold call_norm.
  by rewrite (bind_Done _ _ _ _ _ (deref_run _ _ _ Hx)).
Qed.

Lemma call_axpy_run w y a x vx vy :
  vectors w !! x = Some vx → vectors w !! y = Some vy →
  call_axpy y a x w
  = Done (tt, set_trace (trace w ++ [CallAxpy y a x])
                (set_vectors (<[y := gv_axpy a vx vy]> (vectors w)) w)).
Proof.
  intros Hx Hy. unfold call_axpy.
  rewrite (bind_Done _ _ _ _ _ (deref_run _ _ _ Hx)).
  by rewrite (bind_Done _ _ _ _ _ (deref_run _ _ _ Hy)).
Qed.

Lemma call_scale_run w x a vx :
  vectors w !! x = Some vx →
  call_scale x a w
  = Done (tt, set_trace (trace w ++ [CallScale x a])
                (set_vectors (<[x := gv_scale a vx]> (vectors w)) w)).
Proof.
  intros Hx. unfold call_scale.
  by rewrite (bind_Done _ _ _ _ _ (deref_run _ _ _ Hx)).
Qed.

Lemma call_zero_run w x vx :
  vectors w !! x = Some vx →
  call_zero x w
  = Done (tt, set_trace (trace w ++ [CallZero x])
                (set_vectors (<[x := gv_zero vx]> (vectors w)) w)).
Proof.
  intros Hx. unfold call_zero.
  by rewrite (bind_Done _ _ _ _ _ (deref_run _ _ _ Hx)).
Qed.

Lemma call_copy_run w x vx :
  vectors w !! x = Some vx →
  call_copy x w
  = Done (length (vectors w),
          set_trace (trace w ++ [CallCopy x (length (vectors w))])
            (set_vectors (vectors w ++ [vx]) w)).
Proof.
  intros Hx. unfold call_copy.
  by rewrite (bind_Done _ _ _ _ _ (deref_run _ _ _ Hx)).
Qed.

Lemma array_run w a buf : arrays w !! a = Some buf → array a w = Done (buf, w).
Proof. intros Ha. unfold array, bind, gets, defined. by rewrite Ha. Qed.

Lemma array_size_run w a buf :
  arrays w !! a = Some buf → array_size a w = Done (length buf, w).
Proof.
  intros Ha. unfold array_size.
  by rewrite (bind_Done _ _ _ _ _ (array_run _ _ _ Ha)).
Qed.

Lemma array_load_run w a buf k r :
  arrays w !! a = Some buf → buf !! k = Some r →
  array_load a k w = Done (r, w).
Proof.
  intros Ha Hk. unfold array_load.
  rewrite (bind_Done _ _ _ _ _ (array_run _ _ _ Ha)).
  unfold defined. by rewrite Hk.
Qed.

Lemma array_store_run w a buf k r :
  arrays w !! a = Some buf → (k < length buf)%nat →
  array_store a k r w
  = Done (tt, set_trace (trace w ++ [Store a k r])
                (set_arrays (<[a := <[k := r]> buf]> (arrays w)) w)).
Proof.
  intros Ha Hk. unfold array_store.
  rewrite (bind_Done _ _ _ _ _ (array_run _ _ _ Ha)).
  by rewrite decide_True.
Qed.

Lemma object_run w o ob :
  objects w !! o = Some ob → object o w = Done (ob, w).
Proof. intros Ho. unfold object, bind, gets, defined. by rewrite Ho. Qed.

Lemma the_mv_run w o ob :
  objects w !! o = Some ob → the_mv o w = Done (mv ob, w).
Proof.
  intros Ho. unfold the_mv.
  by rewrite (bind_Done _ _ _ _ _ (object_run _ _ _ Ho)).
Qed.

Lemma nvec_run w o ob :
  objects w !! o = Some ob →
  nvec o w = Done (Z.of_nat (length (mv ob)), w).
Proof.
  intros Ho. unfold nvec.
  by rewrite (bind_Done _ _ _ _ _ (the_mv_run _ _ _ Ho)).
Qed.

Lemma assert_true_run w b : b = true → assert b w = Done (tt, w).
Proof. by intros ->. Qed.

Lemma assert_false_run {B} w b (f : unit → M B) :
  b = false → bind (assert b) f w = AssertFail.
Proof. by intros ->. Qed.

Lemma int_op_run w z : int_min ≤ z ≤ int_max → int_op z w = Done (z, w).
Proof. intros Hz. unfold int_op. by rewrite decide_True. Qed.

Lemma index_run w (k : nat) : index (Z.of_nat k) w = Done (k, w).
Proof.
  unfold index. rewrite decide_True by lia. by rewrite Nat2Z.id.
Qed.

Lemma mv_at_run w (vs : list nat) (i : nat) l :
  vs !! i = Some l → mv_at vs (Z.of_nat i) w = Done (l, w).
Proof.
  intros Hi. unfold mv_at.
  rewrite (bind_Done _ _ _ _ _ (index_run _ _)).
  unfold defined. by rewrite Hi.
Qed.

Lemma to_int_small (n : nat) :
  Z.of_nat n ≤ int_max → to_int (Z.of_nat n) = Z.of_nat n.
Proof.
  unfold int_max, to_int. intros Hn.
  rewrite Z.mod_small by lia. lia.
Qed.

(** ** Loops *)

Lemma foldM_app {A B} (f : B → A → M B) b (l1 l2 : list A) w :
  foldM f b (l1 ++ l2) w = bind (foldM f b l1) (λ b', foldM f b' l2) w.
Proof.
  revert b w. induction l1 as [|a l1 IH]; intros b w; simpl; [done|].
  unfold bind in *. destruct (f b a w) as [[b' w']| | |]; [|done..].
  apply IH.
Qed.

Lemma forM_snoc {A} (l : list A) (a : A) (f : A → M unit) w :
  forM_ (l ++ [a]) f w = bind (forM_ l f) (λ _, f a) w.
Proof.
  unfold forM_. rewrite foldM_app. unfold bind.
  destruct (foldM _ tt l w) as [[[] w']| | |]; [|done..].
  simpl. unfold bind, ret. by destruct (f a w') as [[[] w'']| | |].
Qed.

Lemma for_int_S (n : nat) (body : Z → M unit) w :
  for_int 0 (Z.of_nat (S n)) body w
  = bind (for_int 0 (Z.of_nat n) body) (λ _, body (Z.of_nat n)) w.
Proof.
  unfold for_int. rewrite !Z.sub_0_r, seqZ_S. apply forM_snoc.
Qed.

Lemma for_int_0 (body : Z → M unit) w : for_int 0 0 body w = Done (tt, w).
Proof. done. Qed.

(** ** Flat fills: [dot] with a vector, [norm_all], a row of [dot] *)

Lemma filled_id m buf w : arrays w !! m = Some buf → filled m buf [] w = w.
Proof.
  intros Hm. unfold filled, set_trace, set_arrays. destruct w; simpl in *.
  by rewrite list_insert_id, app_nil_r.
Qed.

Lemma filled_filled m buf1 buf2 t1 t2 w :
  filled m buf2 t2 (filled m buf1 t1 w) = filled m buf2 (t1 ++ t2) w.
Proof.
  unfold filled, set_trace, set_arrays; simpl.
  by rewrite list_insert_insert_eq, app_assoc.
Qed.

Lemma filled_lookup m buf t w :
  (m < length (arrays w))%nat → arrays (filled m buf t w) !! m = Some buf.
Proof. intros Hm. simpl. by apply list_lookup_insert_eq. Qed.

Lemma fill_run {A} (g : A → M R) (ev : A → event) (m : nat) w0
    (l : list A) (rs : list R) :
  Forall2 (λ e r, ∀ w', vectors w' = vectors w0 →
             g e w' = Done (r, set_trace (trace w' ++ [ev e]) w')) l rs →
  ∀ k w buf,
    vectors w = vectors w0 → arrays w !! m = Some buf →
    (k + length l ≤ length buf)%nat →
    foldM (λ k e, bind (g e) (λ r, bind (array_store m k r)
                                     (λ _, ret (S k)))) k l w
    = Done ((k + length l)%nat,
            filled m (take k buf ++ rs ++ drop (k + length l) buf)
                   (fill_events m ev k l rs) w).
Proof.
  induction 1 as [|e r l rs Hx Hl IH]; intros k w buf Hv Hm Hk; simpl in *.
  - rewrite Nat.add_0_r, take_drop. unfold ret. by rewrite filled_id.
  - rewrite bind_assoc, (bind_Done _ _ _ _ _ (Hx w Hv)).
    assert (Hk' : (k < length buf)%nat) by lia.
    rewrite bind_assoc.
    rewrite (bind_Done _ _ _ _ _
               (array_store_run (set_trace (trace w ++ [ev e]) w)
                                m buf k r Hm Hk')).
    rewrite bind_ret.
    assert (Hm' : (m < length (arrays w))%nat) by (by eapply lookup_lt_Some).
    rewrite (IH (S k) _ (<[k := r]> buf)); simpl; auto.
    + f_equal. f_equal; [lia|].
      unfold filled, set_trace, set_arrays; simpl.
      rewrite list_insert_insert_eq. f_equal.
      * f_equal. rewrite Nat.add_succ_r.
        rewrite drop_insert_lt by lia.
        rewrite (take_S_r (<[k:=r]> buf) k r)
          by (by apply list_lookup_insert_eq).
        rewrite take_insert_ge by lia. by rewrite <- app_assoc.
      * by rewrite <- !app_assoc.
    + by apply list_lookup_insert_eq.
    + rewrite length_insert. lia.
Qed.

Lemma values_Forall2 w ls xs :
  values w ls = Some xs ↔ Forall2 (λ l x, vectors w !! l = Some x) ls xs.
Proof. apply mapM_Some. Qed.

Lemma values_length w ls xs : values w ls = Some xs → length xs = length ls.
Proof. intros H%values_Forall2. symmetry. by eapply Forall2_length. Qed.

Lemma values_lookup w ls xs i l :
  values w ls = Some xs → ls !! i = Some l →
  ∃ x, xs !! i = Some x ∧ vectors w !! l = Some x.
Proof.
  intros H%values_Forall2 Hl.
  destruct (Forall2_lookup_l _ _ _ _ _ H Hl) as (x & ? & ?). eauto.
Qed.

Lemma live_insert_other (h : list V) (ls : list nat) xs (v : nat) xv :
  Forall2 (λ l xl, h !! l = Some xl) ls xs → v ∉ ls →
  Forall2 (λ l xl, <[v := xv]> h !! l = Some xl) ls xs.
Proof.
  induction 1 as [|l xl ls xs Hl Hxs IH]; intros Hnin; [constructor|].
  apply not_elem_of_cons in Hnin as [Hne Hnin].
  constructor; [|by apply IH]. by rewrite list_lookup_insert_ne.
Qed.

Lemma values_insert_other w w' (ls : list nat) xs (v : nat) xv :
  values w ls = Some xs → v ∉ ls → vectors w' = <[v := xv]> (vectors w) →
  values w' ls = Some xs.
Proof.
  intros Hxs%values_Forall2 Hnin Hw'. apply values_Forall2.
  induction Hxs as [|l xl ls xs Hl Hxs IH]; [constructor|].
  apply not_elem_of_cons in Hnin as [Hne Hnin].
  constructor; [|by apply IH].
  by rewrite Hw', list_lookup_insert_ne.
Qed.

Lemma values_same_vectors w w' ls :
  vectors w' = vectors w → values w' ls = values w ls.
Proof. unfold values. by intros ->. Qed.

Lemma dot_v_run w this ob v xv m buf xs :
  objects w !! this = Some ob → values w (mv ob) = Some xs →
  vectors w !! v = Some xv → arrays w !! m = Some buf →
  (length (mv ob) ≤ length buf)%nat →
  dot_v this v m w
  = Done (tt, filled m (((λ xi, gv_inner xi xv) <$> xs)
                        ++ drop (length (mv ob)) buf)
                (fill_events m (λ vj, CallInner vj v) O (mv ob)
                             ((λ xi, gv_inner xi xv) <$> xs)) w).
Proof.
  intros Ho Hxs%values_Forall2 Hv Hm Hlen. unfold dot_v.
  rewrite (bind_Done _ _ _ _ _ (the_mv_run _ _ _ Ho)).
  erewrite bind_Done; [done|].
  erewrite (fill_run (λ vj, call_inner vj v) (λ vj, CallInner vj v) m w
              (mv ob) _ _ O w buf); simpl; eauto.
  Unshelve.
  apply Forall2_fmap_r. eapply Forall2_impl; [exact Hxs|].
  intros l xl Hl w' Hw'. apply call_inner_run; by rewrite Hw'.
Qed.

Lemma norm_all_run w this ob t m buf xs :
  objects w !! this = Some ob → values w (mv ob) = Some xs →
  arrays w !! m = Some buf → (length (mv ob) ≤ length buf)%nat →
  norm_all this t m w
  = Done (tt, filled m ((gv_norm t <$> xs) ++ drop (length (mv ob)) buf)
                (fill_events m (λ vi, CallNorm vi t) O (mv ob)
                             (gv_norm t <$> xs)) w).
Proof.
  intros Ho Hxs%values_Forall2 Hm Hlen. unfold norm_all.
  rewrite (bind_Done _ _ _ _ _ (the_mv_run _ _ _ Ho)).
  erewrite bind_Done; [done|].
  erewrite (fill_run (λ vi, call_norm vi t) (λ vi, CallNorm vi t) m w
              (mv ob) _ _ O w buf); simpl; eauto.
  Unshelve.
  apply Forall2_fmap_r. eapply Forall2_impl; [exact Hxs|].
  intros l xl Hl w' Hw'. apply call_norm_run; by rewrite Hw'.
Qed.

(** ** The nested fill of [dot] *)

Lemma splice_take k (row buf : list R) :
  (k + length row ≤ length buf)%nat →
  take (k + length row) (take k buf ++ row ++ drop (k + length row) buf)
  = take k buf ++ row.
Proof.
  intros Hk. rewrite app_assoc. apply take_app_length'.
  rewrite length_app, length_take. lia.
Qed.

Lemma splice_drop k c (row buf : list R) :
  (k + length row ≤ length buf)%nat →
  drop (k + length row + c) (take k buf ++ row ++ drop (k + length row) buf)
  = drop (k + length row + c) buf.
Proof.
  intros Hk. rewrite app_assoc, drop_app_ge;
    rewrite length_app, length_take; [|lia].
  rewrite drop_drop. f_equal. lia.
Qed.

Lemma nested_run m w0 (os : list nat) ys (vs : list nat) xs :
  values w0 os = Some ys →
  Forall2 (λ l xl, vectors w0 !! l = Some xl) vs xs →
  ∀ k w buf,
    vectors w = vectors w0 → arrays w !! m = Some buf →
    (k + length vs * length os ≤ length buf)%nat →
    foldM (λ data vi,
             foldM (λ data vj,
                      bind (call_inner vi vj)
                        (λ r, bind (array_store m data r)
                                (λ _, ret (S data))))
                   data os) k vs w
    = Done ((k + length vs * length os)%nat,
            filled m (take k buf
                      ++ concat ((λ xi, gv_inner xi <$> ys) <$> xs)
                      ++ drop (k + length vs * length os) buf)
                   (nested_events m os ys k vs xs) w).
Proof.
  intros Hys%values_Forall2.
  induction 1 as [|vi xi vs xs Hvi Hvs IH]; intros k w buf Hv Hm Hk;
    simpl in *.
  - rewrite Nat.add_0_r, take_drop. unfold ret. by rewrite filled_id.
  - assert (Hrow : Forall2 (λ e r, ∀ w', vectors w' = vectors w0 →
               call_inner vi e w'
               = Done (r, set_trace (trace w' ++ [CallInner vi e]) w'))
             os (gv_inner xi <$> ys)).
    { apply Forall2_fmap_r. eapply Forall2_impl; [exact Hys|].
      intros l xl Hl w' Hw'. apply call_inner_run; by rewrite Hw'. }
    assert (Hlen : length (gv_inner xi <$> ys) = length os).
    { rewrite length_fmap. symmetry. by eapply Forall2_length. }
    assert (Hm' : (m < length (arrays w))%nat) by (by eapply lookup_lt_Some).
    rewrite (bind_Done _ _ _ _ _
               (fill_run (call_inner vi) (CallInner vi) m w0 os _ Hrow
                         k w buf Hv Hm ltac:(lia))).
    rewrite (IH (k + length os)%nat _
               (take k buf ++ (gv_inner xi <$> ys)
                ++ drop (k + length os) buf)); simpl; auto.
    + rewrite filled_filled. f_equal. f_equal; [lia|]. f_equal.
      remember (gv_inner xi <$> ys) as row. rewrite <- Hlen.
      rewrite splice_take, splice_drop by lia.
      rewrite <- !app_assoc. do 4 f_equal. lia.
    + by apply list_lookup_insert_eq.
    + rewrite !length_app, length_take, length_drop. lia.
Qed.

Lemma dot_nested_run w (vs os : list nat) xs ys m buf :
  values w vs = Some xs → values w os = Some ys →
  arrays w !! m = Some buf →
  (length vs * length os ≤ length buf)%nat →
  dot_nested vs os m w
  = Done (tt, filled m (concat ((λ xi, gv_inner xi <$> ys) <$> xs)
                        ++ drop (length vs * length os) buf)
                (nested_events m os ys O vs xs) w).
Proof.
  intros Hxs%values_Forall2 Hys Hm Hlen. unfold dot_nested.
  erewrite bind_Done; [done|].
  by rewrite (nested_run m w os ys vs xs Hys Hxs O w buf eq_refl Hm Hlen).
Qed.

(** ** [dot_self] *)

Ltac step tac := erewrite bind_Done; [|solve [tac]]; cbv beta.

Lemma index_run' w (z : Z) : 0 ≤ z → index z w = Done (Z.to_nat z, w).
Proof. intros Hz. unfold index. by rewrite decide_True. Qed.

Lemma gram_row_buf_length n i xi xs c buf :
  length (gram_row_buf n i xi xs c buf) = length buf.
Proof.
  induction c as [|c IH]; simpl; [done|].
  destruct (xs !! c); [|done]. by rewrite !length_insert.
Qed.

Lemma gram_buf_length n xs r buf : length (gram_buf n xs r buf) = length buf.
Proof.
  induction r as [|r IH]; simpl; [done|].
  destruct (xs !! r); [|done].
  by rewrite gram_row_buf_length, length_insert.
Qed.

Lemma dot_self_pair_run m w (ls : list nat) xs (i j : nat) vi vj xi xj buf :
  let n := length ls in
  ls !! i = Some vi → ls !! j = Some vj →
  vectors w !! vi = Some xi → vectors w !! vj = Some xj →
  (j < i)%nat → Z.of_nat n * Z.of_nat n ≤ int_max →
  arrays w !! m = Some buf → (n * n ≤ length buf)%nat →
  dot_self_pair ls m (Z.of_nat n) (Z.of_nat i) (Z.of_nat j) w
  = Done (tt, filled m (<[(i + n * j)%nat := gv_inner xi xj]>
                          (<[(j + n * i)%nat := gv_inner xi xj]> buf))
                [CallInner vi vj;
                 Store m (j + n * i)%nat (gv_inner xi xj);
                 Store m (i + n * j)%nat (gv_inner xi xj)] w).
Proof.
  intros n Hi Hj Hxi Hxj Hji Hmax Hm Hlen.
  assert (Hin : (i < n)%nat) by (by eapply lookup_lt_Some).
  assert (Hb : int_min ≤ 0) by (unfold int_min; lia).
  assert (H1 : (j + n * i < length buf)%nat) by nia.
  assert (H2 : (i + n * j < length buf)%nat) by nia.
  unfold dot_self_pair.
  step ltac:(by apply mv_at_run).
  step ltac:(by apply mv_at_run).
  step ltac:(by apply call_inner_run).
  step ltac:(apply int_op_run; nia).
  step ltac:(apply int_op_run; nia).
  step ltac:(apply index_run'; nia).
  replace (Z.to_nat (Z.of_nat j + Z.of_nat n * Z.of_nat i))
    with (j + n * i)%nat by lia.
  step ltac:(by eapply array_store_run).
  step ltac:(eapply array_load_run; simpl;
             [by apply list_lookup_insert_eq; eapply lookup_lt_Some
             |by apply list_lookup_insert_eq]).
  step ltac:(apply int_op_run; nia).
  step ltac:(apply int_op_run; nia).
  step ltac:(apply index_run'; nia).
  replace (Z.to_nat (Z.of_nat i + Z.of_nat n * Z.of_nat j))
    with (i + n * j)%nat by lia.
  erewrite array_store_run; simpl.
  - unfold filled, set_trace, set_arrays; simpl.
    rewrite list_insert_insert_eq, <- !app_assoc. done.
  - apply list_lookup_insert_eq. by eapply lookup_lt_Some.
  - by rewrite length_insert.
Qed.

Lemma gram_row_run m w (ls : list nat) xs (i : nat) vi xi buf :
  let n := length ls in
  values w ls = Some xs → ls !! i = Some vi → xs !! i = Some xi →
  Z.of_nat n * Z.of_nat n ≤ int_max →
  arrays w !! m = Some buf → (n * n ≤ length buf)%nat →
  ∀ c, (c ≤ i)%nat →
    for_int 0 (Z.of_nat c) (dot_self_pair ls m (Z.of_nat n) (Z.of_nat i)) w
    = Done (tt, filled m (gram_row_buf n i xi xs c buf)
                  (gram_row_events m n i vi xi ls xs c) w).
Proof.
  intros n Hxs Hi Hxi Hmax Hm Hlen.
  assert (Hm' : (m < length (arrays w))%nat) by (by eapply lookup_lt_Some).
  destruct (values_lookup _ _ _ _ _ Hxs Hi) as (xi' & Hxi' & Hvi).
  assert (xi' = xi) as -> by congruence.
  induction c as [|c IH]; intros Hc.
  - rewrite for_int_0. by rewrite filled_id.
  - rewrite for_int_S. rewrite (bind_Done _ _ _ _ _ (IH ltac:(lia))).
    destruct (lookup_lt_is_Some_2 ls c) as [vj Hj].
    { apply lookup_lt_Some in Hi. lia. }
    destruct (values_lookup _ _ _ _ _ Hxs Hj) as (xj & Hxj & Hvj).
    erewrite (dot_self_pair_run m _ ls xs i c vi vj xi xj
                (gram_row_buf n i xi xs c buf)); simpl; eauto.
    + rewrite filled_filled. rewrite Hxj, Hj. done.
    + by apply list_lookup_insert_eq.
    + by rewrite gram_row_buf_length.
Qed.

Lemma gram_run m w (ls : list nat) xs buf :
  let n := length ls in
  values w ls = Some xs →
  Z.of_nat n * Z.of_nat n ≤ int_max →
  arrays w !! m = Some buf → (n * n ≤ length buf)%nat →
  ∀ r, (r ≤ n)%nat →
    for_int 0 (Z.of_nat r) (dot_self_row ls m (Z.of_nat n)) w
    = Done (tt, filled m (gram_buf n xs r buf) (gram_events m n ls xs r) w).
Proof.
  intros n Hxs Hmax Hm Hlen.
  assert (Hm' : (m < length (arrays w))%nat) by (by eapply lookup_lt_Some).
  assert (Hb : int_min ≤ 0) by (unfold int_min; lia).
  induction r as [|r IH]; intros Hr.
  - rewrite for_int_0. by rewrite filled_id.
  - rewrite for_int_S. rewrite (bind_Done _ _ _ _ _ (IH ltac:(lia))).
    destruct (lookup_lt_is_Some_2 ls r) as [vi Hi]; [lia|].
    destruct (values_lookup _ _ _ _ _ Hxs Hi) as (xi & Hxi & Hvi).
    assert (Hd : (r + n * r < length buf)%nat) by nia.
    unfold dot_self_row.
    step ltac:(by apply mv_at_run).
    step ltac:(by apply mv_at_run).
    step ltac:(by apply call_inner_run).
    step ltac:(apply int_op_run; nia).
    step ltac:(apply int_op_run; nia).
    step ltac:(apply index_run'; nia).
    replace (Z.to_nat (Z.of_nat r + Z.of_nat n * Z.of_nat r))
      with (r + n * r)%nat by lia.
    step ltac:(eapply array_store_run; simpl;
               [by apply list_lookup_insert_eq
               |by rewrite gram_buf_length]).
    erewrite (gram_row_run m _ ls xs r vi xi
                (<[(r + n * r)%nat := gv_inner xi xi]>
                   (gram_buf n xs r buf))); simpl; eauto.
    + rewrite Hxi, Hi. unfold filled, set_trace, set_arrays; simpl.
      rewrite !list_insert_insert_eq, <- !app_assoc. done.
    + by apply list_lookup_insert_eq; rewrite length_insert.
    + by rewrite length_insert, gram_buf_length.
Qed.

Lemma dot_self_run w this ob m buf xs :
  let n := length (mv ob) in
  objects w !! this = Some ob → values w (mv ob) = Some xs →
  arrays w !! m = Some buf → (n * n ≤ length buf)%nat →
  Z.of_nat n * Z.of_nat n ≤ int_max →
  dot_self this m w
  = Done (tt, filled m (gram_buf n xs n buf)
                (gram_events m n (mv ob) xs n) w).
Proof.
  intros n Ho Hxs Hm Hlen Hmax. unfold dot_self.
  rewrite (bind_Done _ _ _ _ _ (the_mv_run _ _ _ Ho)). cbv zeta.
  rewrite to_int_small by (fold n; nia).
  by apply gram_run.
Qed.

(** Cells of an [n] by [n] matrix stored flat: distinct index pairs are
    distinct cells. *)
Lemma cell_inj (n a b a' b' : nat) :
  (a < n)%nat → (a' < n)%nat → (a + n * b = a' + n * b')%nat →
  a = a' ∧ b = b'.
Proof.
  intros Ha Ha' Heq.
  assert (b = b') as ->; [|lia].
  destruct (lt_eq_lt_dec b b') as [[Hlt|Heq']|Hlt]; [|done|]; nia.
Qed.

Lemma gram_row_buf_other n i xi xs c buf k :
  (∀ j, (j < c)%nat → k ≠ (i + n * j)%nat ∧ k ≠ (j + n * i)%nat) →
  gram_row_buf n i xi xs c buf !! k = buf !! k.
Proof.
  induction c as [|c IH]; intros Hk; simpl; [done|].
  destruct (Hk c ltac:(lia)) as [H1 H2].
  rewrite <- IH by (intros j Hj; apply Hk; lia).
  destruct (xs !! c); [|done].
  by rewrite !list_lookup_insert_ne.
Qed.

Lemma gram_row_buf_pair n i xi xs c buf j xj :
  (i < n)%nat → (c ≤ i)%nat → (j < c)%nat → xs !! j = Some xj →
  (n * n ≤ length buf)%nat →
  gram_row_buf n i xi xs c buf !! (i + n * j)%nat = Some (gv_inner xi xj)
  ∧ gram_row_buf n i xi xs c buf !! (j + n * i)%nat = Some (gv_inner xi xj).
Proof.
  intros Hi Hc Hj Hxj Hlen. induction c as [|c IH]; [lia|]. simpl.
  assert (Hl : length (gram_row_buf n i xi xs c buf) = length buf)
    by apply gram_row_buf_length.
  destruct (decide (j = c)) as [->|Hne].
  - rewrite Hxj. split.
    + apply list_lookup_insert_eq. rewrite length_insert. nia.
    + rewrite list_lookup_insert_ne.
      * apply list_lookup_insert_eq. nia.
      * intros Heq. apply cell_inj in Heq; lia.
  - destruct (IH ltac:(lia) ltac:(lia)) as [IH1 IH2].
    destruct (xs !! c); [|done].
    rewrite !list_lookup_insert_ne; [done|..];
      intros Heq; apply cell_inj in Heq; lia.
Qed.

Lemma gram_buf_beyond n xs r buf k :
  (r ≤ n)%nat → (n * n ≤ k)%nat → gram_buf n xs r buf !! k = buf !! k.
Proof.
  intros Hr Hk. induction r as [|r IH]; simpl; [done|].
  rewrite <- IH by lia. destruct (xs !! r); [|done].
  rewrite gram_row_buf_other by (intros j Hj; nia).
  apply list_lookup_insert_ne. nia.
Qed.

(** After [r] rows, every cell whose two indices are below [r] holds the
    inner product of the vector with the larger index and the vector with
    the smaller one. *)
Lemma gram_buf_lookup n xs r buf a b xa xb :
  length xs = n → (n * n ≤ length buf)%nat → (r ≤ n)%nat →
  (a < r)%nat → (b ≤ a)%nat → xs !! a = Some xa → xs !! b = Some xb →
  gram_buf n xs r buf !! (a + n * b)%nat = Some (gv_inner xa xb)
  ∧ gram_buf n xs r buf !! (b + n * a)%nat = Some (gv_inner xa xb).
Proof.
  intros Hn Hlen Hr Ha Hb Hxa Hxb. induction r as [|r IH]; [lia|]. simpl.
  destruct (lookup_lt_is_Some_2 xs r) as [xr Hxr]; [lia|]. rewrite Hxr.
  destruct (decide (a = r)) as [->|Hne].
  - assert (xr = xa) as -> by congruence.
    destruct (decide (b = r)) as [->|Hb'].
    + assert (xb = xa) as -> by congruence.
      rewrite gram_row_buf_other.
      * split; apply list_lookup_insert_eq; rewrite gram_buf_length; nia.
      * intros j Hj. split; intros Heq; apply cell_inj in Heq; lia.
    + apply gram_row_buf_pair; try done; try lia.
      by rewrite length_insert, gram_buf_length.
  - destruct (IH ltac:(lia) ltac:(lia)) as [IH1 IH2].
    rewrite !gram_row_buf_other.
    + rewrite !list_lookup_insert_ne; [done|..];
        intros Heq; apply cell_inj in Heq; lia.
    + intros j Hj. split; intros Heq; apply cell_inj in Heq; lia.
    + intros j Hj. split; intros Heq; apply cell_inj in Heq; lia.
Qed.

(** ** The trace of [dot_self] *)

Lemma inner_calls_app (t1 t2 : list (@event R)) :
  inner_calls (t1 ++ t2) = inner_calls t1 ++ inner_calls t2.
Proof. apply omap_app. Qed.

Lemma stores_to_app m (t1 t2 : list (@event R)) :
  stores_to m (t1 ++ t2) = stores_to m t1 ++ stores_to m t2.
Proof. apply omap_app. Qed.

Lemma gram_row_events_prefix m n i vi xi (ls : list nat) xs c c' :
  (c ≤ c')%nat →
  ∃ t, gram_row_events m n i vi xi ls xs c'
       = gram_row_events m n i vi xi ls xs c ++ t.
Proof.
  induction 1 as [|c' Hc [t IH]].
  - exists []. by rewrite app_nil_r.
  - simpl. rewrite IH. eexists. by rewrite <- app_assoc.
Qed.

Lemma gram_events_prefix m n (ls : list nat) xs r r' :
  (r ≤ r')%nat →
  ∃ t, gram_events m n ls xs r' = gram_events m n ls xs r ++ t.
Proof.
  induction 1 as [|r' Hr [t IH]].
  - exists []. by rewrite app_nil_r.
  - simpl. rewrite IH. eexists. by rewrite <- app_assoc.
Qed.

(** The evaluation for the pair [j < i] and its two stores are adjacent. *)
Lemma gram_events_pair m n (ls : list nat) xs i j vi vj xi xj :
  (j < i)%nat → (i < n)%nat →
  ls !! i = Some vi → ls !! j = Some vj →
  xs !! i = Some xi → xs !! j = Some xj →
  ∃ t1 t2, gram_events m n ls xs n
           = t1 ++ [CallInner vi vj;
                    Store m (j + n * i)%nat (gv_inner xi xj);
                    Store m (i + n * j)%nat (gv_inner xi xj)] ++ t2.
Proof.
  intros Hji Hin Hi Hj Hxi Hxj.
  destruct (gram_events_prefix m n ls xs (S i) n ltac:(lia)) as [ta ->].
  simpl. rewrite Hi, Hxi.
  destruct (gram_row_events_prefix m n i vi xi ls xs (S j) i ltac:(lia))
    as [tb ->].
  simpl. rewrite Hj, Hxj.
  eexists (gram_events m n ls xs i
           ++ CallInner vi vi :: Store m (i + n * i)%nat (gv_inner xi xi)
              :: gram_row_events m n i vi xi ls xs j), (tb ++ ta).
  repeat progress (rewrite <- ?app_assoc; simpl). done.
Qed.

Lemma gram_row_events_calls m n i vi xi (ls : list nat) xs c :
  length xs = length ls → (c ≤ length ls)%nat →
  length (inner_calls (gram_row_events m n i vi xi ls xs c)) = c.
Proof.
  intros Hlen Hc. induction c as [|c IH]; simpl; [done|].
  destruct (lookup_lt_is_Some_2 ls c) as [vj ->]; [lia|].
  destruct (lookup_lt_is_Some_2 xs c) as [xj ->]; [lia|].
  rewrite inner_calls_app, length_app, IH by lia. simpl. lia.
Qed.

Lemma gram_events_calls m n (ls : list nat) xs r :
  length xs = length ls → (r ≤ length ls)%nat →
  (2 * length (inner_calls (gram_events m n ls xs r)) = r * (r + 1))%nat.
Proof.
  intros Hlen Hr. induction r as [|r IH]; simpl; [done|].
  destruct (lookup_lt_is_Some_2 ls r) as [vi ->]; [lia|].
  destruct (lookup_lt_is_Some_2 xs r) as [xi ->]; [lia|].
  rewrite inner_calls_app, length_app. simpl.
  rewrite gram_row_events_calls by lia. lia.
Qed.

(** ** C1 *)

(** C1. [dot_self] on a MultiVector of [N] live vectors, with a buffer of
    at least [N*N] cells (and [N*N] within [int]), returns and leaves the
    buffer an exactly symmetric Gram matrix: the cells [i + N*j] and
    [j + N*i] are equal, the diagonal cell [i + N*i] holds
    [<mv[i], mv[i]>], and for each pair [j < i] the call makes one
    evaluation of [<mv[i], mv[j]>] and stores that one value in both
    mirrored cells, one store right after the other; in all it makes
    [N(N+1)/2] evaluations. *)
Theorem dot_self_gram w this ob m buf :
  let N := length (mv ob) in
  objects w !! this = Some ob →
  is_Some (values w (mv ob)) →
  arrays w !! m = Some buf →
  (N * N ≤ length buf)%nat →
  Z.of_nat N * Z.of_nat N ≤ int_max →
  ∃ w' out t,
    dot_self this m w = Done (tt, w')
    ∧ arrays w' !! m = Some out
    ∧ trace w' = trace w ++ t
    ∧ (∀ i j, (i < N)%nat → (j < N)%nat →
         out !! (i + N * j)%nat = out !! (j + N * i)%nat)
    ∧ (∀ i vi xi, mv ob !! i = Some vi → vectors w !! vi = Some xi →
         out !! (i + N * i)%nat = Some (gv_inner xi xi))
    ∧ (∀ i j vi vj xi xj,
         (j < i)%nat → mv ob !! i = Some vi → mv ob !! j = Some vj →
         vectors w !! vi = Some xi → vectors w !! vj = Some xj →
         out !! (i + N * j)%nat = Some (gv_inner xi xj)
         ∧ out !! (j + N * i)%nat = Some (gv_inner xi xj)
         ∧ ∃ t1 t2, t = t1 ++ [CallInner vi vj;
                               Store m (j + N * i)%nat (gv_inner xi xj);
                               Store m (i + N * j)%nat (gv_inner xi xj)]
                          ++ t2)
    ∧ (2 * length (inner_calls t) = N * (N + 1))%nat.
Proof.
  intros N Ho [xs Hxs] Hm Hlen Hmax.
  assert (Hxl : length xs = N) by (by eapply values_length).
  assert (Hm' : (m < length (arrays w))%nat) by (by eapply lookup_lt_Some).
  assert (Hval : ∀ i vi xi, mv ob !! i = Some vi →
            vectors w !! vi = Some xi → xs !! i = Some xi).
  { intros i vi xi Hi Hvi.
    destruct (values_lookup _ _ _ _ _ Hxs Hi) as (x' & ? & ?). congruence. }
  eexists _, (gram_buf N xs N buf), (gram_events m N (mv ob) xs N).
  split; [by apply dot_self_run|].
  split; [by apply filled_lookup|].
  split; [done|].
  split; [|split; [|split]].
  - intros i j Hi Hj.
    destruct (lookup_lt_is_Some_2 xs i) as [xi Hxi]; [lia|].
    destruct (lookup_lt_is_Some_2 xs j) as [xj Hxj]; [lia|].
    destruct (le_lt_dec j i) as [Hji|Hij].
    + destruct (gram_buf_lookup N xs N buf i j xi xj) as [-> ->]; auto.
    + destruct (gram_buf_lookup N xs N buf j i xj xi) as [-> ->];
        auto; lia.
  - intros i vi xi Hi Hvi.
    assert (i < N)%nat by (by eapply lookup_lt_Some).
    by destruct (gram_buf_lookup N xs N buf i i xi xi) as [-> _]; eauto.
  - intros i j vi vj xi xj Hji Hi Hj Hvi Hvj.
    assert (i < N)%nat by (by eapply lookup_lt_Some).
    destruct (gram_buf_lookup N xs N buf i j xi xj) as [-> ->];
      eauto; try lia.
    split; [done|]. split; [done|].
    apply gram_events_pair; eauto.
  - apply gram_events_calls; [done|lia].
Qed.

(** ** The layout and the trace of the nested fill *)

Lemma lookup_concat_rows {A B} (f : A → list B) (l : list A) n a b e :
  (∀ e', length (f e') = n) → (b < n)%nat → l !! a = Some e →
  concat (f <$> l) !! (a * n + b)%nat = f e !! b.
Proof.
  intros Hf Hb. revert a. induction l as [|e0 l IH]; intros a Ha; [done|].
  destruct a as [|a]; simpl in *.
  - injection Ha as ->. apply lookup_app_l. by rewrite Hf.
  - rewrite lookup_app_r by (rewrite Hf; lia). rewrite Hf.
    replace (n + a * n + b - n)%nat with (a * n + b)%nat by lia. by apply IH.
Qed.

Lemma nested_lookup xs ys a b xa yb :
  xs !! a = Some xa → ys !! b = Some yb →
  concat ((λ xi, gv_inner xi <$> ys) <$> xs) !! (a * length ys + b)%nat
  = Some (gv_inner xa yb).
Proof.
  intros Ha Hb.
  rewrite (lookup_concat_rows (λ xi, gv_inner xi <$> ys) xs (length ys) a b xa);
    [|intros; by rewrite length_fmap|by eapply lookup_lt_Some|done].
  by rewrite list_lookup_fmap, Hb.
Qed.

Lemma nested_length xs ys :
  length (concat ((λ xi, gv_inner xi <$> ys) <$> xs))
  = (length xs * length ys)%nat.
Proof.
  induction xs as [|xi xs IH]; simpl in *; [done|].
  rewrite length_app, length_fmap. by f_equal.
Qed.

Lemma fill_events_stores {A} m (ev : A → event) k (l : list A) (rs : list R) :
  (∀ e, stores_to m [ev e] = []) → length rs = length l →
  stores_to m (fill_events m ev k l rs) = seq k (length l).
Proof.
  intros Hev. revert k rs. induction l as [|e l IH]; intros k [|r rs] Hlen;
    try done.
  change (fill_events m ev k (e :: l) (r :: rs))
    with ([ev e] ++ [Store m k r] ++ fill_events m ev (S k) l rs).
  rewrite !stores_to_app, Hev, IH by (simpl in Hlen; lia).
  simpl. by rewrite decide_True.
Qed.

Lemma fill_events_calls m vi k (os : list nat) (rs : list R) :
  length rs = length os →
  inner_calls (fill_events m (CallInner vi) k os rs) = (λ vj, (vi, vj)) <$> os.
Proof.
  revert k rs. induction os as [|vj os IH]; intros k [|r rs] Hlen;
    simpl in *; try done.
  f_equal. apply IH. lia.
Qed.

Lemma nested_events_stores m (os : list nat) ys k (vs : list nat) xs :
  length ys = length os → length xs = length vs →
  stores_to m (nested_events m os ys k vs xs)
  = seq k (length vs * length os).
Proof.
  intros Hy. revert k xs. induction vs as [|vi vs IH]; intros k [|xi xs] Hlen;
    try done.
  change (nested_events m os ys k (vi :: vs) (xi :: xs))
    with (fill_events m (CallInner vi) k os (gv_inner xi <$> ys)
          ++ nested_events m os ys (k + length os) vs xs).
  rewrite stores_to_app, fill_events_stores, IH;
    [|simpl in Hlen; lia|done|by rewrite length_fmap].
  simpl. by rewrite seq_app.
Qed.

Lemma nested_events_calls m (os : list nat) ys k (vs : list nat) xs :
  length ys = length os → length xs = length vs →
  inner_calls (nested_events m os ys k vs xs)
  = vi ← vs; (λ vj, (vi, vj)) <$> os.
Proof.
  intros Hy. revert k xs. induction vs as [|vi vs IH]; intros k [|xi xs] Hlen;
    try done.
  change (nested_events m os ys k (vi :: vs) (xi :: xs))
    with (fill_events m (CallInner vi) k os (gv_inner xi <$> ys)
          ++ nested_events m os ys (k + length os) vs xs).
  rewrite inner_calls_app, fill_events_calls, IH;
    [done|simpl in Hlen; lia|by rewrite length_fmap].
Qed.

(** ** C3 *)

(** C3. [dot] with another MultiVector of distinct storage, [size1] live
    vectors in [self], [size2] in [other] and a buffer of at least
    [size1*size2] cells, returns and leaves [out[i*size2 + j]] equal to
    [<self[i], other[j]>] for all [i < size1], [j < size2]; the cells are
    stored one after the other from cell 0 on, and the inner products are
    evaluated in the order of the nested loops, [i] outer and [j] inner. *)
Theorem dot_general_layout w this other me ot m buf :
  let size1 := length (mv me) in
  let size2 := length (mv ot) in
  objects w !! this = Some me →
  objects w !! other = Some ot →
  mv_begin ot ≠ mv_begin me →
  is_Some (values w (mv me)) →
  is_Some (values w (mv ot)) →
  arrays w !! m = Some buf →
  (size1 * size2 ≤ length buf)%nat →
  ∃ w' out t,
    dot_mv this other m w = Done (tt, w')
    ∧ arrays w' !! m = Some out
    ∧ trace w' = trace w ++ t
    ∧ (∀ i j vi vj xi yj,
         mv me !! i = Some vi → mv ot !! j = Some vj →
         vectors w !! vi = Some xi → vectors w !! vj = Some yj →
         out !! (i * size2 + j)%nat = Some (gv_inner xi yj))
    ∧ stores_to m t = seq 0 (size1 * size2)
    ∧ inner_calls t = (vi ← mv me; (λ vj, (vi, vj)) <$> mv ot).
Proof.
  intros size1 size2 Hme Hot Hne [xs Hxs] [ys Hys] Hm Hlen.
  assert (Hm' : (m < length (arrays w))%nat) by (by eapply lookup_lt_Some).
  assert (Hxl : length xs = size1) by (by eapply values_length).
  assert (Hyl : length ys = size2) by (by eapply values_length).
  eexists _, _, _. split.
  { unfold dot_mv.
    rewrite (bind_Done _ _ _ _ _ (object_run _ _ _ Hme)).
    rewrite (bind_Done _ _ _ _ _ (object_run _ _ _ Hot)).
    rewrite decide_False by done.
    by apply dot_nested_run. }
  split; [by apply filled_lookup|]. split; [done|].
  split; [|split].
  - intros i j vi vj xi yj Hi Hj Hvi Hvj.
    destruct (values_lookup _ _ _ _ _ Hxs Hi) as (xi' & Hxi & ?).
    destruct (values_lookup _ _ _ _ _ Hys Hj) as (yj' & Hyj & ?).
    assert (xi' = xi) as -> by congruence.
    assert (yj' = yj) as -> by congruence.
    apply lookup_lt_Some in Hi, Hj.
    rewrite lookup_app_l by (rewrite nested_length; fold size1 size2; nia).
    rewrite <- Hyl. by apply nested_lookup.
  - by apply nested_events_stores.
  - by apply nested_events_calls.
Qed.

(** ** C2 *)

Lemma gram_buf_eq_nested n xs buf :
  (∀ x y : V, x ∈ xs → y ∈ xs → gv_inner x y = gv_inner y x) →
  length xs = n → (n * n ≤ length buf)%nat →
  gram_buf n xs n buf
  = concat ((λ xi, gv_inner xi <$> xs) <$> xs) ++ drop (n * n) buf.
Proof.
  intros Hsym Hn Hlen. apply list_eq. intros k.
  destruct (le_lt_dec (n * n) k) as [Hk|Hk].
  - rewrite gram_buf_beyond by done.
    rewrite lookup_app_r; rewrite nested_length, Hn; [|done].
    rewrite lookup_drop. f_equal. lia.
  - assert (Hn0 : (0 < n)%nat) by lia.
    pose proof (Nat.div_mod k n ltac:(lia)) as Hdm.
    pose proof (Nat.mod_upper_bound k n ltac:(lia)) as Hb.
    set (a := (k / n)%nat) in *. set (b := (k mod n)%nat) in *.
    assert (Ha : (a < n)%nat) by nia.
    destruct (lookup_lt_is_Some_2 xs a) as [xa Hxa]; [lia|].
    destruct (lookup_lt_is_Some_2 xs b) as [xb Hxb]; [lia|].
    rewrite lookup_app_l by (rewrite nested_length, Hn; lia).
    replace k with (a * length xs + b)%nat at 2 by (rewrite Hn; lia).
    rewrite (nested_lookup xs xs a b xa xb) by done.
    replace k with (b + n * a)%nat by lia.
    destruct (le_lt_dec b a) as [Hba|Hab].
    + by destruct (gram_buf_lookup n xs n buf a b xa xb) as [_ ->].
    + destruct (gram_buf_lookup n xs n buf b a xb xa) as [-> _];
        auto; try lia.
      rewrite Hsym; [done|by eapply list_elem_of_lookup_2..].
Qed.

(** C2. When [other] has the storage of [self] (the two [begin()] are
    equal), [dot] is [dot_self].  With an inner product that is symmetric
    on the contained vectors, live vectors and a buffer of at least [N*N]
    cells (and [N*N] within [int]), that fast path returns, and the nested
    loops of the general path, run on the same storage, return with the
    buffers, the vectors and the MultiVectors in the same state. *)
Theorem dot_same_storage w this other me ot m buf :
  let N := length (mv me) in
  (∀ vi vj xi xj,
     vi ∈ mv me → vj ∈ mv me →
     vectors w !! vi = Some xi → vectors w !! vj = Some xj →
     gv_inner xi xj = gv_inner xj xi) →
  objects w !! this = Some me →
  objects w !! other = Some ot →
  mv_begin ot = mv_begin me →
  is_Some (values w (mv me)) →
  arrays w !! m = Some buf →
  (N * N ≤ length buf)%nat →
  Z.of_nat N * Z.of_nat N ≤ int_max →
  dot_mv this other m w = dot_self this m w
  ∧ ∃ w1 w2,
      dot_mv this other m w = Done (tt, w1)
      ∧ dot_nested (mv me) (mv me) m w = Done (tt, w2)
      ∧ arrays w1 = arrays w2
      ∧ vectors w1 = vectors w2
      ∧ objects w1 = objects w2.
Proof.
  intros N Hsym Hme Hot Hbeg [xs Hxs] Hm Hlen Hmax.
  assert (Hfast : dot_mv this other m w = dot_self this m w).
  { unfold dot_mv.
    rewrite (bind_Done _ _ _ _ _ (object_run _ _ _ Hme)).
    rewrite (bind_Done _ _ _ _ _ (object_run _ _ _ Hot)).
    by rewrite decide_True. }
  split; [done|]. rewrite Hfast.
  eexists _, _. split; [by eapply dot_self_run|].
  split; [by eapply dot_nested_run|].
  simpl. split; [|done]. f_equal.
  apply gram_buf_eq_nested; [|by eapply values_length|done].
  intros x y [i Hx]%list_elem_of_lookup [j Hy]%list_elem_of_lookup.
  apply values_Forall2 in Hxs.
  destruct (Forall2_lookup_r _ _ _ _ _ Hxs Hx) as (vi & Hvi & Hxi).
  destruct (Forall2_lookup_r _ _ _ _ _ Hxs Hy) as (vj & Hvj & Hxj).
  eapply Hsym; eauto; by eapply list_elem_of_lookup_2.
Qed.

(** ** [reduce] *)

Lemma reduce_loop w0 (v : nat) alpha al (vs : list nat) xs :
  Forall2 (λ l xl, vectors w0 !! l = Some xl) vs xs →
  v ∉ vs → (v < length (vectors w0))%nat →
  ∀ k w xv,
    vectors w = <[v := xv]> (vectors w0) →
    arrays w !! alpha = Some al →
    (k + length vs ≤ length al)%nat →
    foldM (λ data vi, bind (array_load alpha data)
                        (λ a, bind (call_axpy v a vi)
                                (λ _, ret (S data)))) k vs w
    = Done ((k + length vs)%nat,
            set_trace (trace w ++ zip_with (CallAxpy v) (drop k al) vs)
              (set_vectors
                 (<[v := axpy_sum xv (drop k al) xs]> (vectors w0)) w)).
Proof.
  intros Hvs. induction Hvs as [|vi xi vs xs Hvi Hvs IH];
    intros Hnin Hv k w xv Hw Ha Hk; simpl in *.
  - unfold ret, axpy_sum. rewrite Nat.add_0_r, !zip_with_nil_r. simpl.
    rewrite <- Hw, app_nil_r. by destruct w.
  - apply not_elem_of_cons in Hnin as [Hne Hnin].
    destruct (lookup_lt_is_Some_2 al k) as [a Hak]; [lia|].
    rewrite bind_assoc.
    rewrite (bind_Done _ _ _ _ _ (array_load_run _ _ _ _ _ Ha Hak)).
    assert (Hxi : vectors w !! vi = Some xi)
      by (by rewrite Hw, list_lookup_insert_ne).
    assert (Hxv : vectors w !! v = Some xv)
      by (rewrite Hw; by apply list_lookup_insert_eq).
    rewrite bind_assoc.
    rewrite (bind_Done _ _ _ _ _ (call_axpy_run _ _ a _ _ _ Hxi Hxv)).
    rewrite bind_ret.
    rewrite (IH Hnin Hv (S k) _ (gv_axpy a xi xv)); simpl; auto.
    + rewrite (drop_S al a k Hak). simpl. unfold axpy_sum. simpl.
      rewrite <- app_assoc. simpl.
      do 2 f_equal. lia.
    + by rewrite Hw, list_insert_insert_eq.
    + lia.
Qed.

Lemma axpy_sum_zeros (zero : R) xv n xs :
  (∀ x y : V, gv_axpy zero x y = y) →
  axpy_sum xv (replicate n zero) xs = xv.
Proof.
  intros H0. unfold axpy_sum. revert n xv.
  induction xs as [|xi xs IH]; intros [|n] xv; simpl; try done.
  rewrite H0. apply IH.
Qed.

Lemma axpy_sum_one_hot (zero one : R) xv xs k xk :
  (∀ x y : V, gv_axpy zero x y = y) → xs !! k = Some xk →
  axpy_sum xv (<[k := one]> (replicate (length xs) zero)) xs
  = gv_axpy one xk xv.
Proof.
  intros H0. revert k xv. induction xs as [|xi xs IH]; intros k xv Hk;
    [done|].
  destruct k as [|k]; simpl in *.
  - injection Hk as ->. by apply (axpy_sum_zeros zero).
  - unfold axpy_sum in *. simpl. rewrite H0. by apply IH.
Qed.

(** ** C4 *)

(** C4. [reduce(v, alpha)] with [alpha] of length [N], live vectors and [v]
    not one of the vectors of [self], returns and leaves [v] holding its old
    value plus [alpha[i] * self[i]] summed by one axpy after the other in
    index order; [v] is updated in place and is the only vector that
    changes, so no vector of [self] is mutated, nor any array or
    MultiVector.  With [alpha] one-hot at [k] (where axpy by the zero
    scalar leaves the target as it is and axpy by the unit scalar adds),
    [v] ends as [v + mv[k]]. *)
Theorem reduce_accumulates w this ob (v : nat) xv alpha al :
  let N := length (mv ob) in
  objects w !! this = Some ob →
  is_Some (values w (mv ob)) →
  vectors w !! v = Some xv →
  v ∉ mv ob →
  arrays w !! alpha = Some al →
  length al = N →
  ∃ w' xs,
    reduce this v alpha w = Done (tt, w')
    ∧ values w (mv ob) = Some xs
    ∧ vectors w' = <[v := axpy_sum xv al xs]> (vectors w)
    ∧ values w' (mv ob) = Some xs
    ∧ arrays w' = arrays w
    ∧ objects w' = objects w
    ∧ trace w' = trace w ++ zip_with (CallAxpy v) al (mv ob)
    ∧ (∀ (zero one : R) (add : V → V → V) k xk,
         (∀ x y, gv_axpy zero x y = y) →
         (∀ x y, gv_axpy one x y = add y x) →
         al = <[k := one]> (replicate N zero) → xs !! k = Some xk →
         vectors w' !! v = Some (add xv xk)).
Proof.
  intros N Ho [xs Hxs] Hv Hnin Ha Hlen.
  assert (Hvl : (v < length (vectors w))%nat) by (by eapply lookup_lt_Some).
  assert (Hxl : length xs = N) by (by eapply values_length).
  eexists _, xs. split.
  { unfold reduce.
    rewrite (bind_Done _ _ _ _ _ (the_mv_run _ _ _ Ho)).
    erewrite bind_Done; [done|].
    apply (reduce_loop w v alpha al (mv ob) xs); try done.
    - by apply values_Forall2.
    - by rewrite list_insert_id.
    - fold N. lia. }
  simpl. rewrite drop_0.
  split; [done|]. split; [done|]. split.
  { by eapply values_insert_other. }
  split; [done|]. split; [done|]. split; [done|].
  intros zero one add k xk H0 H1 Hal Hk.
  rewrite list_lookup_insert_eq by done. f_equal.
  rewrite Hal, <- Hxl, (axpy_sum_one_hot zero one xv xs k xk) by done.
  apply H1.
Qed.

(** ** Slot by slot updates: [scale], [axpy] *)

Lemma update_all_length (ls : list nat) ys (h : list V) :
  length (update_all ls ys h) = length h.
Proof.
  unfold update_all. revert ys h.
  induction ls as [|l ls IH]; intros [|y ys] h; simpl; try done.
  by rewrite IH, length_insert.
Qed.

Lemma update_all_other (ls : list nat) ys (h : list V) (l : nat) :
  l ∉ ls → update_all ls ys h !! l = h !! l.
Proof.
  unfold update_all. revert ys h.
  induction ls as [|l0 ls IH]; intros [|y ys] h Hl; simpl; try done.
  apply not_elem_of_cons in Hl as [Hne Hl].
  rewrite IH by done. by apply list_lookup_insert_ne.
Qed.

Lemma update_all_lookup (ls : list nat) ys (h : list V) i (l : nat) y :
  NoDup ls → ls !! i = Some l → ys !! i = Some y → (l < length h)%nat →
  update_all ls ys h !! l = Some y.
Proof.
  revert ys h i. induction ls as [|l0 ls IH]; intros [|y0 ys] h i Hnd Hi Hy Hl;
    try done.
  apply NoDup_cons in Hnd as [Hnin Hnd].
  destruct i as [|i]; simpl in *.
  - injection Hi as ->. injection Hy as ->.
    change (update_all ls ys (<[l := y]> h) !! l = Some y).
    rewrite update_all_other by done. by apply list_lookup_insert_eq.
  - change (update_all ls ys (<[l0 := y0]> h) !! l = Some y).
    eapply IH; eauto. by rewrite length_insert.
Qed.

Lemma update_all_snoc (ls : list nat) ys (h : list V) (l : nat) y :
  length ls = length ys →
  update_all (ls ++ [l]) (ys ++ [y]) h = <[l := y]> (update_all ls ys h).
Proof.
  intros Hlen. unfold update_all.
  rewrite zip_with_app by done. by rewrite foldl_app.
Qed.

Lemma scale_loop (a : nat) al (vs : list nat) xs :
  NoDup vs →
  ∀ k w,
    Forall2 (λ l xl, vectors w !! l = Some xl) vs xs →
    arrays w !! a = Some al →
    (k + length vs ≤ length al)%nat →
    foldM (λ data vj, bind (array_load a data)
                        (λ r, bind (call_scale vj r)
                                (λ _, ret (S data)))) k vs w
    = Done ((k + length vs)%nat,
            set_trace (trace w ++ zip_with CallScale vs (drop k al))
              (set_vectors
                 (update_all vs (zip_with gv_scale (drop k al) xs)
                             (vectors w)) w)).
Proof.
  intros Hnd. revert xs. induction vs as [|vi vs IH];
    intros xs k w Hxs Ha Hk.
  - apply Forall2_nil_inv_l in Hxs as ->. simpl.
    unfold ret, update_all. rewrite Nat.add_0_r, zip_with_nil_r, app_nil_r.
    simpl. by destruct w.
  - apply Forall2_cons_inv_l in Hxs as (xi & xs' & Hvi & Hxs & ->).
    apply NoDup_cons in Hnd as [Hnin Hnd]. simpl in *.
    destruct (lookup_lt_is_Some_2 al k) as [r Hak]; [lia|].
    rewrite bind_assoc.
    rewrite (bind_Done _ _ _ _ _ (array_load_run _ _ _ _ _ Ha Hak)).
    rewrite bind_assoc.
    rewrite (bind_Done _ _ _ _ _ (call_scale_run _ _ r _ Hvi)).
    rewrite bind_ret.
    rewrite (IH Hnd xs' (S k)); simpl; auto.
    + rewrite (drop_S al r k Hak). simpl.
      rewrite <- app_assoc. simpl. do 2 f_equal. lia.
    + by apply live_insert_other.
    + lia.
Qed.

(** ** C5 *)

(** C5, as the code has it.  Per-slice [scale] makes no check of
    [a.size()] against [N].  Whenever [a] has at least [N] entries, so also
    when [a.size() > N], the call returns; it has scaled [self[i]] by [a[i]]
    for every [i < N] and has used no entry of [a] from [N] on; no other
    vector, no array and no MultiVector changes. *)
Theorem scale_unchecked w this ob (a : nat) al :
  let N := length (mv ob) in
  objects w !! this = Some ob →
  is_Some (values w (mv ob)) →
  NoDup (mv ob) →
  arrays w !! a = Some al →
  (N ≤ length al)%nat →
  ∃ w',
    scale_a this a w = Done (tt, w')
    ∧ (∀ i vi xi ai,
         mv ob !! i = Some vi → vectors w !! vi = Some xi →
         al !! i = Some ai → vectors w' !! vi = Some (gv_scale ai xi))
    ∧ (∀ l : nat, l ∉ mv ob → vectors w' !! l = vectors w !! l)
    ∧ arrays w' = arrays w
    ∧ objects w' = objects w
    ∧ trace w' = trace w ++ zip_with CallScale (mv ob) al.
Proof.
  intros N Ho [xs Hxs] Hnd Ha Hlen.
  eexists. split.
  { unfold scale_a.
    rewrite (bind_Done _ _ _ _ _ (the_mv_run _ _ _ Ho)).
    erewrite bind_Done; [done|].
    apply (scale_loop a al (mv ob) xs Hnd O w); try done.
    by apply values_Forall2. }
  simpl. rewrite drop_0.
  split; [|split; [|done]].
  - intros i vi xi ai Hi Hvi Hai.
    destruct (values_lookup _ _ _ _ _ Hxs Hi) as (xi' & Hxi & ?).
    assert (xi' = xi) as -> by congruence.
    eapply update_all_lookup; eauto.
    + by rewrite lookup_zip_with, Hai, Hxi.
    + by eapply lookup_lt_Some.
  - intros l Hl. by apply update_all_other.
Qed.

(** ** Per-slice [axpy] *)

Lemma not_in_take_alias (ls ys : list nat) r (l : nat) :
  (∀ i j l', ys !! i = Some l' → ls !! j = Some l' → i = j) →
  ys !! r = Some l → l ∉ take r ls.
Proof.
  intros Hal Hr [j Hj]%list_elem_of_lookup.
  apply lookup_take_Some in Hj as [Hj Hlt].
  specialize (Hal _ _ _ Hr Hj). lia.
Qed.

Lemma axpy_mv_loop w this me (y : nat) oy (a : nat) al xs zs :
  let N := length (mv me) in
  let news := zip_with (λ az xi, gv_axpy az.1 az.2 xi) (zip al zs) xs in
  let evs := zip_with (λ vi ay, CallAxpy vi ay.1 ay.2) (mv me)
                      (zip al (mv oy)) in
  objects w !! this = Some me → objects w !! y = Some oy →
  values w (mv me) = Some xs → values w (mv oy) = Some zs →
  NoDup (mv me) →
  (∀ i j l, mv oy !! i = Some l → mv me !! j = Some l → i = j) →
  arrays w !! a = Some al → length al = N → length (mv oy) = N →
  ∀ r, (r ≤ N)%nat →
    for_int 0 (Z.of_nat r)
      (λ i, bind (the_mv this) (λ vs, bind (mv_at vs i) (λ vi,
            bind (bind (index i) (λ k, array_load a k)) (λ ai,
            bind (the_mv y) (λ ys, bind (mv_at ys i) (λ yi,
            call_axpy vi ai yi)))))) w
    = Done (tt, set_trace (trace w ++ take r evs)
                  (set_vectors (update_all (take r (mv me)) (take r news)
                                           (vectors w)) w)).
Proof.
  intros N news evs Hme Hoy Hxs Hzs Hnd Halias Ha Hal Hny.
  assert (Hxl : length xs = N) by (by eapply values_length).
  assert (Hzl : length zs = length (mv oy)) by (by eapply values_length).
  induction r as [|r IH]; intros Hr.
  - rewrite for_int_0. simpl. unfold update_all. simpl.
    rewrite app_nil_r. by destruct w.
  - rewrite for_int_S. rewrite (bind_Done _ _ _ _ _ (IH ltac:(lia))).
    destruct (lookup_lt_is_Some_2 (mv me) r) as [vi Hvi]; [fold N; lia|].
    destruct (lookup_lt_is_Some_2 (mv oy) r) as [yi Hyi]; [lia|].
    destruct (lookup_lt_is_Some_2 al r) as [ai Hai]; [lia|].
    destruct (values_lookup _ _ _ _ _ Hxs Hvi) as (xi & Hxi & Hvxi).
    destruct (values_lookup _ _ _ _ _ Hzs Hyi) as (zi & Hzi & Hvzi).
    step ltac:(by apply the_mv_run).
    step ltac:(by apply mv_at_run).
    rewrite bind_assoc.
    step ltac:(apply index_run).
    step ltac:(by eapply array_load_run).
    step ltac:(by apply the_mv_run).
    step ltac:(by apply mv_at_run).
    erewrite call_axpy_run; simpl.
    + assert (Hnew : news !! r = Some (gv_axpy ai zi xi)).
      { unfold news. rewrite !lookup_zip_with, Hai, Hzi. simpl.
        by rewrite Hxi. }
      assert (Hev : evs !! r = Some (CallAxpy vi ai yi)).
      { unfold evs. rewrite !lookup_zip_with, Hvi, Hai. simpl.
        by rewrite Hyi. }
      rewrite (take_S_r _ _ _ Hvi), (take_S_r _ _ _ Hnew),
        (take_S_r _ _ _ Hev).
      rewrite update_all_snoc, <- app_assoc; [done|].
      rewrite !length_take. unfold news.
      rewrite !length_zip_with. lia.
    + rewrite update_all_other; [done|].
      by eapply not_in_take_alias.
    + rewrite update_all_other; [done|].
      eapply not_in_take_alias; [|done].
      intros i j l Hi Hj. by eapply NoDup_lookup.
Qed.

(** ** C6 *)

(** C6. Per-slice [axpy(a, y)] asserts [a.size() == N] and
    [y.nvec() == N].  When both hold (the vectors being live, those of
    [self] pairwise distinct, and [y[i]] no vector of [self] other than
    [self[i]]), the call returns and every [self[i]] has become
    [self[i] + a[i] * y[i]], by one axpy per index in increasing order,
    with no other vector changed.  When [a.size()] differs from [N], or
    [a.size()] is [N] and [y.nvec()] differs from [N], an assertion fails
    and the call does not proceed. *)
Theorem axpy_mv_checked w this me (y : nat) oy (a : nat) al :
  let N := length (mv me) in
  objects w !! this = Some me →
  objects w !! y = Some oy →
  arrays w !! a = Some al →
  (length al = N → length (mv oy) = N →
   is_Some (values w (mv me)) → is_Some (values w (mv oy)) →
   NoDup (mv me) →
   (∀ i j l, mv oy !! i = Some l → mv me !! j = Some l → i = j) →
   ∃ w',
     axpy_mv this a y w = Done (tt, w')
     ∧ (∀ i vi yi xi zi ai,
          mv me !! i = Some vi → mv oy !! i = Some yi →
          vectors w !! vi = Some xi → vectors w !! yi = Some zi →
          al !! i = Some ai →
          vectors w' !! vi = Some (gv_axpy ai zi xi))
     ∧ (∀ l : nat, l ∉ mv me → vectors w' !! l = vectors w !! l)
     ∧ arrays w' = arrays w
     ∧ objects w' = objects w
     ∧ trace w' = trace w
                  ++ zip_with (λ vi ay, CallAxpy vi ay.1 ay.2) (mv me)
                              (zip al (mv oy)))
  ∧ (length al ≠ N → axpy_mv this a y w = AssertFail)
  ∧ (length (mv oy) ≠ N → axpy_mv this a y w = AssertFail).
Proof.
  intros N Hme Hoy Ha.
  split; [|split].
  - intros Hal Hny [xs Hxs] [zs Hzs] Hnd Halias.
    eexists. split.
    { unfold axpy_mv.
      step ltac:(by apply nvec_run).
      step ltac:(by eapply array_size_run).
      step ltac:(apply assert_true_run, bool_decide_eq_true_2; lia).
      step ltac:(by apply nvec_run).
      step ltac:(apply assert_true_run, bool_decide_eq_true_2; lia).
      by eapply (axpy_mv_loop w this me y oy a al xs zs). }
    simpl.
    assert (Hxl : length xs = N) by (by eapply values_length).
    assert (Hzl : length zs = length (mv oy)) by (by eapply values_length).
    rewrite !firstn_all2
      by (rewrite ?length_zip_with; fold N; lia).
    split; [|split; [|done]].
    + intros i vi yi xi zi ai Hi Hyi Hvi Hvyi Hai.
      destruct (values_lookup _ _ _ _ _ Hxs Hi) as (xi' & Hxi & ?).
      destruct (values_lookup _ _ _ _ _ Hzs Hyi) as (zi' & Hzi & ?).
      assert (xi' = xi) as -> by congruence.
      assert (zi' = zi) as -> by congruence.
      eapply update_all_lookup; eauto.
      * rewrite !lookup_zip_with, Hai, Hzi. simpl. by rewrite Hxi.
      * by eapply lookup_lt_Some.
    + intros l Hl. by apply update_all_other.
  - intros Hal. unfold axpy_mv.
    step ltac:(by apply nvec_run).
    step ltac:(by eapply array_size_run).
    apply assert_false_run, bool_decide_eq_false_2. fold N. lia.
  - intros Hny. unfold axpy_mv.
    step ltac:(by apply nvec_run).
    step ltac:(by eapply array_size_run).
    destruct (decide (length al = N)) as [Hal|Hal].
    + step ltac:(apply assert_true_run, bool_decide_eq_true_2; lia).
      step ltac:(by apply nvec_run).
      apply assert_false_run, bool_decide_eq_false_2. fold N. lia.
    + apply assert_false_run, bool_decide_eq_false_2. fold N. lia.
Qed.

(** ** What leaves the MultiVectors as they are *)

Lemma keeps_ret {A} (a : A) : keeps_objects (R:=R) (V:=V) (@ret R V A a).
Proof. intros w a' w' H. by inversion H. Qed.

Lemma keeps_bind {A B} (m : M A) (f : A → M B) :
  keeps_objects m → (∀ a, keeps_objects (R:=R) (V:=V) (f a)) → keeps_objects (R:=R) (V:=V) (bind m f).
Proof.
  intros Hm Hf w b w2 (a & w1 & H1 & H2)%bind_inv.
  rewrite (Hf _ _ _ _ H2). by eapply Hm.
Qed.

Lemma keeps_undefined {A} : keeps_objects (R:=R) (V:=V) (@undefined R V A).
Proof. by intros w a w' H. Qed.

Lemma keeps_gets {A} (f : @World R V → A) : keeps_objects (R:=R) (V:=V) (gets f).
Proof. intros w a w' H. by inversion H. Qed.

Lemma keeps_defined {A} (o : option A) : keeps_objects (R:=R) (V:=V) (@defined R V A o).
Proof. destruct o; [apply keeps_ret|apply keeps_undefined]. Qed.

Lemma keeps_modify (f : @World R V → World) :
  (∀ w, objects (f w) = objects w) → keeps_objects (R:=R) (V:=V) (modify f).
Proof. intros Hf w a w' H. inversion H. apply Hf. Qed.

Lemma keeps_assert b : keeps_objects (R:=R) (V:=V) (@assert R V b).
Proof. destruct b; [apply keeps_ret|by intros w a w' H]. Qed.

Lemma keeps_foldM {A B} (f : B → A → M B) (l : list A) b :
  (∀ b' e, keeps_objects (R:=R) (V:=V) (f b' e)) → keeps_objects (R:=R) (V:=V) (foldM f b l).
Proof.
  intros Hf. revert b. induction l as [|e l IH]; intros b; simpl.
  - apply keeps_ret.
  - apply keeps_bind; [apply Hf|apply IH].
Qed.

Lemma keeps_for_int lo hi (body : Z → M unit) :
  (∀ i, keeps_objects (R:=R) (V:=V) (body i)) → keeps_objects (R:=R) (V:=V) (for_int lo hi body).
Proof. intros Hb. apply keeps_foldM. intros _ i. apply Hb. Qed.

Ltac keeps :=
  repeat first
    [ apply keeps_ret | apply keeps_undefined | apply keeps_gets
    | apply keeps_defined | apply keeps_assert
    | apply keeps_modify; by intros []
    | apply keeps_bind; [|intros ?]
    | apply keeps_foldM; intros ? ?
    | apply keeps_for_int; intros ?
    | case_decide
    | match goal with |- keeps_objects (match ?x with _ => _ end) =>
        destruct x end ].

Lemma keeps_call_axpy (y : nat) (a : R) (x : nat) :
  keeps_objects (R:=R) (V:=V) (call_axpy y a x).
Proof. unfold call_axpy, deref, assign, emit. keeps. Qed.

Lemma keeps_call_inner (x y : nat) : keeps_objects (R:=R) (V:=V) (call_inner x y).
Proof. unfold call_inner, deref, emit. keeps. Qed.

Lemma keeps_call_scale (x : nat) (a : R) : keeps_objects (R:=R) (V:=V) (call_scale x a).
Proof. unfold call_scale, deref, assign, emit. keeps. Qed.

Lemma keeps_call_zero (x : nat) : keeps_objects (R:=R) (V:=V) (call_zero x).
Proof. unfold call_zero, deref, assign, emit. keeps. Qed.

Lemma keeps_call_norm (x : nat) t : keeps_objects (R:=R) (V:=V) (call_norm x t).
Proof. unfold call_norm, deref, emit. keeps. Qed.

Lemma keeps_array_load (a k : nat) : keeps_objects (R:=R) (V:=V) (@array_load R V a k).
Proof. unfold array_load, array. keeps. Qed.

Lemma keeps_array_size (a : nat) : keeps_objects (R:=R) (V:=V) (@array_size R V a).
Proof. unfold array_size, array. keeps. Qed.

Lemma keeps_array_store (a k : nat) (r : R) : keeps_objects (R:=R) (V:=V) (array_store a k r).
Proof. unfold array_store, array, emit. keeps. Qed.

Lemma keeps_the_mv (o : nat) : keeps_objects (R:=R) (V:=V) (@the_mv R V o).
Proof. unfold the_mv, object. keeps. Qed.

Lemma keeps_mv_at (vs : list nat) i : keeps_objects (R:=R) (V:=V) (@mv_at R V vs i).
Proof. unfold mv_at, index. keeps. Qed.

Lemma keeps_int_op z : keeps_objects (R:=R) (V:=V) (@int_op R V z).
Proof. unfold int_op. keeps. Qed.

Lemma keeps_index z : keeps_objects (R:=R) (V:=V) (@index R V z).
Proof. unfold index. keeps. Qed.

Ltac keeps_calls :=
  repeat first
    [ apply keeps_call_axpy | apply keeps_call_inner | apply keeps_call_scale
    | apply keeps_call_zero | apply keeps_call_norm | apply keeps_array_load
    | apply keeps_array_size | apply keeps_array_store | apply keeps_the_mv
    | apply keeps_mv_at | apply keeps_int_op | apply keeps_index
    | progress keeps ].

Lemma keeps_dot_self (this m : nat) : keeps_objects (R:=R) (V:=V) (dot_self this m).
Proof.
  unfold dot_self, dot_self_row, dot_self_pair. keeps_calls.
Qed.

Lemma keeps_exec (this : nat) (c : call) :
  (∀ other, c ≠ Swap other) → keeps_objects (R:=R) (V:=V) (exec this c).
Proof.
  intros Hc. destruct c; simpl; try (by destruct (Hc other)).
  - unfold dot_v. keeps_calls.
  - unfold dot_mv, dot_nested, object. keeps_calls.
  - apply keeps_dot_self.
  - unfold reduce. keeps_calls.
  - unfold axpy_v, forM_. keeps_calls.
  - unfold axpy_mv, nvec. keeps_calls.
  - unfold scale_k. keeps_calls.
  - unfold scale_a. keeps_calls.
  - unfold zero, forM_. keeps_calls.
  - unfold norm_all. keeps_calls.
Qed.

(** ** C7 *)

Lemma swap_run w (this other : nat) me ot :
  objects w !! this = Some me → objects w !! other = Some ot →
  swap this other w
  = Done (tt, set_objects (<[other := me]> (<[this := ot]> (objects w))) w).
Proof.
  intros Hme Hot. unfold swap.
  rewrite (bind_Done _ _ _ _ _ (object_run _ _ _ Hme)).
  by rewrite (bind_Done _ _ _ _ _ (object_run _ _ _ Hot)).
Qed.

(** C7, as the code has it.  A call of [dot] (either form), [dot_self],
    [reduce], [axpy] (either form), [scale] (either form), [zero] or
    [norm_all] that returns leaves every MultiVector with the sequence it
    had, so [nvec()] is the same after as before.  [swap] exchanges the
    sequences of the two MultiVectors: after [A.swap(B)], [A.nvec()] is what
    [B.nvec()] was and [B.nvec()] is what [A.nvec()] was. *)
Theorem nvec_kept_except_swap w (this : nat) (c : call) w' :
  exec this c w = Done (tt, w') →
  ((∀ other, c ≠ Swap other) →
   objects w' = objects w
   ∧ ∀ (o : nat) ob, objects w !! o = Some ob →
       nvec o w' = Done (Z.of_nat (length (mv ob)), w'))
  ∧ (∀ (other : nat) me ot,
       c = Swap other →
       objects w !! this = Some me → objects w !! other = Some ot →
       nvec this w' = Done (Z.of_nat (length (mv ot)), w')
       ∧ nvec other w' = Done (Z.of_nat (length (mv me)), w')).
Proof.
  intros Hrun. split.
  - intros Hc. pose proof (keeps_exec this c Hc _ _ _ Hrun) as Heq.
    split; [done|]. intros o ob Ho. apply nvec_run. by rewrite Heq.
  - intros other me ot -> Hme Hot. simpl in Hrun.
    rewrite (swap_run _ _ _ _ _ Hme Hot) in Hrun.
    injection Hrun as <-.
    assert (Hl : (other < length (<[this := ot]> (objects w)))%nat).
    { rewrite length_insert. by eapply lookup_lt_Some. }
    split; apply nvec_run; simpl.
    + destruct (decide (other = this)) as [->|Hne].
      * assert (me = ot) as -> by congruence.
        by apply list_lookup_insert_eq.
      * rewrite list_lookup_insert_ne by done.
        apply list_lookup_insert_eq. by eapply lookup_lt_Some.
    + by apply list_lookup_insert_eq.
Qed.

(** ** C9 *)

(** C9, as the code has it.  No method checks for a zero-length
    MultiVector.  On one, [dot] (either form), [dot_self], [reduce],
    broadcast [axpy], per-slice [scale], [zero] and [norm_all] return and
    leave the world as it was: no call on a vector, no cell stored.
    Per-slice [axpy] returns likewise when [a.size()] and [y.nvec()] are
    both 0 and fails its assertion otherwise.  Single-slot [scale] indexes
    the empty sequence, which is undefined. *)
Theorem empty_multivector_calls w (this : nat) ob (c : call) :
  objects w !! this = Some ob →
  mv ob = [] →
  match c with
  | Dot_v _ _ | Dot_self _ | Reduce _ _ | Axpy_v _ _ | Scale_a _ | Zero
  | Norm_all _ _ =>
      exec this c w = Done (tt, w)
  | Dot_mv other _ =>
      is_Some (objects w !! other) → exec this c w = Done (tt, w)
  | Axpy_mv a y =>
      ∀ al oy, arrays w !! a = Some al → objects w !! y = Some oy →
        exec this c w
        = if decide (length al = O ∧ length (mv oy) = O)
          then Done (tt, w) else AssertFail
  | Scale_k _ _ => exec this c w = Undefined
  | Swap _ => True
  end.
Proof.
  intros Ho Hmv.
  assert (Hthe : the_mv this w = Done ([], w))
    by (by rewrite (the_mv_run _ _ _ Ho), Hmv).
  destruct c as [v m|other m|m|v alpha|a y|a y|k a|a| |t m|other]; simpl;
    try done.
  - unfold dot_v. by rewrite (bind_Done _ _ _ _ _ Hthe).
  - intros [ot Hot]. unfold dot_mv.
    rewrite (bind_Done _ _ _ _ _ (object_run _ _ _ Ho)).
    rewrite (bind_Done _ _ _ _ _ (object_run _ _ _ Hot)).
    case_decide.
    + unfold dot_self. by rewrite (bind_Done _ _ _ _ _ Hthe).
    + by rewrite Hmv.
  - unfold dot_self. by rewrite (bind_Done _ _ _ _ _ Hthe).
  - unfold reduce. by rewrite (bind_Done _ _ _ _ _ Hthe).
  - unfold axpy_v. by rewrite (bind_Done _ _ _ _ _ Hthe).
  - intros al oy Ha Hoy. unfold axpy_mv.
    step ltac:(by apply nvec_run).
    step ltac:(by eapply array_size_run).
    rewrite Hmv. simpl.
    destruct (decide (length al = O)) as [Hal|Hal].
    + step ltac:(apply assert_true_run, bool_decide_eq_true_2; lia).
      step ltac:(by apply nvec_run).
      destruct (decide (length (mv oy) = O)) as [Hny|Hny].
      * step ltac:(apply assert_true_run, bool_decide_eq_true_2; lia).
        by rewrite decide_True.
      * rewrite decide_False by tauto.
        apply assert_false_run, bool_decide_eq_false_2. lia.
    + rewrite decide_False by tauto.
      apply assert_false_run, bool_decide_eq_false_2. lia.
  - unfold scale_k. rewrite (bind_Done _ _ _ _ _ Hthe).
    unfold mv_at, index, bind. by case_decide.
  - unfold scale_a. by rewrite (bind_Done _ _ _ _ _ Hthe).
  - unfold zero. by rewrite (bind_Done _ _ _ _ _ Hthe).
  - unfold norm_all. by rewrite (bind_Done _ _ _ _ _ Hthe).
Qed.

(** ** C8 *)

Lemma zeroed_copies_loop (v : nat) x {A} (l : list A) :
  ∀ acc w,
    vectors w !! v = Some x →
    foldM (λ vs _, bind (call_copy v)
                     (λ vj, bind (call_zero vj) (λ _, ret (vs ++ [vj]))))
          acc l w
    = Done (acc ++ seq (length (vectors w)) (length l),
            set_trace (trace w
                       ++ copy_events v (length (vectors w)) (length l))
              (set_vectors (vectors w ++ replicate (length l) (gv_zero x))
                           w)).
Proof.
  induction l as [|e l IH]; intros acc w Hv.
  - simpl. unfold ret, copy_events. simpl. rewrite !app_nil_r. by destruct w.
  - simpl. rewrite bind_assoc.
    rewrite (bind_Done _ _ _ _ _ (call_copy_run _ _ _ Hv)).
    rewrite bind_assoc.
    assert (Hz : vectors (set_trace (trace w ++ [CallCopy v (length (vectors w))])
                            (set_vectors (vectors w ++ [x]) w))
                 !! length (vectors w) = Some x).
    { simpl. by rewrite lookup_app_r, Nat.sub_diag. }
    rewrite (bind_Done _ _ _ _ _ (call_zero_run _ _ _ Hz)).
    rewrite bind_ret.
    rewrite (IH _ _); simpl.
    + rewrite insert_app_r_alt, Nat.sub_diag by done. simpl.
      rewrite !length_app. simpl. rewrite Nat.add_1_r.
      unfold copy_events. simpl.
      by rewrite <- !app_assoc.
    + rewrite insert_app_r_alt, Nat.sub_diag by done. simpl.
      by apply lookup_app_l_Some.
Qed.

(** C8. For every [n ≥ 0] and live template vector [v], the constructor
    from [(v, n)] returns a new MultiVector with [nvec() == n] whose [n]
    slots all hold the zero of [v]'s layout (the value [v.zero()] leaves in
    a copy of [v]), each in an object of its own, allocated by the call and
    so distinct from [v] and from every vector that existed; the vectors
    and MultiVectors that existed are unchanged. *)
Theorem construct_from_template w (v : nat) x (n : Z) :
  vectors w !! v = Some x →
  0 ≤ n →
  ∃ (this : nat) w' ob,
    MultiVector_from v n w = Done (this, w')
    ∧ objects w' !! this = Some ob
    ∧ nvec this w' = Done (n, w')
    ∧ length (mv ob) = Z.to_nat n
    ∧ (∀ l : nat, l ∈ mv ob →
         vectors w' !! l = Some (gv_zero x) ∧ (length (vectors w) ≤ l)%nat)
    ∧ NoDup (mv ob)
    ∧ (∀ l : nat, (l < length (vectors w))%nat →
         vectors w' !! l = vectors w !! l)
    ∧ (∀ o : nat, (o < length (objects w))%nat →
         objects w' !! o = objects w !! o).
Proof.
  intros Hv Hn.
  set (k := Z.to_nat n).
  set (L := length (vectors w)).
  assert (Halloc : ∃ b wa, allocate k w = Done (b, wa)
            ∧ vectors wa = vectors w ∧ objects wa = objects w).
  { unfold allocate. destruct k; [by exists O, w|].
    eexists _, _. split; [reflexivity|done]. }
  destruct Halloc as (b & wa & Hal & Hva & Hoa).
  eexists (length (objects w)), _, {| mv_begin := b; mv := seq L k |}.
  split.
  { unfold MultiVector_from. rewrite decide_False by lia.
    rewrite (bind_Done _ _ _ _ _ Hal).
    unfold zeroed_copies.
    erewrite bind_Done;
      [|apply (zeroed_copies_loop v x); by rewrite Hva].
    unfold new_object, bind, gets, modify, ret. simpl.
    rewrite length_seq, Hva, Hoa. fold k L. reflexivity. }
  simpl.
  assert (Hthis : (objects w ++ [{| mv_begin := b; mv := seq L k |}])
                  !! length (objects w)
                  = Some {| mv_begin := b; mv := seq L k |}).
  { by rewrite lookup_app_r, Nat.sub_diag. }
  split; [done|]. split.
  { erewrite nvec_run; [|exact Hthis]. simpl. rewrite length_seq.
    unfold k. by rewrite Z2Nat.id. }
  split; [by rewrite length_seq|]. split.
  { intros l [Hl1 Hl2]%elem_of_seq. split; [|lia].
    rewrite lookup_app_r by (fold L; lia).
    apply lookup_replicate_2. fold L. lia. }
  split; [apply NoDup_seq|]. split.
  - intros l Hl. by apply lookup_app_l.
  - intros o Ho. by apply lookup_app_l.
Qed.

(** ** The stores of the output-producing methods *)



















(** ** C10 *)


(** * More of the class *)

(** ** The values [dot] with a vector and [norm_all] produce *)

Lemma fill_events_calls_to m (v : nat) k (vs : list nat) (rs : list R) :
  length rs = length vs →
  inner_calls (fill_events m (λ vj, CallInner vj v) k vs rs)
  = (λ vi, (vi, v)) <$> vs.
Proof.
  revert k rs. induction vs as [|vi vs IH]; intros k [|r rs] Hlen;
    simpl in *; try done.
  f_equal. apply IH. lia.
Qed.

(** X1. [dot(v, m)] on live vectors with a buffer of at least [N] cells
    returns with [m[i] = <mv[i], v>] for every [i < N]; it evaluates one
    inner product per vector, in index order, each against [v], and
    changes no vector. *)
Theorem dot_v_values w (this : nat) ob (v : nat) xv (m : nat) buf :
  let N := length (mv ob) in
  objects w !! this = Some ob →
  is_Some (values w (mv ob)) →
  vectors w !! v = Some xv →
  arrays w !! m = Some buf →
  (N ≤ length buf)%nat →
  ∃ w' out t,
    dot_v this v m w = Done (tt, w')
    ∧ arrays w' !! m = Some out
    ∧ (∀ i vi xi, mv ob !! i = Some vi → vectors w !! vi = Some xi →
         out !! i = Some (gv_inner xi xv))
    ∧ vectors w' = vectors w
    ∧ trace w' = trace w ++ t
    ∧ inner_calls t = (λ vi, (vi, v)) <$> mv ob.
Proof.
  intros N Ho [xs Hxs] Hv Hm Hlen.
  assert (Hm' : (m < length (arrays w))%nat) by (by eapply lookup_lt_Some).
  eexists _, _, _. split; [by eapply dot_v_run|].
  split; [by apply filled_lookup|]. split; [|split; [done|split; [done|]]].
  - intros i vi xi Hi Hvi.
    destruct (values_lookup _ _ _ _ _ Hxs Hi) as (xi' & Hxi & ?).
    assert (xi' = xi) as -> by congruence.
    apply lookup_app_l_Some. by rewrite list_lookup_fmap, Hxi.
  - apply fill_events_calls_to. rewrite length_fmap.
    by eapply values_length.
Qed.

(** X2. [norm_all(norm_type, norms)] on live vectors with a buffer of at
    least [N] cells returns with [norms[i] = mv[i].norm(norm_type)] for
    every [i < N], and changes no vector. *)
Theorem norm_all_values w (this : nat) ob norm_type (m : nat) buf :
  let N := length (mv ob) in
  objects w !! this = Some ob →
  is_Some (values w (mv ob)) →
  arrays w !! m = Some buf →
  (N ≤ length buf)%nat →
  ∃ w' out,
    norm_all this norm_type m w = Done (tt, w')
    ∧ arrays w' !! m = Some out
    ∧ (∀ i vi xi, mv ob !! i = Some vi → vectors w !! vi = Some xi →
         out !! i = Some (gv_norm norm_type xi))
    ∧ vectors w' = vectors w.
Proof.
  intros N Ho [xs Hxs] Hm Hlen.
  assert (Hm' : (m < length (arrays w))%nat) by (by eapply lookup_lt_Some).
  eexists _, _. split; [by eapply norm_all_run|].
  split; [by apply filled_lookup|]. split; [|done].
  intros i vi xi Hi Hvi.
  destruct (values_lookup _ _ _ _ _ Hxs Hi) as (xi' & Hxi & ?).
  assert (xi' = xi) as -> by congruence.
  apply lookup_app_l_Some. by rewrite list_lookup_fmap, Hxi.
Qed.

(** ** Loops that update one vector per turn: [zero], broadcast [axpy] *)

Lemma forM_cons {A} (e : A) (l : list A) (f : A → M unit) w :
  forM_ (e :: l) f w = bind (f e) (λ _, forM_ l f) w.
Proof.
  unfold forM_. simpl. unfold bind.
  by destruct (f e w) as [[[] w']| | |].
Qed.

Lemma forM_app {A} (l1 l2 : list A) (f : A → M unit) w :
  forM_ (l1 ++ l2) f w = bind (forM_ l1 f) (λ _, forM_ l2 f) w.
Proof.
  unfold forM_. rewrite foldM_app. unfold bind.
  by destruct (foldM _ tt l1 w) as [[[] w']| | |].
Qed.

(** A loop whose turn for [l] replaces the value [x] of [l] by [f x] and
    logs [ev l], in every world whose vectors satisfy [I], where [I]
    survives the updates of the vectors of the loop. *)
Lemma forM_update (f : V → V) (ev : nat → event) (upd : nat → M unit)
    (I : list V → Prop) (vs : list nat) :
  (∀ (l : nat) x w, vectors w !! l = Some x → I (vectors w) →
     upd l w = Done (tt, set_trace (trace w ++ [ev l])
                          (set_vectors (<[l := f x]> (vectors w)) w))) →
  (∀ (l : nat) x h, l ∈ vs → I h → I (<[l := x]> h)) →
  NoDup vs →
  ∀ xs w,
    Forall2 (λ l xl, vectors w !! l = Some xl) vs xs →
    I (vectors w) →
    forM_ vs upd w
    = Done (tt, set_trace (trace w ++ (ev <$> vs))
                  (set_vectors (update_all vs (f <$> xs) (vectors w)) w)).
Proof.
  intros Hupd HI Hnd. induction vs as [|vi vs IH]; intros xs w Hxs Hw.
  - apply Forall2_nil_inv_l in Hxs as ->. unfold forM_, update_all. simpl.
    unfold ret. rewrite app_nil_r. by destruct w.
  - apply Forall2_cons_inv_l in Hxs as (xi & xs' & Hvi & Hxs & ->).
    apply NoDup_cons in Hnd as [Hnin Hnd].
    rewrite forM_cons, (bind_Done _ _ _ _ _ (Hupd _ _ _ Hvi Hw)).
    rewrite (IH (λ l x h Hl, HI l x h (list_elem_of_further _ _ _ Hl))
                Hnd xs'); simpl.
    + by rewrite <- app_assoc.
    + by apply live_insert_other.
    + apply HI; [by left|done].
Qed.

(** X3. [zero()] on live, pairwise distinct vectors returns and leaves
    every [self[i]] holding the zero of its old layout; it changes no other
    vector, no array and no MultiVector, and calls [zero] once per vector,
    in index order. *)
Theorem zero_all w (this : nat) ob :
  objects w !! this = Some ob →
  is_Some (values w (mv ob)) →
  NoDup (mv ob) →
  ∃ w',
    zero this w = Done (tt, w')
    ∧ (∀ i vi xi, mv ob !! i = Some vi → vectors w !! vi = Some xi →
         vectors w' !! vi = Some (gv_zero xi))
    ∧ (∀ l : nat, l ∉ mv ob → vectors w' !! l = vectors w !! l)
    ∧ arrays w' = arrays w
    ∧ objects w' = objects w
    ∧ trace w' = trace w ++ (CallZero <$> mv ob).
Proof.
  intros Ho [xs Hxs] Hnd. eexists. split.
  { unfold zero. rewrite (bind_Done _ _ _ _ _ (the_mv_run _ _ _ Ho)).
    apply (forM_update gv_zero CallZero call_zero (λ _, True) (mv ob));
      try done.
    - intros l x w' Hl _. by apply call_zero_run.
    - by apply values_Forall2. }
  simpl. split; [|split; [|done]].
  - intros i vi xi Hi Hvi.
    destruct (values_lookup _ _ _ _ _ Hxs Hi) as (xi' & Hxi & ?).
    assert (xi' = xi) as -> by congruence.
    eapply update_all_lookup; eauto.
    + by rewrite list_lookup_fmap, Hxi.
    + by eapply lookup_lt_Some.
  - intros l Hl. by apply update_all_other.
Qed.

(** X4. Broadcast [axpy(a, y)], with [y] live and not one of the vectors of
    [self] (live and pairwise distinct), returns and leaves every [self[i]]
    as [self[i] + a*y]; [y], the other vectors, the arrays and the
    MultiVectors are unchanged. *)
Theorem axpy_broadcast w (this : nat) ob (a : R) (y : nat) xy :
  objects w !! this = Some ob →
  is_Some (values w (mv ob)) →
  NoDup (mv ob) →
  vectors w !! y = Some xy →
  y ∉ mv ob →
  ∃ w',
    axpy_v this a y w = Done (tt, w')
    ∧ (∀ i vi xi, mv ob !! i = Some vi → vectors w !! vi = Some xi →
         vectors w' !! vi = Some (gv_axpy a xy xi))
    ∧ (∀ l : nat, l ∉ mv ob → vectors w' !! l = vectors w !! l)
    ∧ arrays w' = arrays w
    ∧ objects w' = objects w
    ∧ trace w' = trace w ++ ((λ vi, CallAxpy vi a y) <$> mv ob).
Proof.
  intros Ho [xs Hxs] Hnd Hy Hnin. eexists. split.
  { unfold axpy_v. rewrite (bind_Done _ _ _ _ _ (the_mv_run _ _ _ Ho)).
    apply (forM_update (gv_axpy a xy) (λ vi, CallAxpy vi a y)
             (λ vi, call_axpy vi a y) (λ h, h !! y = Some xy) (mv ob));
      try done.
    - intros l x w' Hl Hy'. by apply call_axpy_run.
    - intros l x h Hl Hh. rewrite list_lookup_insert_ne; [done|].
      by intros ->.
    - by apply values_Forall2. }
  simpl. split; [|split; [|done]].
  - intros i vi xi Hi Hvi.
    destruct (values_lookup _ _ _ _ _ Hxs Hi) as (xi' & Hxi & ?).
    assert (xi' = xi) as -> by congruence.
    eapply update_all_lookup; eauto.
    + by rewrite list_lookup_fmap, Hxi.
    + by eapply lookup_lt_Some.
  - intros l Hl. by apply update_all_other.
Qed.

(** ** Broadcast [axpy] with one of the MultiVector's own vectors *)

Lemma live_update_all_other (h : list V) (us : list nat) ys
    (ls : list nat) xs :
  Forall2 (λ l xl, h !! l = Some xl) ls xs →
  (∀ l : nat, l ∈ ls → l ∉ us) →
  Forall2 (λ l xl, update_all us ys h !! l = Some xl) ls xs.
Proof.
  induction 1 as [|l xl ls xs Hl Hxs IH]; intros Hdis; [constructor|].
  constructor.
  - rewrite update_all_other; [done|]. apply Hdis. by left.
  - apply IH. intros l' Hl'. apply Hdis. by right.
Qed.

(** X5. Broadcast [axpy(a, y)] where [y] is the MultiVector's own vector
    [self[k]] runs in index order on the shared object: the vectors before
    [k] get [a] times the old [y], [y] itself becomes [y + a*y], and the
    vectors after [k] get [a] times that new value. *)
Theorem axpy_broadcast_own w (this : nat) ob (a : R) (k : nat) (y : nat) xy :
  objects w !! this = Some ob →
  is_Some (values w (mv ob)) →
  NoDup (mv ob) →
  mv ob !! k = Some y →
  vectors w !! y = Some xy →
  ∃ w',
    axpy_v this a y w = Done (tt, w')
    ∧ (∀ i vi xi, (i < k)%nat → mv ob !! i = Some vi →
         vectors w !! vi = Some xi →
         vectors w' !! vi = Some (gv_axpy a xy xi))
    ∧ vectors w' !! y = Some (gv_axpy a xy xy)
    ∧ (∀ i vi xi, (k < i)%nat → mv ob !! i = Some vi →
         vectors w !! vi = Some xi →
         vectors w' !! vi = Some (gv_axpy a (gv_axpy a xy xy) xi))
    ∧ (∀ l : nat, l ∉ mv ob → vectors w' !! l = vectors w !! l).
Proof.
  intros Ho [xs Hxs] Hnd Hk Hy.
  set (vs1 := take k (mv ob)). set (vs2 := drop (S k) (mv ob)).
  set (xs1 := take k xs). set (xs2 := drop (S k) xs).
  set (xy' := gv_axpy a xy xy).
  assert (Hsplit : mv ob = vs1 ++ y :: vs2)
    by (symmetry; by apply take_drop_middle).
  assert (Hyl : (y < length (vectors w))%nat) by (by eapply lookup_lt_Some).
  pose proof Hnd as Hnd'. rewrite Hsplit in Hnd'.
  apply NoDup_app in Hnd' as (Hnd1 & Hdis & Hnd2).
  apply NoDup_cons in Hnd2 as [Hy2 Hnd2].
  assert (Hy1 : y ∉ vs1).
  { intros Hin. apply (Hdis _ Hin). by left. }
  apply values_Forall2 in Hxs.
  assert (Hxs1 : Forall2 (λ l xl, vectors w !! l = Some xl) vs1 xs1)
    by (by apply Forall2_take).
  assert (Hxs2 : Forall2 (λ l xl, vectors w !! l = Some xl) vs2 xs2)
    by (by apply Forall2_drop).
  set (h1 := update_all vs1 (gv_axpy a xy <$> xs1) (vectors w)).
  set (h2 := <[y := xy']> h1).
  set (h3 := update_all vs2 (gv_axpy a xy' <$> xs2) h2).
  assert (Hl1 : length h1 = length (vectors w)) by apply update_all_length.
  assert (Hrun : ∃ t, axpy_v this a y w
                      = Done (tt, set_trace t (set_vectors h3 w))).
  { unfold axpy_v. rewrite (bind_Done _ _ _ _ _ (the_mv_run _ _ _ Ho)).
    rewrite Hsplit, forM_app.
    erewrite bind_Done; cycle 1.
    { apply (forM_update (gv_axpy a xy) (λ vi, CallAxpy vi a y)
               (λ vi, call_axpy vi a y) (λ h, h !! y = Some xy) vs1);
        try done.
      - intros l x w' Hl Hy'. by apply call_axpy_run.
      - intros l x h Hl Hh. rewrite list_lookup_insert_ne; [done|].
        by intros ->. }
    cbv beta. rewrite forM_cons.
    erewrite bind_Done; cycle 1.
    { apply (call_axpy_run _ y a y xy xy); simpl;
        by rewrite update_all_other. }
    cbv beta.
    erewrite (forM_update (gv_axpy a xy') (λ vi, CallAxpy vi a y)
                (λ vi, call_axpy vi a y) (λ h, h !! y = Some xy') vs2);
      try done.
    - simpl. by eexists.
    - intros l x w' Hl Hy'. by apply call_axpy_run.
    - intros l x h Hl Hh. rewrite list_lookup_insert_ne; [done|].
      by intros ->.
    - simpl. apply live_insert_other; [|done].
      apply live_update_all_other; [done|].
      intros l Hl Hin1. apply (Hdis _ Hin1). by right.
    - simpl. apply list_lookup_insert_eq. fold h1. lia. }
  destruct Hrun as [t Hrun]. eexists. split; [exact Hrun|]. simpl.
  split; [|split; [|split]].
  - intros i vi xi Hi Hvi Hxi.
    assert (Hvi1 : vs1 !! i = Some vi) by (by apply lookup_take_Some).
    assert (Hin1 : vi ∈ vs1) by (by eapply list_elem_of_lookup_2).
    destruct (Forall2_lookup_l _ _ _ _ _ Hxs1 Hvi1) as (xi' & Hxi1 & Hxi').
    assert (xi' = xi) as -> by congruence.
    unfold h3. rewrite update_all_other.
    + unfold h2. rewrite list_lookup_insert_ne by (by intros ->).
      eapply update_all_lookup; eauto.
      * by rewrite list_lookup_fmap, Hxi1.
      * by eapply lookup_lt_Some.
    + intros Hin2. apply (Hdis _ Hin1). by right.
  - unfold h3. rewrite update_all_other by done.
    apply list_lookup_insert_eq. lia.
  - intros i vi xi Hi Hvi Hxi.
    assert (Hvi2 : vs2 !! (i - S k)%nat = Some vi).
    { unfold vs2. rewrite lookup_drop. rewrite <- Hvi. f_equal. lia. }
    destruct (Forall2_lookup_l _ _ _ _ _ Hxs2 Hvi2) as (xi' & Hxi2 & Hxi').
    assert (xi' = xi) as -> by congruence.
    eapply update_all_lookup; eauto.
    + by rewrite list_lookup_fmap, Hxi2.
    + unfold h2. rewrite length_insert, Hl1. by eapply lookup_lt_Some.
  - intros l Hl. rewrite Hsplit in Hl.
    apply not_elem_of_app in Hl as [Hl1' Hl2].
    apply not_elem_of_cons in Hl2 as [Hne Hl2].
    unfold h3. rewrite update_all_other by done.
    unfold h2. rewrite list_lookup_insert_ne by done.
    by apply update_all_other.
Qed.

(** ** [operator[]] and single-slot [scale] *)

(** X6. For [0 ≤ k < N], [operator[](k)] returns the pointer at position
    [k] and changes nothing, and [scale(k, a)] makes one call, [*= a], on
    that vector and changes nothing else.  For [k < 0] or [k ≥ N] neither
    checks the index: both are undefined. *)
Theorem scale_single w (this : nat) ob (k : Z) (a : R) :
  objects w !! this = Some ob →
  (∀ (vk : nat) x,
     0 ≤ k → mv ob !! Z.to_nat k = Some vk → vectors w !! vk = Some x →
     get_item this k w = Done (vk, w)
     ∧ scale_k this k a w
       = Done (tt, set_trace (trace w ++ [CallScale vk a])
                     (set_vectors (<[vk := gv_scale a x]> (vectors w)) w)))
  ∧ (k < 0 ∨ Z.of_nat (length (mv ob)) ≤ k →
     get_item this k w = Undefined ∧ scale_k this k a w = Undefined).
Proof.
  intros Ho. split.
  - intros vk x Hk Hvk Hx.
    assert (Hat : mv_at (mv ob) k w = Done (vk, w)).
    { rewrite <- (Z2Nat.id k) by done. by apply mv_at_run. }
    split.
    + unfold get_item. by rewrite (bind_Done _ _ _ _ _ (the_mv_run _ _ _ Ho)).
    + unfold scale_k. rewrite (bind_Done _ _ _ _ _ (the_mv_run _ _ _ Ho)).
      rewrite (bind_Done _ _ _ _ _ Hat). by apply call_scale_run.
  - intros Hk.
    assert (Hat : ∀ B (f : nat → M B), bind (mv_at (mv ob) k) f w = Undefined).
    { intros B f. unfold mv_at, index, bind. case_decide; [|done].
      simpl. rewrite (lookup_ge_None_2 (mv ob)) by lia. done. }
    split.
    + unfold get_item. rewrite (bind_Done _ _ _ _ _ (the_mv_run _ _ _ Ho)).
      specialize (Hat _ ret). unfold bind in *.
      by destruct (mv_at (mv ob) k w) as [[l w']| | |].
    + unfold scale_k. rewrite (bind_Done _ _ _ _ _ (the_mv_run _ _ _ Ho)).
      apply Hat.
Qed.

(** ** [swap] *)

Lemma swap_facts w (a b : nat) oa ob :
  objects w !! a = Some oa →
  objects w !! b = Some ob →
  ∃ w',
    swap a b w = Done (tt, w')
    ∧ objects w' !! a = Some ob
    ∧ objects w' !! b = Some oa
    ∧ (∀ o : nat, o ≠ a → o ≠ b → objects w' !! o = objects w !! o)
    ∧ vectors w' = vectors w
    ∧ arrays w' = arrays w
    ∧ trace w' = trace w
    ∧ brk w' = brk w.
Proof.
  intros Ha Hb.
  assert (Hla : (a < length (objects w))%nat) by (by eapply lookup_lt_Some).
  assert (Hlb : (b < length (objects w))%nat) by (by eapply lookup_lt_Some).
  exists (set_objects (<[b := oa]> (<[a := ob]> (objects w))) w).
  split; [by apply swap_run|]. simpl. split.
  { destruct (decide (b = a)) as [->|Hne].
    - assert (oa = ob) as -> by congruence.
      apply list_lookup_insert_eq. by rewrite length_insert.
    - rewrite list_lookup_insert_ne by done. by apply list_lookup_insert_eq. }
  split; [apply list_lookup_insert_eq; by rewrite length_insert|].
  split; [|done].
  intros o Hoa Hob. by rewrite !list_lookup_insert_ne.
Qed.

(** X7. [A.swap(B)] returns with the two sequences exchanged, buffers
    included, and with nothing else touched: no vector is copied or
    called, so the pointer that [B[i]] returned before is what [A[i]]
    returns after; every other MultiVector keeps its sequence; and a second
    [A.swap(B)] gives back the world as it was. *)
Theorem swap_exchanges w (a b : nat) oa ob :
  objects w !! a = Some oa →
  objects w !! b = Some ob →
  ∃ w',
    swap a b w = Done (tt, w')
    ∧ objects w' !! a = Some ob
    ∧ objects w' !! b = Some oa
    ∧ (∀ o : nat, o ≠ a → o ≠ b → objects w' !! o = objects w !! o)
    ∧ vectors w' = vectors w
    ∧ arrays w' = arrays w
    ∧ trace w' = trace w
    ∧ (∀ i (l : nat), get_item b i w = Done (l, w) →
         get_item a i w' = Done (l, w'))
    ∧ swap a b w' = Done (tt, w).
Proof.
  intros Ha Hb.
  assert (Hla : (a < length (objects w))%nat) by (by eapply lookup_lt_Some).
  assert (Hlb : (b < length (objects w))%nat) by (by eapply lookup_lt_Some).
  set (os' := <[b := oa]> (<[a := ob]> (objects w))).
  assert (Ha' : os' !! a = Some ob).
  { unfold os'. destruct (decide (b = a)) as [->|Hne].
    - assert (oa = ob) as -> by congruence.
      apply list_lookup_insert_eq. by rewrite length_insert.
    - rewrite list_lookup_insert_ne by done. by apply list_lookup_insert_eq. }
  assert (Hb' : os' !! b = Some oa).
  { unfold os'. apply list_lookup_insert_eq. by rewrite length_insert. }
  exists (set_objects os' w).
  split; [by apply swap_run|]. split; [done|]. split; [done|].
  split.
  { intros o Hoa Hob. simpl. unfold os'.
    by rewrite !list_lookup_insert_ne. }
  split; [done|]. split; [done|]. split; [done|]. split.
  - intros i l Hget. unfold get_item in *.
    rewrite (bind_Done _ _ _ _ _ (the_mv_run _ _ _ Hb)) in Hget.
    rewrite (bind_Done _ _ _ _ _ (the_mv_run (set_objects os' w) _ _ Ha')).
    unfold mv_at, bind, index, defined, ret, undefined in *.
    case_decide; [|done]. destruct (mv ob !! Z.to_nat i); [|done].
    by inversion Hget.
  - rewrite (swap_run (set_objects os' w) a b ob oa Ha' Hb').
    f_equal. f_equal. unfold set_objects. simpl.
    destruct w as [h bs os br t]. simpl in *. f_equal.
    apply list_eq. intros o. unfold os'.
    destruct (decide (o = b)) as [->|Hob].
    + rewrite list_lookup_insert_eq by (by rewrite !length_insert). done.
    + rewrite list_lookup_insert_ne by done.
      destruct (decide (o = a)) as [->|Hoa].
      * rewrite list_lookup_insert_eq by (by rewrite !length_insert). done.
      * by rewrite !list_lookup_insert_ne.
Qed.

(** X8. After [A.swap(B)], [A.dot_self] computes what [B.dot_self] would
    have computed before the swap: the same buffer, by the same calls. *)
Theorem gram_after_swap w (a b : nat) oa ob (m : nat) buf :
  let N := length (mv ob) in
  objects w !! a = Some oa →
  objects w !! b = Some ob →
  is_Some (values w (mv ob)) →
  arrays w !! m = Some buf →
  (N * N ≤ length buf)%nat →
  Z.of_nat N * Z.of_nat N ≤ int_max →
  ∃ w1 w2,
    dot_self b m w = Done (tt, w1)
    ∧ bind (swap a b) (λ _, dot_self a m) w = Done (tt, w2)
    ∧ arrays w2 = arrays w1
    ∧ vectors w2 = vectors w1
    ∧ trace w2 = trace w1.
Proof.
  intros N Ha Hb [xs Hxs] Hm Hlen Hmax.
  destruct (swap_facts w a b oa ob Ha Hb)
    as (w' & Hsw & Ha' & _ & _ & Hv & Har & Htr & _).
  eexists _, _. split; [by apply dot_self_run|].
  split.
  { rewrite (bind_Done _ _ _ _ _ Hsw).
    apply (dot_self_run w' a ob m buf xs); try done.
    - unfold values. by rewrite Hv.
    - by rewrite Har. }
  simpl. by rewrite Har, Hv, Htr.
Qed.

(** ** The constructors, field by field *)

Lemma allocate_run w n :
  ∃ b wa,
    allocate n w = Done (b, wa)
    ∧ b = match n with O => O | S _ => brk w end
    ∧ vectors wa = vectors w ∧ arrays wa = arrays w
    ∧ objects wa = objects w ∧ trace wa = trace w
    ∧ brk wa = (brk w + n)%nat.
Proof.
  destruct n as [|n]; simpl.
  - exists O, w. by rewrite Nat.add_0_r.
  - eexists _, _. split; [reflexivity|]. done.
Qed.

Lemma new_object_run w ob :
  new_object ob w
  = Done (length (objects w), set_objects (objects w ++ [ob]) w).
Proof. done. Qed.

Lemma MultiVector_from_run w (v : nat) x (n : Z) :
  vectors w !! v = Some x → 0 ≤ n →
  ∃ w' b,
    MultiVector_from v n w = Done (length (objects w), w')
    ∧ vectors w' = vectors w ++ replicate (Z.to_nat n) (gv_zero x)
    ∧ objects w'
      = objects w ++ [{| mv_begin := b;
                         mv := seq (length (vectors w)) (Z.to_nat n) |}]
    ∧ b = match Z.to_nat n with O => O | S _ => brk w end
    ∧ arrays w' = arrays w
    ∧ brk w' = (brk w + Z.to_nat n)%nat.
Proof.
  intros Hv Hn.
  destruct (allocate_run w (Z.to_nat n))
    as (b & wa & Hal & Hb & Hva & Haa & Hoa & Hta & Hba).
  eexists _, b. split.
  { unfold MultiVector_from. rewrite decide_False by lia.
    rewrite (bind_Done _ _ _ _ _ Hal). unfold zeroed_copies.
    erewrite bind_Done;
      [|apply (zeroed_copies_loop v x); by rewrite Hva].
    rewrite new_object_run. simpl. rewrite Hoa. reflexivity. }
  simpl. by rewrite length_seq, Hva, Haa, Hba.
Qed.

Lemma copy_loop w (os : list nat) xs :
  Forall2 (λ l xl, vectors w !! l = Some xl) os xs →
  ∀ r, (r ≤ length os)%nat →
    foldM (λ vs i, bind (mv_at os i)
                     (λ oi, bind (call_copy oi) (λ c, ret (vs ++ [c]))))
          [] (seqZ 0 (Z.of_nat r)) w
    = Done (seq (length (vectors w)) r,
            set_trace (trace w
                       ++ zip_with CallCopy (take r os)
                                   (seq (length (vectors w)) r))
              (set_vectors (vectors w ++ take r xs) w)).
Proof.
  intros Hxs. pose proof (Forall2_length _ _ _ Hxs) as Hlen.
  induction r as [|r IH]; intros Hr.
  - simpl. unfold ret. rewrite !app_nil_r. by destruct w.
  - rewrite seqZ_S, foldM_app, (bind_Done _ _ _ _ _ (IH ltac:(lia))).
    destruct (lookup_lt_is_Some_2 os r) as [oi Hoi]; [lia|].
    destruct (Forall2_lookup_l _ _ _ _ _ Hxs Hoi) as (xi & Hxi & Hvi).
    rewrite (take_S_r os r oi Hoi), (take_S_r xs r xi Hxi), seq_S.
    rewrite zip_with_app by (rewrite length_take, length_seq; lia).
    cbn [foldM]. rewrite bind_assoc.
    step ltac:(by apply mv_at_run).
    rewrite bind_assoc.
    erewrite bind_Done; cycle 1.
    { apply (call_copy_run _ oi xi). simpl. by apply lookup_app_l_Some. }
    cbv beta. rewrite !bind_ret. simpl.
    rewrite length_app, length_take, Nat.min_l by lia.
    by rewrite <- !app_assoc.
Qed.

Lemma MultiVector_copy_run w (orig : nat) oo xs :
  objects w !! orig = Some oo → values w (mv oo) = Some xs →
  Z.of_nat (length (mv oo)) ≤ int_max →
  ∃ w' b,
    MultiVector_copy orig w = Done (length (objects w), w')
    ∧ vectors w' = vectors w ++ xs
    ∧ objects w'
      = objects w ++ [{| mv_begin := b;
                         mv := seq (length (vectors w)) (length (mv oo)) |}]
    ∧ b = match length (mv oo) with O => O | S _ => brk w end
    ∧ arrays w' = arrays w
    ∧ brk w' = (brk w + length (mv oo))%nat.
Proof.
  intros Ho Hxs Hmax.
  pose proof (values_length _ _ _ Hxs) as Hxl.
  apply values_Forall2 in Hxs.
  destruct (allocate_run w (length (mv oo)))
    as (b & wa & Hal & Hb & Hva & Haa & Hoa & Hta & Hba).
  eexists _, b. split.
  { unfold MultiVector_copy.
    rewrite (bind_Done _ _ _ _ _ (the_mv_run _ _ _ Ho)).
    rewrite decide_True by done.
    rewrite (bind_Done _ _ _ _ _ Hal). cbv zeta.
    rewrite to_int_small by done.
    erewrite bind_Done;
      [|apply (copy_loop wa (mv oo) xs); [by rewrite Hva|done]].
    rewrite new_object_run. simpl. rewrite Hoa. reflexivity. }
  simpl. rewrite firstn_all2 by lia.
  by rewrite Hva, Haa, Hba.
Qed.

(** X9. The copy constructor, on a MultiVector of [N] live vectors,
    returns a new MultiVector with [N] slots, each a newly allocated object
    that holds the value of the vector at the same position of the original
    (made by its [copy()]); the new pointers are pairwise distinct and
    distinct from every vector that existed, so nothing is shared with the
    original, and the vectors, arrays and MultiVectors that existed are
    unchanged. *)
Theorem copy_is_deep w (orig : nat) oo :
  let N := length (mv oo) in
  objects w !! orig = Some oo →
  is_Some (values w (mv oo)) →
  Z.of_nat N ≤ int_max →
  ∃ (this : nat) w' ob,
    MultiVector_copy orig w = Done (this, w')
    ∧ this ≠ orig
    ∧ objects w' !! this = Some ob
    ∧ length (mv ob) = N
    ∧ values w' (mv ob) = values w (mv oo)
    ∧ NoDup (mv ob)
    ∧ (∀ l : nat, l ∈ mv ob → (length (vectors w) ≤ l)%nat ∧ l ∉ mv oo)
    ∧ (∀ l : nat, (l < length (vectors w))%nat →
         vectors w' !! l = vectors w !! l)
    ∧ (∀ o : nat, (o < length (objects w))%nat →
         objects w' !! o = objects w !! o)
    ∧ arrays w' = arrays w.
Proof.
  intros N Ho [xs Hxs] Hmax.
  destruct (MultiVector_copy_run w orig oo xs Ho Hxs Hmax)
    as (w' & b & Hrun & Hv & Hob & _ & Har & _).
  pose proof (values_length _ _ _ Hxs) as Hxl.
  eexists _, w', _. split; [exact Hrun|].
  split; [apply lookup_lt_Some in Ho; lia|].
  split; [by rewrite Hob, lookup_app_r, Nat.sub_diag|]. simpl.
  split; [by rewrite length_seq|]. split.
  { rewrite Hxs. apply values_Forall2. rewrite Hv.
    apply Forall2_same_length_lookup_2; [by rewrite length_seq|].
    intros i l xl Hl Hxl'. apply lookup_seq in Hl as [-> Hi].
    rewrite lookup_app_r by lia.
    by replace (length (vectors w) + i - length (vectors w))%nat with i
      by lia. }
  split; [apply NoDup_seq|]. split.
  { intros l [Hl1 Hl2]%elem_of_seq. split; [done|]. intros Hin.
    apply list_elem_of_lookup in Hin as [i Hi].
    destruct (values_lookup _ _ _ _ _ Hxs Hi) as (xl & _ & Hx).
    apply lookup_lt_Some in Hx. lia. }
  split; [|split; [|done]].
  - intros l Hl. rewrite Hv. by apply lookup_app_l.
  - intros o Hlt. rewrite Hob. by apply lookup_app_l.
Qed.

(** ** What a computation leaves as it was *)

Lemma keeps_k_ret {X A} (f : @World R V → X) (a : A) : keeps f (ret a).
Proof. intros w a' w' H. by inversion H. Qed.

Lemma keeps_k_bind {X A B} (f : @World R V → X) (m : M A) (k : A → M B) :
  keeps f m → (∀ a, keeps f (k a)) → keeps f (bind m k).
Proof.
  intros Hm Hk w b w2 (a & w1 & H1 & H2)%bind_inv.
  rewrite (Hk _ _ _ _ H2). by eapply Hm.
Qed.

Lemma keeps_k_undefined {X A} (f : @World R V → X) :
  keeps f (@undefined R V A).
Proof. by intros w a w' H. Qed.

Lemma keeps_k_gets {X A} (f : @World R V → X) (g : @World R V → A) :
  keeps f (gets g).
Proof. intros w a w' H. by inversion H. Qed.

Lemma keeps_k_defined {X A} (f : @World R V → X) (o : option A) :
  keeps f (defined o).
Proof. destruct o; [apply keeps_k_ret|apply keeps_k_undefined]. Qed.

Lemma keeps_k_modify {X} (f : @World R V → X) (g : @World R V → World) :
  (∀ w, f (g w) = f w) → keeps f (modify g).
Proof. intros Hg w a w' H. inversion H. apply Hg. Qed.

Lemma keeps_k_assert {X} (f : @World R V → X) b : keeps f (assert b).
Proof. destruct b; [apply keeps_k_ret|by intros w a w' H]. Qed.

Lemma keeps_k_foldM {X A B} (f : @World R V → X) (g : B → A → M B)
    (l : list A) b :
  (∀ b' e, keeps f (g b' e)) → keeps f (foldM g b l).
Proof.
  intros Hg. revert b. induction l as [|e l IH]; intros b; simpl.
  - apply keeps_k_ret.
  - apply keeps_k_bind; [apply Hg|apply IH].
Qed.

Lemma keeps_k_for_int {X} (f : @World R V → X) lo hi (body : Z → M unit) :
  (∀ i, keeps f (body i)) → keeps f (for_int lo hi body).
Proof. intros Hb. apply keeps_k_foldM. intros _ i. apply Hb. Qed.

(** The computations that do not write to the world. *)
Lemma keeps_k_reads {X} (f : @World R V → X) :
  (∀ (a : nat), keeps f (@array R V a))
  ∧ (∀ (a : nat), keeps f (@array_size R V a))
  ∧ (∀ (a k : nat), keeps f (@array_load R V a k))
  ∧ (∀ (o : nat), keeps f (@object R V o))
  ∧ (∀ (o : nat), keeps f (@the_mv R V o))
  ∧ (∀ (o : nat), keeps f (@nvec R V o))
  ∧ (∀ z, keeps f (@int_op R V z))
  ∧ (∀ z, keeps f (@index R V z))
  ∧ (∀ (vs : list nat) i, keeps f (@mv_at R V vs i))
  ∧ (∀ (x : nat), keeps f (@deref R V x)).
Proof.
  repeat split; intros;
    unfold array, array_size, array_load, object, the_mv, nvec, int_op,
      index, mv_at, deref, array, object, index;
    repeat first
      [ apply keeps_k_ret | apply keeps_k_undefined | apply keeps_k_gets
      | apply keeps_k_defined | apply keeps_k_bind; [|intros ?]
      | case_decide ].
Qed.

Ltac keeps_with tac :=
  repeat first
    [ tac
    | apply keeps_k_ret | apply keeps_k_undefined | apply keeps_k_gets
    | apply keeps_k_defined | apply keeps_k_assert
    | apply keeps_k_modify; by intros []
    | apply keeps_k_bind; [|intros ?]
    | apply keeps_k_foldM; intros ? ?
    | apply keeps_k_for_int; intros ?
    | apply keeps_k_reads
    | case_decide ].

Ltac keeps_go :=
  repeat first
    [ apply keeps_k_ret | apply keeps_k_undefined | apply keeps_k_gets
    | apply keeps_k_defined | apply keeps_k_assert
    | apply keeps_k_modify; by intros []
    | apply keeps_k_bind; [|intros ?]
    | apply keeps_k_foldM; intros ? ?
    | apply keeps_k_for_int; intros ?
    | apply keeps_k_reads
    | case_decide ].

(** The calls on vectors leave the arrays and the MultiVectors, and the
    stores into arrays leave the vectors. *)
Lemma keeps_arrays_calls :
  (∀ (y : nat) (a : R) (x : nat), keeps (@arrays R V) (call_axpy y a x))
  ∧ (∀ (x : nat) (a : R), keeps (@arrays R V) (call_scale x a))
  ∧ (∀ (x : nat), keeps (@arrays R V) (@call_zero R V _ x))
  ∧ (∀ (x y : nat), keeps (@arrays R V) (@call_inner R V _ x y))
  ∧ (∀ (x : nat) t, keeps (@arrays R V) (@call_norm R V _ x t)).
Proof.
  repeat split; intros;
    unfold call_axpy, call_scale, call_zero, call_inner, call_norm,
      assign, emit; keeps_go.
Qed.

Lemma keeps_vectors_reads :
  (∀ (x y : nat), keeps (@vectors R V) (@call_inner R V _ x y))
  ∧ (∀ (x : nat) t, keeps (@vectors R V) (@call_norm R V _ x t))
  ∧ (∀ (a k : nat) (r : R), keeps (@vectors R V) (@array_store R V a k r)).
Proof.
  repeat split; intros;
    unfold call_inner, call_norm, array_store, emit; keeps_go.
Qed.

Lemma keeps_sizes_writes :
  (∀ (x : nat) (v : V), keeps (@sizes R V) (assign x v))
  ∧ (∀ (e : @event R), keeps (@sizes R V) (@emit R V e))
  ∧ (∀ (a k : nat) (r : R), keeps (@sizes R V) (@array_store R V a k r)).
Proof.
  split; [|split].
  - intros x v w [] w' H. inversion H. unfold sizes. simpl.
    by rewrite length_insert.
  - intros e w [] w' H. by inversion H.
  - intros a k r w u w' H.
    unfold array_store, array, bind, gets, defined, ret, undefined in H.
    destruct (arrays w !! a) as [buf|] eqn:Ha; [|done].
    case_decide; [|done].
    unfold modify, emit, modify in H. inversion H; subst.
    unfold sizes. simpl. do 2 f_equal. apply list_eq. intros i.
    rewrite !list_lookup_fmap.
    destruct (decide (i = a)) as [->|Hne].
    + rewrite list_lookup_insert_eq by (by eapply lookup_lt_Some).
      rewrite Ha. simpl. by rewrite length_insert.
    + by rewrite list_lookup_insert_ne.
Qed.

Lemma keeps_sizes_calls :
  (∀ (y : nat) (a : R) (x : nat), keeps (@sizes R V) (call_axpy y a x))
  ∧ (∀ (x : nat) (a : R), keeps (@sizes R V) (call_scale x a))
  ∧ (∀ (x : nat), keeps (@sizes R V) (@call_zero R V _ x))
  ∧ (∀ (x y : nat), keeps (@sizes R V) (@call_inner R V _ x y))
  ∧ (∀ (x : nat) t, keeps (@sizes R V) (@call_norm R V _ x t)).
Proof.
  repeat split; intros;
    unfold call_axpy, call_scale, call_zero, call_inner, call_norm;
    keeps_with ltac:(apply keeps_sizes_writes).
Qed.

Lemma keeps_swap {X} (f : @World R V → X) (a b : nat) :
  (∀ w os, f (set_objects os w) = f w) → keeps f (swap a b).
Proof.
  intros Hf. unfold swap.
  repeat first [ apply keeps_k_modify; intros w; apply Hf
               | progress keeps_go ].
Qed.

Ltac unfold_methods :=
  unfold dot_v, dot_mv, dot_nested, dot_self, dot_self_row, dot_self_pair,
    reduce, axpy_v, axpy_mv, scale_k, scale_a, zero, norm_all, forM_.

Lemma exec_keeps_sizes (this : nat) (c : call) :
  keeps (@sizes R V) (exec this c).
Proof.
  destruct c; simpl; unfold_methods;
    try (by apply keeps_swap);
    keeps_with ltac:(first [ apply keeps_sizes_calls
                           | apply keeps_sizes_writes ]).
Qed.

Lemma exec_keeps_vectors (this : nat) (c : call) :
  match c with
  | Dot_v _ _ | Dot_mv _ _ | Dot_self _ | Norm_all _ _ | Swap _ =>
      keeps (@vectors R V) (exec this c)
  | _ => True
  end.
Proof.
  destruct c; simpl; try done; unfold_methods;
    try (by apply keeps_swap);
    keeps_with ltac:(apply keeps_vectors_reads).
Qed.

Lemma exec_keeps_arrays (this : nat) (c : call) :
  match c with
  | Dot_v _ _ | Dot_mv _ _ | Dot_self _ | Norm_all _ _ => True
  | _ => keeps (@arrays R V) (exec this c)
  end.
Proof.
  destruct c; simpl; try done; unfold_methods;
    try (by apply keeps_swap);
    keeps_with ltac:(apply keeps_arrays_calls).
Qed.

(** X10. No call changes how many vector objects there are, the length of
    any array, or the next free buffer address: nothing is allocated,
    freed or resized.  The calls that produce no output ([reduce], both
    [axpy], both [scale], [zero], [swap]) leave every array as it was, and
    the calls that only read the vectors (both [dot], [dot_self],
    [norm_all], [swap]) leave every vector as it was. *)
Theorem calls_keep_sizes w (this : nat) (c : call) w' :
  exec this c w = Done (tt, w') →
  sizes w' = sizes w
  ∧ match c with
    | Dot_v _ _ | Dot_mv _ _ | Dot_self _ | Norm_all _ _ =>
        vectors w' = vectors w
    | Swap _ => vectors w' = vectors w ∧ arrays w' = arrays w
    | _ => arrays w' = arrays w
    end.
Proof.
  intros Hrun. split; [exact (exec_keeps_sizes this c _ _ _ Hrun)|].
  pose proof (exec_keeps_vectors this c) as Hv.
  pose proof (exec_keeps_arrays this c) as Ha.
  destruct c; try exact (Hv _ _ _ Hrun); try exact (Ha _ _ _ Hrun).
  split; [exact (Hv _ _ _ Hrun)|exact (Ha _ _ _ Hrun)].
Qed.

(** ** The vectors a call may change *)

Lemma confined_keeps {A} (this : nat) ob (S : list nat) (m : M A) :
  keeps (@vectors R V) m → keeps (@objects R V) m → confined this ob S m.
Proof.
  intros Hv Ho w a w' Hthis Hrun.
  by rewrite (Hv _ _ _ Hrun), (Ho _ _ _ Hrun).
Qed.

Lemma confined_bind {A B} (this : nat) ob (S : list nat)
    (m : M A) (k : A → M B) :
  confined this ob S m → (∀ a, confined this ob S (k a)) →
  confined this ob S (bind m k).
Proof.
  intros Hm Hk w b w2 Hthis (a & w1 & H1 & H2)%bind_inv.
  destruct (Hm _ _ _ Hthis H1) as [Ho1 Hv1].
  destruct (Hk _ _ _ _ Ho1 H2) as [Ho2 Hv2].
  split; [done|]. intros l Hl. by rewrite Hv2, Hv1.
Qed.

Lemma confined_read {A B} (this : nat) ob (S : list nat)
    (m : M A) (k : A → M B) :
  (∀ {X} (f : @World R V → X), keeps f m) →
  (∀ a w, objects w !! this = Some ob → m w = Done (a, w) →
     confined this ob S (k a)) →
  confined this ob S (bind m k).
Proof.
  intros Hm Hk w b w2 Hthis (a & w1 & H1 & H2)%bind_inv.
  assert (w1 = w) as -> by exact (Hm _ (λ w, w) _ _ _ H1).
  by eapply Hk.
Qed.

Lemma confined_foldM {A B} (this : nat) ob (S : list nat)
    (g : B → A → M B) (l : list A) b :
  (∀ b' e, e ∈ l → confined this ob S (g b' e)) →
  confined this ob S (foldM g b l).
Proof.
  revert b. induction l as [|e l IH]; intros b Hg; simpl.
  - apply confined_keeps; apply keeps_k_ret.
  - apply confined_bind; [apply Hg; by left|].
    intros b'. apply IH. intros b'' e' He'. apply Hg. by right.
Qed.

Lemma confined_update (this : nat) ob (S : list nat) (l : nat) (m : M unit) :
  l ∈ S →
  (∀ w w', m w = Done (tt, w') →
     objects w' = objects w
     ∧ ∀ l' : nat, l' ≠ l → vectors w' !! l' = vectors w !! l') →
  confined this ob S m.
Proof.
  intros Hl Hm w [] w' Hthis Hrun.
  destruct (Hm _ _ Hrun) as [Ho Hv]. rewrite Ho. split; [done|].
  intros l' Hl'. apply Hv. by intros ->.
Qed.

Lemma assign_then_emit w w' (x : nat) (v : V) (e : @event R) :
  bind (assign x v) (λ _, emit e) w = Done (tt, w') →
  objects w' = objects w
  ∧ ∀ l' : nat, l' ≠ x → vectors w' !! l' = vectors w !! l'.
Proof.
  intros H. inversion H; subst. simpl. split; [done|].
  intros l' Hl'. by apply list_lookup_insert_ne.
Qed.

Lemma deref_inv w (x : nat) (vx : V) w' :
  deref x w = Done (vx, w') → w' = w.
Proof.
  unfold deref, bind, gets, defined, ret, undefined.
  destruct (vectors w !! x); [|done]. intros H. by inversion H.
Qed.

Lemma confined_calls (this : nat) ob (S : list nat) :
  (∀ (y : nat) (a : R) (x : nat), y ∈ S →
     confined this ob S (call_axpy y a x))
  ∧ (∀ (x : nat) (a : R), x ∈ S → confined this ob S (call_scale x a))
  ∧ (∀ (x : nat), x ∈ S → confined this ob S (call_zero x)).
Proof.
  split; [|split].
  - intros y a x Hy. apply (confined_update _ _ _ y); [done|].
    intros w w' H. unfold call_axpy in H.
    apply bind_inv in H as (vx & w1 & H1 & H').
    apply bind_inv in H' as (vy & w2 & H2 & H'').
    apply deref_inv in H1 as ->. apply deref_inv in H2 as ->.
    by apply assign_then_emit in H''.
  - intros x a Hx. apply (confined_update _ _ _ x); [done|].
    intros w w' H. unfold call_scale in H.
    apply bind_inv in H as (vx & w1 & H1 & H').
    apply deref_inv in H1 as ->.
    by apply assign_then_emit in H'.
  - intros x Hx. apply (confined_update _ _ _ x); [done|].
    intros w w' H. unfold call_zero in H.
    apply bind_inv in H as (vx & w1 & H1 & H').
    apply deref_inv in H1 as ->.
    by apply assign_then_emit in H'.
Qed.

Lemma the_mv_inv w (o : nat) vs w' ob :
  objects w !! o = Some ob → the_mv o w = Done (vs, w') →
  vs = mv ob ∧ w' = w.
Proof.
  intros Ho H. rewrite (the_mv_run _ _ _ Ho) in H. by inversion H.
Qed.

Lemma mv_at_inv w (vs : list nat) i (l : nat) w' :
  mv_at vs i w = Done (l, w') → l ∈ vs ∧ w' = w.
Proof.
  unfold mv_at, index, bind, defined, ret, undefined.
  case_decide; [|done]. destruct (vs !! Z.to_nat i) as [l'|] eqn:E; [|done].
  intros Hr. inversion Hr; subst. split; [|done].
  by eapply list_elem_of_lookup_2.
Qed.

Lemma confined_exec (this : nat) ob (c : call) :
  (∀ other, c ≠ Swap other) →
  confined this ob (footprint ob c) (exec this c).
Proof.
  intros Hc.
  assert (Hpure : ∀ {A} (m : M A),
            keeps (@vectors R V) m → keeps (@objects R V) m →
            confined this ob (footprint ob c) m)
    by (intros; by apply confined_keeps).
  pose proof (keeps_exec this c Hc) as Hko.
  pose proof (exec_keeps_vectors this c) as Hkv.
  destruct c as [v m|other m|m|v alpha|a y|a y|k a|a| |t m|other];
    simpl in *; try (by apply Hpure); try (by destruct (Hc other)).
  - (* reduce *)
    unfold reduce. apply confined_bind; [apply Hpure; apply keeps_k_reads|].
    intros vs. apply confined_bind; [|intros; apply Hpure; apply keeps_k_ret].
    apply confined_foldM. intros data vi _.
    apply confined_bind; [apply Hpure; apply keeps_k_reads|]. intros r.
    apply confined_bind; [|intros; apply Hpure; apply keeps_k_ret].
    apply confined_calls. by left.
  - (* axpy, broadcast *)
    unfold axpy_v. apply confined_read; [intros; apply keeps_k_reads|].
    intros vs w Hthis [-> _]%(the_mv_inv _ _ _ _ ob); [|done].
    apply confined_foldM. intros [] vi Hvi. by apply confined_calls.
  - (* axpy, per slice *)
    unfold axpy_mv.
    repeat (apply confined_bind;
            [apply Hpure; first [apply keeps_k_reads|apply keeps_k_assert]
            |intros ?]).
    apply confined_foldM. intros [] i _.
    apply confined_read; [intros; apply keeps_k_reads|].
    intros vs w Hthis [-> _]%(the_mv_inv _ _ _ _ ob); [|done].
    apply confined_read; [intros; apply keeps_k_reads|].
    intros vi w1 _ [Hvi _]%mv_at_inv.
    apply confined_bind.
    { apply Hpure; apply keeps_k_bind;
        first [apply keeps_k_reads|intros; apply keeps_k_reads]. }
    intros ai.
    apply confined_bind; [apply Hpure; apply keeps_k_reads|]. intros ys.
    apply confined_bind; [apply Hpure; apply keeps_k_reads|]. intros yi.
    by apply confined_calls.
  - (* scale, one slot *)
    unfold scale_k. apply confined_read; [intros; apply keeps_k_reads|].
    intros vs w Hthis [-> _]%(the_mv_inv _ _ _ _ ob); [|done].
    apply confined_read; [intros; apply keeps_k_reads|].
    intros vk w1 _ [Hvk _]%mv_at_inv. by apply confined_calls.
  - (* scale, per slice *)
    unfold scale_a. apply confined_read; [intros; apply keeps_k_reads|].
    intros vs w Hthis [-> _]%(the_mv_inv _ _ _ _ ob); [|done].
    apply confined_bind; [|intros; apply Hpure; apply keeps_k_ret].
    apply confined_foldM. intros data vj Hvj.
    apply confined_bind; [apply Hpure; apply keeps_k_reads|]. intros r.
    apply confined_bind; [|intros; apply Hpure; apply keeps_k_ret].
    by apply confined_calls.
  - (* zero *)
    unfold zero. apply confined_read; [intros; apply keeps_k_reads|].
    intros vs w Hthis [-> _]%(the_mv_inv _ _ _ _ ob); [|done].
    apply confined_foldM. intros [] vi Hvi. by apply confined_calls.
Qed.

(** X11. A call of both [dot], [dot_self], [reduce], both [axpy], both
    [scale], [zero], [norm_all] or [swap] whose behaviour is defined (every
    access within its array, every pointer live) and that returns changes
    no vector outside its footprint: none at all for both [dot],
    [dot_self], [norm_all] and [swap]; at most [v] for [reduce(v, alpha)];
    at most the vectors of [self] for both [axpy], both [scale] and
    [zero].  This needs no assumption that the vectors are pairwise
    distinct or that an argument is not a vector of [self]. *)
Theorem calls_footprint w (this : nat) ob (c : call) w' :
  objects w !! this = Some ob →
  exec this c w = Done (tt, w') →
  ∀ l : nat, l ∉ footprint ob c → vectors w' !! l = vectors w !! l.
Proof.
  intros Hthis Hrun l Hl.
  assert (Hcase : (∃ other, c = Swap other) ∨ (∀ other, c ≠ Swap other))
    by (destruct c; eauto; right; intros; discriminate).
  destruct Hcase as [[other ->]|Hc].
  - pose proof (exec_keeps_vectors this (Swap other)) as Hkv. simpl in Hkv.
    by rewrite (Hkv _ _ _ Hrun).
  - by destruct (confined_exec this ob c Hc _ _ _ Hthis Hrun) as [_ ->].
Qed.

(** ** A copy is independent of its original *)

Lemma values_ext w w' (ls : list nat) :
  (∀ l : nat, l ∈ ls → vectors w' !! l = vectors w !! l) →
  values w' ls = values w ls.
Proof.
  intros H. unfold values. induction ls as [|l ls IH]; [done|].
  simpl. rewrite H by (by left).
  rewrite IH; [done|]. intros l' Hl'. apply H. by right.
Qed.

(** X12. After [c = MultiVector(orig)], no call on the copy [c] changes
    the value of a vector of [orig]: not both [axpy], both [scale] or
    [zero], which change vectors of [c] only, and not [reduce(v, alpha)]
    unless [v] is itself a vector of [orig]. *)
Theorem copy_independent w (orig : nat) oo (this : nat) w1 (c : call) w2 :
  objects w !! orig = Some oo →
  is_Some (values w (mv oo)) →
  Z.of_nat (length (mv oo)) ≤ int_max →
  MultiVector_copy orig w = Done (this, w1) →
  exec this c w1 = Done (tt, w2) →
  (∀ (v alpha : nat), c = Reduce v alpha → v ∉ mv oo) →
  values w2 (mv oo) = values w (mv oo).
Proof.
  intros Ho [xs Hxs] Hmax Hcopy Hrun Hred.
  destruct (MultiVector_copy_run w orig oo xs Ho Hxs Hmax)
    as (w1' & b & Hcopy' & Hv & Hob & _).
  rewrite Hcopy in Hcopy'. injection Hcopy' as -> <-.
  assert (Hthis : objects w1 !! length (objects w)
                  = Some {| mv_begin := b;
                            mv := seq (length (vectors w))
                                    (length (mv oo)) |})
    by (by rewrite Hob, lookup_app_r, Nat.sub_diag).
  apply values_ext. intros l Hl.
  assert (Hlt : (l < length (vectors w))%nat).
  { apply list_elem_of_lookup in Hl as [i Hi].
    destruct (values_lookup _ _ _ _ _ Hxs Hi) as (x & _ & Hx).
    by eapply lookup_lt_Some. }
  transitivity (vectors w1 !! l); [|rewrite Hv; by apply lookup_app_l].
  assert (Hcase : (∃ other, c = Swap other) ∨ (∀ other, c ≠ Swap other))
    by (destruct c; eauto; right; intros; discriminate).
  destruct Hcase as [[other ->]|Hc].
  { pose proof (exec_keeps_vectors (length (objects w)) (Swap other)) as Hkv.
    simpl in Hkv. by rewrite (Hkv _ _ _ Hrun). }
  destruct (confined_exec _ _ c Hc _ _ _ Hthis Hrun) as [_ Hout].
  apply Hout.
  destruct c as [v m|other m|m|v alpha|a y|a y|k a|a| |t m|other]; simpl;
    try apply not_elem_of_nil;
    try (intros [Hge _]%elem_of_seq; lia).
  intros Hin%list_elem_of_singleton.
  apply (Hred v alpha); [done|]. by rewrite <- Hin.
Qed.

(** ** Buffers and coefficient arrays shorter than [N] *)

Lemma fill_short {A} (g : A → M R) (m : nat) (l : list A) :
  (∀ e w, g e w = Undefined
          ∨ ∃ r w', g e w = Done (r, w') ∧ arrays w' = arrays w) →
  ∀ k w buf,
    arrays w !! m = Some buf →
    (k ≤ length buf < k + length l)%nat →
    foldM (λ k e, bind (g e) (λ r, bind (array_store m k r)
                                     (λ _, ret (S k)))) k l w
    = Undefined.
Proof.
  intros Hg. induction l as [|e l IH]; intros k w buf Hm Hk; simpl in *;
    [lia|].
  rewrite bind_assoc.
  destruct (Hg e w) as [Hu|(r & w1 & Hd & Har)].
  { unfold bind. by rewrite Hu. }
  rewrite (bind_Done _ _ _ _ _ Hd), bind_assoc.
  rewrite <- Har in Hm.
  destruct (decide (k < length buf)%nat) as [Hlt|Hge].
  - rewrite (bind_Done _ _ _ _ _ (array_store_run _ _ _ _ r Hm Hlt)).
    rewrite bind_ret.
    apply (IH (S k) _ (<[k := r]> buf)); simpl.
    + apply list_lookup_insert_eq. by eapply lookup_lt_Some.
    + rewrite length_insert. lia.
  - unfold bind at 1, array_store.
    rewrite (bind_Done _ _ _ _ _ (array_run _ _ _ Hm)).
    by rewrite decide_False.
Qed.

Lemma read_short {A} (u : R → A → M unit) (a : nat) al (l : list A) :
  (∀ r e w, u r e w = Undefined
            ∨ ∃ w', u r e w = Done (tt, w') ∧ arrays w' = arrays w) →
  ∀ k w,
    arrays w !! a = Some al →
    (k ≤ length al < k + length l)%nat →
    foldM (λ k e, bind (array_load a k) (λ r, bind (u r e)
                                               (λ _, ret (S k)))) k l w
    = Undefined.
Proof.
  intros Hu. induction l as [|e l IH]; intros k w Ha Hk; simpl in *; [lia|].
  rewrite bind_assoc.
  destruct (al !! k) as [r|] eqn:Hr.
  - rewrite (bind_Done _ _ _ _ _ (array_load_run _ _ _ _ _ Ha Hr)).
    rewrite bind_assoc.
    destruct (Hu r e w) as [Hund|(w1 & Hd & Har)].
    { unfold bind. by rewrite Hund. }
    rewrite (bind_Done _ _ _ _ _ Hd), bind_ret.
    apply IH; [by rewrite Har|]. apply lookup_lt_Some in Hr. lia.
  - unfold bind at 1, array_load.
    rewrite (bind_Done _ _ _ _ _ (array_run _ _ _ Ha)).
    unfold defined. by rewrite Hr.
Qed.

Lemma call_cases :
  (∀ (x y : nat) w,
     call_inner x y w = Undefined
     ∨ ∃ (r : R) w', call_inner x y w = Done (r, w') ∧ arrays w' = arrays w)
  ∧ (∀ (x : nat) t w,
       call_norm x t w = Undefined
       ∨ ∃ (r : R) w', call_norm x t w = Done (r, w')
                       ∧ arrays w' = arrays w)
  ∧ (∀ (x : nat) (a : R) w,
       call_scale x a w = Undefined
       ∨ ∃ w', call_scale x a w = Done (tt, w') ∧ arrays w' = arrays w)
  ∧ (∀ (y : nat) (a : R) (x : nat) w,
       call_axpy y a x w = Undefined
       ∨ ∃ w', call_axpy y a x w = Done (tt, w') ∧ arrays w' = arrays w).
Proof.
  repeat split; intros;
    unfold call_inner, call_norm, call_scale, call_axpy, deref, bind, gets,
      defined, ret, undefined;
    repeat match goal with
           | |- context [vectors ?w !! ?x] => destruct (vectors w !! x)
           end; eauto.
Qed.

(** X13. [dot(v, m)] and [norm_all(norm_type, m)] do not check the size of
    the buffer: with a buffer of fewer than [N] cells the fill stores past
    its end.  That is undefined behaviour, the outcome [Undefined]: the
    call is given no result, and neither an assertion failure nor an
    exception reports the short buffer. *)
Theorem short_output_buffer w (this : nat) ob (m : nat) buf :
  objects w !! this = Some ob →
  arrays w !! m = Some buf →
  (length buf < length (mv ob))%nat →
  (∀ v : nat, dot_v this v m w = Undefined)
  ∧ (∀ norm_type, norm_all this norm_type m w = Undefined).
Proof.
  intros Ho Hm Hlen. split.
  - intros v. unfold dot_v.
    rewrite (bind_Done _ _ _ _ _ (the_mv_run _ _ _ Ho)).
    unfold bind at 1.
    rewrite (fill_short (λ vj, call_inner vj v) m (mv ob)
               (λ e w', proj1 call_cases e v w') O w buf Hm); [done|lia].
  - intros t. unfold norm_all.
    rewrite (bind_Done _ _ _ _ _ (the_mv_run _ _ _ Ho)).
    unfold bind at 1.
    rewrite (fill_short (λ vi, call_norm vi t) m (mv ob)
               (λ e w', proj1 (proj2 call_cases) e t w') O w buf Hm);
      [done|lia].
Qed.

(** X14. Per-slice [scale(a)] and [reduce(v, alpha)] do not check the size
    of the coefficient array: with fewer than [N] coefficients the loop
    reads past the end of the array.  That is undefined behaviour, the
    outcome [Undefined]: the call is given no result, and neither an
    assertion failure nor an exception reports the short array. *)
Theorem short_coefficients w (this : nat) ob (a : nat) al :
  objects w !! this = Some ob →
  arrays w !! a = Some al →
  (length al < length (mv ob))%nat →
  scale_a this a w = Undefined
  ∧ (∀ v : nat, reduce this v a w = Undefined).
Proof.
  intros Ho Ha Hlen. split.
  - unfold scale_a.
    rewrite (bind_Done _ _ _ _ _ (the_mv_run _ _ _ Ho)).
    unfold bind at 1.
    rewrite (read_short (λ r vj, call_scale vj r) a al (mv ob)
               (λ r e w', proj1 (proj2 (proj2 call_cases)) e r w')
               O w Ha); [done|lia].
  - intros v. unfold reduce.
    rewrite (bind_Done _ _ _ _ _ (the_mv_run _ _ _ Ho)).
    unfold bind at 1.
    rewrite (read_short (λ r vi, call_axpy v r vi) a al (mv ob)
               (λ r e w', proj2 (proj2 (proj2 call_cases)) v r e w')
               O w Ha); [done|lia].
Qed.

(** ** The storage invariant *)

Lemma wf_live w (o : nat) ob :
  wf w → objects w !! o = Some ob → is_Some (values w (mv ob)).
Proof.
  intros (_ & Hob & _) Ho. destruct (Hob o ob Ho) as (_ & Hlive & _).
  unfold values. clear Ho.
  induction (mv ob) as [|l ls IH]; [by eexists|].
  destruct IH as [xs Hxs]; [intros l' Hl'; apply Hlive; by right|].
  destruct (lookup_lt_is_Some_2 (vectors w) l) as [x Hx];
    [apply Hlive; by left|].
  exists (x :: xs). simpl. by rewrite Hx, Hxs.
Qed.

Lemma wf_same w w' :
  objects w' = objects w → length (vectors w') = length (vectors w) →
  brk w' = brk w → wf w → wf w'.
Proof. unfold wf. by intros -> -> ->. Qed.

Lemma wf_permute w w' (σ : nat → nat) :
  (∀ o, objects w' !! o = objects w !! σ o) →
  (∀ o1 o2, o1 ≠ o2 → σ o1 ≠ σ o2) →
  length (vectors w') = length (vectors w) → brk w' = brk w →
  wf w → wf w'.
Proof.
  intros Hσ Hinj Hv Hb (Hbrk & Hob & Hsep).
  split; [by rewrite Hb|]. split.
  - intros o ob Ho. rewrite Hσ in Ho. rewrite Hv, Hb. by apply (Hob (σ o)).
  - intros o1 o2 ob1 ob2 Hne Ho1 Ho2. rewrite Hσ in Ho1, Ho2.
    apply (Hsep (σ o1) (σ o2)); auto.
Qed.

Lemma wf_extend w w' xs (b n : nat) :
  vectors w' = vectors w ++ xs →
  objects w'
  = objects w ++ [{| mv_begin := b; mv := seq (length (vectors w)) n |}] →
  length xs = n →
  b = match n with O => O | S _ => brk w end →
  brk w' = (brk w + n)%nat →
  wf w → wf w'.
Proof.
  intros Hv Ho Hn Hb Hbrk (H1 & Hob & Hsep).
  assert (Hnew : ∀ (o : nat) ob,
            objects w' !! o = Some ob →
            (objects w !! o = Some ob ∧ (o < length (objects w))%nat)
            ∨ (o = length (objects w)
               ∧ ob = {| mv_begin := b;
                         mv := seq (length (vectors w)) n |})).
  { intros o ob. rewrite Ho. intros Hl.
    apply lookup_app_Some in Hl as [Hl|[Hge Hl]].
    - left. split; [done|]. by eapply lookup_lt_Some.
    - right. apply list_lookup_singleton_Some in Hl as [Hz <-].
      split; [lia|done]. }
  assert (Hseq : n ≠ O → seq (length (vectors w)) n ≠ [])
    by (destruct n; [done|discriminate]).
  assert (Hseq' : seq (length (vectors w)) n ≠ [] → n ≠ O)
    by (destruct n; [done|discriminate]).
  split; [lia|]. split.
  - intros o ob Hl. rewrite Hv, length_app, Hbrk.
    destruct (Hnew o ob Hl) as [[Hold _]|[-> ->]].
    + destruct (Hob o ob Hold) as (Hnd & Hlive & He & Hne).
      repeat split; auto.
      * intros l Hin. specialize (Hlive l Hin). lia.
      * specialize (Hne H). lia.
      * specialize (Hne H). lia.
    + simpl. split; [apply NoDup_seq|]. split.
      { intros l [? ?]%elem_of_seq. lia. }
      split.
      { intros Hnil. destruct n; [by subst|discriminate]. }
      intros Hnn%Hseq'. destruct n; [done|]. subst b. lia.
  - intros o1 o2 ob1 ob2 Hne Hl1 Hl2.
    destruct (Hnew o1 ob1 Hl1) as [[Hold1 Hlt1]|[-> ->]],
             (Hnew o2 ob2 Hl2) as [[Hold2 Hlt2]|[-> ->]].
    + by apply (Hsep o1 o2).
    + simpl. destruct (Hob o1 ob1 Hold1) as (_ & Hlive & _ & Hb1). split.
      * intros l Hin [? ?]%elem_of_seq. specialize (Hlive l Hin). lia.
      * intros Hnn. specialize (Hb1 Hnn). destruct n; subst b; lia.
    + simpl. destruct (Hob o2 ob2 Hold2) as (_ & Hlive & He2 & Hb2). split.
      * intros l [? ?]%elem_of_seq Hin. specialize (Hlive l Hin). lia.
      * intros Hnn%Hseq'. destruct n; [done|]. subst b.
        destruct (decide (mv ob2 = [])) as [He|Hnn2].
        -- rewrite (He2 He). lia.
        -- specialize (Hb2 Hnn2). lia.
    + done.
Qed.

Lemma exec_swap_inv w (this other : nat) w' :
  swap this other w = Done (tt, w') →
  ∃ me ot, objects w !! this = Some me ∧ objects w !! other = Some ot.
Proof.
  unfold swap, object, bind, gets, defined, ret, undefined.
  destruct (objects w !! this) as [me|]; [|done].
  destruct (objects w !! other) as [ot|]; [|done]. eauto.
Qed.

(** X15. Every call of both [dot], [dot_self], [reduce], both [axpy], both
    [scale], [zero], [norm_all] or [swap] that returns keeps the storage
    invariant: the pointers of each MultiVector are pairwise distinct and
    live, no two MultiVectors share a pointer, and distinct non-empty
    MultiVectors have distinct element buffers.  [swap] exchanges the two
    sequences with their buffers, the other ten leave every sequence
    alone.  ([setSizeFromVector] is not one of these calls.) *)
Theorem calls_keep_wf w (this : nat) (c : call) w' :
  wf w → exec this c w = Done (tt, w') → wf w'.
Proof.
  intros Hwf Hrun.
  pose proof (exec_keeps_sizes this c _ _ _ Hrun) as Hs.
  unfold sizes in Hs. injection Hs as Hlen _ Hbrk.
  assert (Hcase : (∃ other, c = Swap other) ∨ (∀ other, c ≠ Swap other))
    by (destruct c; eauto; right; intros; discriminate).
  destruct Hcase as [[other ->]|Hc].
  - simpl in Hrun.
    destruct (exec_swap_inv _ _ _ _ Hrun) as (me & ot & Hme & Hot).
    destruct (swap_facts w this other me ot Hme Hot)
      as (w1 & Hsw & Ha & Hb & Hrest & _).
    rewrite Hrun in Hsw. injection Hsw as <-.
    apply (wf_permute w w'
             (λ o, if decide (o = this) then other
                   else if decide (o = other) then this else o));
      [| |done|done|done].
    + intros o. repeat case_decide; subst; try congruence. by apply Hrest.
    + intros o1 o2 Hne. repeat case_decide; subst; congruence.
  - apply (wf_same w w'); [|done|done|done].
    exact (keeps_exec this c Hc _ _ _ Hrun).
Qed.

(** X16. Each constructor that returns keeps the storage invariant: the
    default constructor, the constructor from a template vector [v] and a
    count [nvec], and the copy constructor.  The new MultiVector shares no
    pointer and no element buffer with the ones that existed. *)
Theorem constructors_keep_wf w :
  wf w →
  (∀ (this : nat) w', MultiVector_new w = Done (this, w') → wf w')
  ∧ (∀ (v : nat) n (this : nat) w',
       is_Some (vectors w !! v) → 0 ≤ n →
       MultiVector_from v n w = Done (this, w') → wf w')
  ∧ (∀ (orig this : nat) w',
       MultiVector_copy orig w = Done (this, w') → wf w').
Proof.
  intros Hwf. split; [|split].
  - intros this w' Hrun. unfold MultiVector_new in Hrun.
    rewrite new_object_run in Hrun. injection Hrun as _ <-.
    apply (wf_extend w _ [] O O); try done; simpl;
      first [by rewrite app_nil_r|lia].
  - intros v n this w' [x Hv] Hn Hrun.
    destruct (MultiVector_from_run w v x n Hv Hn)
      as (w1 & b & Hrun' & Hvs & Hos & Hb & _ & Hbrk).
    rewrite Hrun in Hrun'. injection Hrun' as _ <-.
    apply (wf_extend w w' _ b (Z.to_nat n) Hvs Hos); try done.
    by rewrite length_replicate.
  - intros orig this w' Hrun.
    destruct (objects w !! orig) as [oo|] eqn:Ho.
    2:{ unfold MultiVector_copy, the_mv, object, bind, gets, defined in Hrun.
        by rewrite Ho in Hrun. }
    destruct (wf_live w orig oo Hwf Ho) as [xs Hxs].
    destruct (decide (Z.of_nat (length (mv oo)) ≤ int_max)) as [Hmax|Hbig].
    2:{ unfold MultiVector_copy in Hrun.
        rewrite (bind_Done _ _ _ _ _ (the_mv_run _ _ _ Ho)) in Hrun.
        by rewrite decide_False in Hrun. }
    destruct (MultiVector_copy_run w orig oo xs Ho Hxs Hmax)
      as (w1 & b & Hrun' & Hvs & Hos & Hb & _ & Hbrk).
    rewrite Hrun in Hrun'. injection Hrun' as _ <-.
    apply (wf_extend w w' xs b (length (mv oo)) Hvs Hos); try done.
    by eapply values_length.
Qed.

(** X17. Under the storage invariant, [dot(other, m)] runs [dot_self]
    when [other] is [self], and for every other MultiVector it does what
    the general nested loop over the two sequences does: two distinct
    MultiVectors have equal [begin()] only when both are empty, and then
    either path does nothing.  So the pointer test never sends two
    different sequences down the [dot_self] path. *)
Theorem dot_path_by_identity w (this other : nat) me ot (m : nat) :
  wf w →
  objects w !! this = Some me →
  objects w !! other = Some ot →
  (other = this → dot_mv this other m w = dot_self this m w)
  ∧ (other ≠ this →
     dot_mv this other m w = dot_nested (mv me) (mv ot) m w).
Proof.
  intros (_ & _ & Hsep) Hme Hot.
  assert (Hdot : dot_mv this other m w
                 = if decide (mv_begin ot = mv_begin me)
                   then dot_self this m w
                   else dot_nested (mv me) (mv ot) m w).
  { unfold dot_mv.
    rewrite (bind_Done _ _ _ _ _ (object_run _ _ _ Hme)).
    rewrite (bind_Done _ _ _ _ _ (object_run _ _ _ Hot)).
    by case_decide. }
  rewrite Hdot. split.
  - intros ->. assert (ot = me) as -> by congruence.
    by rewrite decide_True.
  - intros Hne. case_decide as Hb; [|done].
    destruct (Hsep other this ot me Hne Hot Hme) as [_ H1].
    destruct (Hsep this other me ot (not_eq_sym Hne) Hme Hot) as [_ H2].
    assert (He1 : mv me = []).
    { destruct (decide (mv me = [])) as [|Hnn]; [done|].
      by destruct (H2 Hnn). }
    assert (He2 : mv ot = []).
    { destruct (decide (mv ot = [])) as [|Hnn]; [done|].
      by destruct (H1 Hnn). }
    unfold dot_self.
    rewrite (bind_Done _ _ _ _ _ (the_mv_run _ _ _ Hme)).
    by rewrite He1, He2.
Qed.

(** ** The binding: arrays allocated for the result *)

Lemma new_array_run w (init : nat → R) n :
  new_array init n w
  = Done (length (arrays w),
          set_arrays (arrays w ++ [init <$> seq 0 n]) w).
Proof. done. Qed.

Lemma filled_new w buf out t :
  let w1 := set_arrays (arrays w ++ [buf]) w in
  arrays w1 !! length (arrays w) = Some buf
  ∧ arrays (filled (length (arrays w)) out t w1) = arrays w ++ [out]
  ∧ vectors (filled (length (arrays w)) out t w1) = vectors w
  ∧ objects (filled (length (arrays w)) out t w1) = objects w.
Proof.
  simpl. split; [by rewrite lookup_app_r, Nat.sub_diag|].
  split; [|done].
  by rewrite insert_app_r_alt, Nat.sub_diag.
Qed.

Lemma int_min_nonpos : int_min ≤ 0.
Proof. unfold int_min. lia. Qed.

(** X18. The bindings of [dot] with a vector and of [norm] return a new
    array of exactly [N] doubles, every cell written: cell [i] holds
    [<self[i], v>], respectively the norm of [self[i]].  Nothing of the
    uninitialised allocation is left in the result, and no array, vector
    or MultiVector that existed is changed. *)
Theorem py_results_written w (self : nat) ob xs (init : nat → R) :
  objects w !! self = Some ob →
  values w (mv ob) = Some xs →
  (∀ (v : nat) xv, vectors w !! v = Some xv →
     ∃ w', py_dot_v init self v w = Done (length (arrays w), w')
           ∧ arrays w' = arrays w ++ [(λ xi, gv_inner xi xv) <$> xs]
           ∧ vectors w' = vectors w ∧ objects w' = objects w)
  ∧ (∀ norm_type,
       ∃ w', py_norm init self norm_type w = Done (length (arrays w), w')
             ∧ arrays w' = arrays w ++ [gv_norm norm_type <$> xs]
             ∧ vectors w' = vectors w ∧ objects w' = objects w).
Proof.
  intros Ho Hxs.
  set (N := length (mv ob)).
  set (buf := init <$> seq 0 N).
  assert (Hbl : length buf = N) by (unfold buf; by rewrite length_fmap, length_seq).
  split.
  - intros v xv Hv. destruct (filled_new w buf
      (((λ xi, gv_inner xi xv) <$> xs) ++ drop N buf)
      (fill_events (length (arrays w)) (λ vj, CallInner vj v) O (mv ob)
         ((λ xi, gv_inner xi xv) <$> xs))) as (Hm & Ha & Hvs & Hos).
    eexists. split.
    { unfold py_dot_v.
      rewrite (bind_Done _ _ _ _ _ (nvec_run _ _ _ Ho)), Nat2Z.id.
      rewrite (bind_Done _ _ _ _ _ (new_array_run _ _ _)).
      erewrite bind_Done; [reflexivity|].
      apply (dot_v_run _ self ob v xv _ buf xs); try done.
      fold N. lia. }
    fold N buf. rewrite Ha, Hvs, Hos.
    by rewrite drop_ge, app_nil_r by lia.
  - intros t. destruct (filled_new w buf
      ((gv_norm t <$> xs) ++ drop N buf)
      (fill_events (length (arrays w)) (λ vi, CallNorm vi t) O (mv ob)
         (gv_norm t <$> xs))) as (Hm & Ha & Hvs & Hos).
    eexists. split.
    { unfold py_norm.
      rewrite (bind_Done _ _ _ _ _ (nvec_run _ _ _ Ho)), Nat2Z.id.
      rewrite (bind_Done _ _ _ _ _ (new_array_run _ _ _)).
      erewrite bind_Done; [reflexivity|].
      apply (norm_all_run _ self ob t _ buf xs); try done.
      fold N. lia. }
    fold N buf. rewrite Ha, Hvs, Hos.
    by rewrite drop_ge, app_nil_r by lia.
Qed.

(** X19. The binding of [dot] with a MultiVector, when [size1*size2] is
    within [int], returns a new array of exactly [size1*size2] doubles,
    every cell written.  With distinct element buffers cell
    [i*size2 + j] holds [<self[i], other[j]>]; with the same buffer (and
    so the same sequence) cells [i + N*j] and [j + N*i], for [j ≤ i], both
    hold [<self[i], self[j]>].  Nothing of the uninitialised allocation is
    left in the result. *)
Theorem py_dot_mv_written w (self other : nat) me ot xs ys
    (init : nat → R) :
  let N1 := length (mv me) in
  let N2 := length (mv ot) in
  objects w !! self = Some me →
  objects w !! other = Some ot →
  values w (mv me) = Some xs →
  values w (mv ot) = Some ys →
  (mv_begin ot = mv_begin me → mv ot = mv me) →
  Z.of_nat N1 * Z.of_nat N2 ≤ int_max →
  ∃ w' out,
    py_dot_mv init self other w = Done (length (arrays w), w')
    ∧ arrays w' = arrays w ++ [out]
    ∧ vectors w' = vectors w
    ∧ objects w' = objects w
    ∧ length out = (N1 * N2)%nat
    ∧ (mv_begin ot ≠ mv_begin me →
         out = concat ((λ xi, gv_inner xi <$> ys) <$> xs))
    ∧ (mv_begin ot = mv_begin me →
         ∀ (i j : nat) xi xj,
           (j ≤ i)%nat → xs !! i = Some xi → xs !! j = Some xj →
           out !! (i + N1 * j)%nat = Some (gv_inner xi xj)
           ∧ out !! (j + N1 * i)%nat = Some (gv_inner xi xj)).
Proof.
  intros N1 N2 Hme Hot Hxs Hys Hsame Hmax.
  pose proof (values_length _ _ _ Hxs) as Hxl.
  pose proof (values_length _ _ _ Hys) as Hyl.
  set (buf := init <$> seq 0 (N1 * N2)).
  assert (Hbl : length buf = (N1 * N2)%nat)
    by (unfold buf; by rewrite length_fmap, length_seq).
  assert (Hn : Z.to_nat (Z.of_nat N1 * Z.of_nat N2) = (N1 * N2)%nat) by lia.
  assert (Hrange : int_min ≤ Z.of_nat N1 * Z.of_nat N2 ≤ int_max)
    by (pose proof int_min_nonpos; nia).
  assert (Hpre :
            py_dot_mv init self other w
            = bind (dot_mv self other (length (arrays w)))
                   (λ _, ret (length (arrays w)))
                   (set_arrays (arrays w ++ [buf]) w)).
  { unfold py_dot_mv.
    rewrite (bind_Done _ _ _ _ _ (nvec_run _ _ _ Hme)).
    rewrite (bind_Done _ _ _ _ _ (nvec_run _ _ _ Hot)).
    rewrite (bind_Done _ _ _ _ _ (int_op_run _ _ Hrange)).
    rewrite Hn.
    rewrite (bind_Done _ _ _ _ _ (new_array_run _ _ _)).
    by rewrite (bind_Done _ _ _ _ _ (int_op_run _ _ Hrange)). }
  rewrite Hpre. clear Hpre.
  set (w1 := set_arrays (arrays w ++ [buf]) w).
  assert (Hdot :
            dot_mv self other (length (arrays w)) w1
            = (if decide (mv_begin ot = mv_begin me)
               then dot_self self (length (arrays w))
               else dot_nested (mv me) (mv ot) (length (arrays w))) w1).
  { unfold dot_mv.
    rewrite (bind_Done _ _ _ _ _ (object_run w1 _ _ Hme)).
    by rewrite (bind_Done _ _ _ _ _ (object_run w1 _ _ Hot)). }
  destruct (decide (mv_begin ot = mv_begin me)) as [Heq|Hne].
  - assert (HN : N2 = N1) by (unfold N1, N2; by rewrite (Hsame Heq)).
    destruct (filled_new w buf (gram_buf N1 xs N1 buf)
                (gram_events (length (arrays w)) N1 (mv me) xs N1))
      as (Hm & Ha & Hvs & Hos).
    exists (filled (length (arrays w)) (gram_buf N1 xs N1 buf)
              (gram_events (length (arrays w)) N1 (mv me) xs N1) w1),
           (gram_buf N1 xs N1 buf).
    split.
    { erewrite bind_Done; [reflexivity|].
      rewrite Hdot.
      apply (dot_self_run w1 self me _ buf xs); try done; fold N1.
      - lia.
      - by rewrite HN in Hmax. }
    unfold w1. rewrite Ha, Hvs, Hos.
    split; [done|]. split; [done|]. split; [done|].
    split; [by rewrite gram_buf_length, Hbl|].
    split; [done|].
    intros _ i j xi xj Hji Hxi Hxj.
    apply lookup_lt_Some in Hxi as Hi.
    apply gram_buf_lookup; try done; lia.
  - destruct (filled_new w buf
                (concat ((λ xi, gv_inner xi <$> ys) <$> xs)
                 ++ drop (N1 * N2) buf)
                (nested_events (length (arrays w)) (mv ot) ys O (mv me) xs))
      as (Hm & Ha & Hvs & Hos).
    exists (filled (length (arrays w))
              (concat ((λ xi, gv_inner xi <$> ys) <$> xs)
               ++ drop (N1 * N2) buf)
              (nested_events (length (arrays w)) (mv ot) ys O (mv me) xs)
              w1),
           (concat ((λ xi, gv_inner xi <$> ys) <$> xs)).
    split.
    { erewrite bind_Done; [reflexivity|].
      rewrite Hdot.
      apply (dot_nested_run w1 (mv me) (mv ot) xs ys _ buf); try done.
      fold N1 N2. lia. }
    unfold w1. rewrite Ha, Hvs, Hos.
    rewrite drop_ge, app_nil_r by lia.
    split; [done|]. split; [done|]. split; [done|].
    split; [|done].
    unfold N1, N2. rewrite <- Hxl, <- Hyl. clear.
    induction xs as [|x xs IH]; [done|].
    rewrite fmap_cons. simpl. by rewrite length_app, length_fmap, IH.
Qed.

End Proofs.

(** * The theorems on a concrete world *)

(** The end-to-end scenario of the spec: every entry of the 3 by 3 Gram
    matrix is 5, the dimension. *)
Example end_to_end_gram :
  match end_to_end w_ones with
  | Done (_, w') => Some (arrays w', vectors w')
  | _ => None
  end
  = Some ([[5; 5; 5; 5; 5; 5; 5; 5; 5]],
          [[1; 1; 1; 1; 1]; [1; 1; 1; 1; 1]; [1; 1; 1; 1; 1];
           [1; 1; 1; 1; 1]]).
Proof. reflexivity. Qed.

Lemma Zinner_comm (x y : list Z) : Zinner x y = Zinner y x.
Proof.
  unfold Zinner. revert y. induction x as [|a x IH]; intros [|b y]; simpl;
    try done.
  by rewrite IH, Z.mul_comm.
Qed.

Lemma Zaxpy_zero (x y : list Z) : Zaxpy 0 x y = y.
Proof.
  unfold Zaxpy. generalize (λ (i : nat), default 0 (x !! i)). intros g.
  revert g. induction y as [|b y IH]; intros g; simpl; [done|].
  f_equal; [lia|]. apply (IH (g ∘ S)).
Qed.

Lemma dot_self_gram_witness :
  ∃ w' out,
    dot_self 0 0 w0 = Done (tt, w')
    ∧ arrays w' !! 0%nat = Some out
    ∧ (∀ i j, (i < 3)%nat → (j < 3)%nat →
         out !! (i + 3 * j)%nat = out !! (j + 3 * i)%nat).
Proof.
  destruct (dot_self_gram w0 0 ob0 0 buf0) as (w' & out & t & H1 & H2 & _ & H4 & _).
  - reflexivity.
  - eexists. reflexivity.
  - reflexivity.
  - simpl. lia.
  - vm_compute. discriminate.
  - exists w', out. auto.
Defined.

Lemma dot_same_storage_witness :
  dot_mv 0 0 0 w0 = dot_self 0 0 w0
  ∧ ∃ w1 w2,
      dot_mv 0 0 0 w0 = Done (tt, w1)
      ∧ dot_nested (mv ob0) (mv ob0) 0 w0 = Done (tt, w2)
      ∧ arrays w1 = arrays w2.
Proof.
  destruct (dot_same_storage w0 0 0 ob0 ob0 0 buf0)
    as (H1 & w1 & w2 & H2 & H3 & H4 & _).
  - intros vi vj xi xj _ _ _ _. apply Zinner_comm.
  - reflexivity.
  - reflexivity.
  - reflexivity.
  - eexists. reflexivity.
  - reflexivity.
  - simpl. lia.
  - vm_compute. discriminate.
  - split; [exact H1|]. exists w1, w2. auto.
Defined.

Lemma dot_general_layout_witness :
  ∃ w' out,
    dot_mv 0 2 0 w0 = Done (tt, w')
    ∧ arrays w' !! 0%nat = Some out
    ∧ out !! (1 * 1 + 0)%nat = Some (Zinner [3; 4] [1; 1]).
Proof.
  destruct (dot_general_layout w0 0 2 ob0 ob2 0 buf0)
    as (w' & out & t & H1 & H2 & _ & H4 & _).
  - reflexivity.
  - reflexivity.
  - simpl. lia.
  - eexists. reflexivity.
  - eexists. reflexivity.
  - reflexivity.
  - simpl. lia.
  - exists w', out. split; [exact H1|]. split; [exact H2|].
    apply (H4 1%nat 0%nat 1%nat 3%nat); reflexivity.
Defined.

(** C4, at a concrete input: [v] is the vector at position 1 of the
    MultiVector at 0, a pointer [operator[]] returns; the coefficients are
    [1; 1; 0].  [reduce] returns, and the vector of [self] at position 1
    has changed; it holds [8; 12], not the old [v] plus the sum of
    [alpha[i]] times the old [self[i]], which is [7; 10]. *)
Lemma reduce_alias_counterexample :
  objects w_alias !! 0%nat = Some ob0
  ∧ get_item 0 1 w_alias = Done (1%nat, w_alias)
  ∧ arrays w_alias !! 0%nat = Some [1; 1; 0]
  ∧ length [1; 1; 0] = length (mv ob0)
  ∧ values w_alias (mv ob0) = Some [[1; 2]; [3; 4]; [5; 6]]
  ∧ reduce 0 1 0 w_alias = Done (tt, w_alias_reduced)
  ∧ values w_alias_reduced (mv ob0) = Some [[1; 2]; [8; 12]; [5; 6]]
  ∧ vectors w_alias_reduced !! 1%nat = Some [8; 12]
  ∧ axpy_sum [3; 4] [1; 1; 0] [[1; 2]; [3; 4]; [5; 6]] = [7; 10].
Proof. repeat split; reflexivity. Qed.

Lemma reduce_accumulates_witness :
  ∃ w',
    reduce 0 3 2 w0 = Done (tt, w')
    ∧ values w' (mv ob0) = values w0 (mv ob0)
    ∧ vectors w' !! 3%nat = Some (Zaxpy 1 [3; 4] [1; 1]).
Proof.
  destruct (reduce_accumulates w0 0 ob0 3 [1; 1] 2 [0; 1; 0])
    as (w' & xs & H1 & H2 & _ & H4 & _ & _ & _ & H8).
  - reflexivity.
  - eexists. reflexivity.
  - reflexivity.
  - compute_done.
  - reflexivity.
  - reflexivity.
  - exists w'. split; [exact H1|]. split; [by rewrite H4, H2|].
    apply (H8 0 1 (λ y x, Zaxpy 1 x y) 1%nat [3; 4]).
    + exact Zaxpy_zero.
    + reflexivity.
    + reflexivity.
    + assert (Hxs : Some xs = Some [[1; 2]; [3; 4]; [5; 6]])
        by (rewrite <- H2; reflexivity).
      injection Hxs as ->. reflexivity.
Defined.

(** C5, at a concrete input: the MultiVector at 0 holds three vectors, the
    array at 0 has ten entries; [scale] returns and has scaled the three
    vectors by the first three entries. *)
Lemma scale_size_mismatch_counterexample :
  objects w0 !! 0%nat = Some ob0
  ∧ arrays w0 !! 0%nat = Some buf0
  ∧ length buf0 ≠ length (mv ob0)
  ∧ scale_a 0 0 w0 = Done (tt, w0_scaled)
  ∧ vectors w0_scaled ≠ vectors w0.
Proof. repeat split; try reflexivity; discriminate. Qed.

Lemma scale_unchecked_witness :
  ∃ w',
    scale_a 0 0 w0 = Done (tt, w')
    ∧ vectors w' !! 0%nat = Some (Zscale 0 [1; 2])
    ∧ vectors w' !! 3%nat = vectors w0 !! 3%nat.
Proof.
  destruct (scale_unchecked w0 0 ob0 0 buf0) as (w' & H1 & H2 & H3 & _).
  - reflexivity.
  - eexists. reflexivity.
  - compute_done.
  - reflexivity.
  - simpl. lia.
  - exists w'. split; [exact H1|]. split.
    + apply (H2 0%nat 0%nat [1; 2] 0); reflexivity.
    + apply H3. compute_done.
Defined.

Lemma axpy_mv_checked_witness :
  (∃ w',
     axpy_mv 0 1 0 w0 = Done (tt, w')
     ∧ vectors w' !! 2%nat = Some (Zaxpy 2 [5; 6] [5; 6]))
  ∧ axpy_mv 0 0 0 w0 = AssertFail
  ∧ axpy_mv 0 1 2 w0 = AssertFail.
Proof.
  split; [|split].
  - destruct (axpy_mv_checked w0 0 ob0 0 ob0 1 [1; 0; 2]
                eq_refl eq_refl eq_refl) as (Hok & _ & _).
    destruct Hok as (w' & H1 & H2 & _).
    + reflexivity.
    + reflexivity.
    + eexists. reflexivity.
    + eexists. reflexivity.
    + compute_done.
    + intros i j l Hi Hj.
      refine (NoDup_lookup (mv ob0) i j l _ Hi Hj). compute_done.
    + exists w'. split; [exact H1|].
      apply (H2 2%nat 2%nat 2%nat [5; 6] [5; 6] 2); reflexivity.
  - destruct (axpy_mv_checked w0 0 ob0 0 ob0 0 buf0
                eq_refl eq_refl eq_refl) as (_ & Hbad & _).
    apply Hbad. simpl. lia.
  - destruct (axpy_mv_checked w0 0 ob0 2 ob2 1 [1; 0; 2]
                eq_refl eq_refl eq_refl) as (_ & _ & Hbad).
    apply Hbad. simpl. lia.
Defined.

(** C7, at a concrete input: the MultiVector at 0 holds three vectors, the
    one at 1 none; after the swap the one at 0 holds none. *)
Lemma swap_changes_nvec_counterexample :
  exec 0 (Swap 1) w0 = Done (tt, w0_swapped)
  ∧ nvec 0 w0 = Done (3, w0)
  ∧ nvec 0 w0_swapped = Done (0, w0_swapped).
Proof. repeat split; reflexivity. Qed.

Lemma nvec_kept_except_swap_witness :
  (objects w0_scaled = objects w0
   ∧ nvec 0 w0_scaled = Done (3, w0_scaled))
  ∧ nvec 0 w0_swapped = Done (0, w0_swapped)
  ∧ nvec 1 w0_swapped = Done (3, w0_swapped).
Proof.
  split.
  - assert (Hrun : exec 0 (Scale_a 0) w0 = Done (tt, w0_scaled))
      by reflexivity.
    destruct (nvec_kept_except_swap w0 0 (Scale_a 0) w0_scaled Hrun)
      as [Hkeep _].
    destruct Hkeep as [H1 H2]; [discriminate|].
    split; [exact H1|]. apply (H2 0%nat ob0). reflexivity.
  - assert (Hrun : exec 0 (Swap 1) w0 = Done (tt, w0_swapped))
      by reflexivity.
    destruct (nvec_kept_except_swap w0 0 (Swap 1) w0_swapped Hrun)
      as [_ Hswap].
    apply (Hswap 1%nat ob0 ob1); reflexivity.
Defined.

Lemma construct_from_template_witness :
  ∃ (this : nat) w' ob,
    MultiVector_from 0 2 w0 = Done (this, w')
    ∧ objects w' !! this = Some ob
    ∧ nvec this w' = Done (2, w')
    ∧ (∀ l : nat, l ∈ mv ob → vectors w' !! l = Some (Zzero [1; 2])).
Proof.
  destruct (construct_from_template w0 0 [1; 2] 2)
    as (this & w' & ob & H1 & H2 & H3 & _ & H5 & _).
  - reflexivity.
  - lia.
  - exists this, w', ob. repeat split; try assumption.
    intros l Hl. by destruct (H5 l Hl).
Defined.

(** C9, at a concrete input: the default constructor makes the MultiVector
    at 3, of length zero; [zero], [dot] with a vector, [dot_self],
    [reduce], per-slice [scale] and [norm_all] on it return and change
    nothing. *)
Lemma zero_length_use_counterexample :
  MultiVector_new w0 = Done (3%nat, w0_new)
  ∧ nvec 3 w0_new = Done (0, w0_new)
  ∧ zero 3 w0_new = Done (tt, w0_new)
  ∧ dot_v 3 0 0 w0_new = Done (tt, w0_new)
  ∧ dot_self 3 0 w0_new = Done (tt, w0_new)
  ∧ reduce 3 3 1 w0_new = Done (tt, w0_new)
  ∧ scale_a 3 1 w0_new = Done (tt, w0_new)
  ∧ norm_all 3 "linf" 0 w0_new = Done (tt, w0_new).
Proof. repeat split; reflexivity. Qed.

Lemma empty_multivector_calls_witness :
  exec 1 Zero w0 = Done (tt, w0)
  ∧ exec 1 (Dot_mv 0 0) w0 = Done (tt, w0)
  ∧ exec 1 (Axpy_mv 1 1) w0 = AssertFail
  ∧ exec 1 (Scale_k 0 5) w0 = Undefined.
Proof.
  split; [|split; [|split]].
  - exact (empty_multivector_calls w0 1 ob1 Zero eq_refl eq_refl).
  - apply (empty_multivector_calls w0 1 ob1 (Dot_mv 0 0) eq_refl eq_refl).
    eexists. reflexivity.
  - exact (empty_multivector_calls w0 1 ob1 (Axpy_mv 1 1) eq_refl eq_refl
             [1; 0; 2] ob1 eq_refl eq_refl).
  - exact (empty_multivector_calls w0 1 ob1 (Scale_k 0 5) eq_refl eq_refl).
Defined.



(** ** More of the class, on the concrete world *)

Lemma dot_v_values_witness :
  ∃ w' out,
    dot_v 0 3 0 w0 = Done (tt, w')
    ∧ arrays w' !! 0%nat = Some out
    ∧ out !! 1%nat = Some (Zinner [3; 4] [1; 1])
    ∧ vectors w' = vectors w0.
Proof.
  destruct (dot_v_values w0 0 ob0 3 [1; 1] 0 buf0)
    as (w' & out & t & H1 & H2 & H3 & H4 & _).
  - reflexivity.
  - eexists. reflexivity.
  - reflexivity.
  - reflexivity.
  - simpl. lia.
  - exists w', out. split; [exact H1|]. split; [exact H2|].
    split; [|exact H4].
    apply (H3 1%nat 1%nat [3; 4]); reflexivity.
Defined.

Lemma norm_all_values_witness :
  ∃ w' out,
    norm_all 0 "linf" 0 w0 = Done (tt, w')
    ∧ arrays w' !! 0%nat = Some out
    ∧ out !! 2%nat = Some (Znorm "linf" [5; 6]).
Proof.
  destruct (norm_all_values w0 0 ob0 "linf" 0 buf0)
    as (w' & out & H1 & H2 & H3 & _).
  - reflexivity.
  - eexists. reflexivity.
  - reflexivity.
  - simpl. lia.
  - exists w', out. split; [exact H1|]. split; [exact H2|].
    apply (H3 2%nat 2%nat [5; 6]); reflexivity.
Defined.

Lemma zero_all_witness :
  ∃ w',
    zero 0 w0 = Done (tt, w')
    ∧ vectors w' !! 1%nat = Some (Zzero [3; 4])
    ∧ vectors w' !! 3%nat = vectors w0 !! 3%nat.
Proof.
  destruct (zero_all w0 0 ob0) as (w' & H1 & H2 & H3 & _).
  - reflexivity.
  - eexists. reflexivity.
  - compute_done.
  - exists w'. split; [exact H1|]. split.
    + apply (H2 1%nat 1%nat [3; 4]); reflexivity.
    + apply H3. compute_done.
Defined.

Lemma axpy_broadcast_witness :
  ∃ w',
    axpy_v 0 2 3 w0 = Done (tt, w')
    ∧ vectors w' !! 0%nat = Some (Zaxpy 2 [1; 1] [1; 2])
    ∧ vectors w' !! 3%nat = vectors w0 !! 3%nat.
Proof.
  destruct (axpy_broadcast w0 0 ob0 2 3 [1; 1]) as (w' & H1 & H2 & H3 & _).
  - reflexivity.
  - eexists. reflexivity.
  - compute_done.
  - reflexivity.
  - compute_done.
  - exists w'. split; [exact H1|]. split.
    + apply (H2 0%nat 0%nat [1; 2]); reflexivity.
    + apply H3. compute_done.
Defined.

Lemma axpy_broadcast_own_witness :
  ∃ w',
    axpy_v 0 2 1 w0 = Done (tt, w')
    ∧ vectors w' !! 0%nat = Some (Zaxpy 2 [3; 4] [1; 2])
    ∧ vectors w' !! 1%nat = Some (Zaxpy 2 [3; 4] [3; 4])
    ∧ vectors w' !! 2%nat = Some (Zaxpy 2 (Zaxpy 2 [3; 4] [3; 4]) [5; 6]).
Proof.
  destruct (axpy_broadcast_own w0 0 ob0 2 1 1 [3; 4])
    as (w' & H1 & H2 & H3 & H4 & _).
  - reflexivity.
  - eexists. reflexivity.
  - compute_done.
  - reflexivity.
  - reflexivity.
  - exists w'. split; [exact H1|]. split; [|split; [exact H3|]].
    + apply (H2 0%nat 0%nat [1; 2]); [lia|reflexivity|reflexivity].
    + apply (H4 2%nat 2%nat [5; 6]); [lia|reflexivity|reflexivity].
Defined.

Lemma scale_single_witness :
  (get_item 0 1 w0 = Done (1%nat, w0)
   ∧ ∃ w', scale_k 0 1 5 w0 = Done (tt, w')
           ∧ vectors w' = [[1; 2]; Zscale 5 [3; 4]; [5; 6]; [1; 1]])
  ∧ get_item 0 3 w0 = Undefined
  ∧ scale_k 0 (-1) 5 w0 = Undefined.
Proof.
  split; [|split].
  - destruct (scale_single w0 0 ob0 1 5 eq_refl) as [Hin _].
    destruct (Hin 1%nat [3; 4]) as [Hget Hscale];
      [lia|reflexivity|reflexivity|].
    split; [exact Hget|]. eexists. split; [exact Hscale|reflexivity].
  - destruct (scale_single w0 0 ob0 3 5 eq_refl) as [_ Hout].
    apply Hout. right. simpl. lia.
  - destruct (scale_single w0 0 ob0 (-1) 5 eq_refl) as [_ Hout].
    apply Hout. left. lia.
Defined.

Lemma swap_exchanges_witness :
  ∃ w',
    swap 1 0 w0 = Done (tt, w')
    ∧ objects w' !! 0%nat = Some ob1
    ∧ objects w' !! 1%nat = Some ob0
    ∧ get_item 1 2 w' = Done (2%nat, w')
    ∧ swap 1 0 w' = Done (tt, w0).
Proof.
  destruct (swap_exchanges w0 1 0 ob1 ob0)
    as (w' & H1 & H2 & H3 & _ & _ & _ & _ & H8 & H9).
  - reflexivity.
  - reflexivity.
  - exists w'. split; [exact H1|]. split; [exact H3|]. split; [exact H2|].
    split; [|exact H9].
    apply H8. reflexivity.
Defined.

Lemma gram_after_swap_witness :
  ∃ w1 w2,
    dot_self 0 0 w0 = Done (tt, w1)
    ∧ bind (swap 2 0) (λ _, dot_self 2 0) w0 = Done (tt, w2)
    ∧ arrays w2 = arrays w1.
Proof.
  destruct (gram_after_swap w0 2 0 ob2 ob0 0 buf0)
    as (w1 & w2 & H1 & H2 & H3 & _).
  - reflexivity.
  - reflexivity.
  - eexists. reflexivity.
  - reflexivity.
  - simpl. lia.
  - vm_compute. discriminate.
  - exists w1, w2. auto.
Defined.

Lemma copy_is_deep_witness :
  ∃ (this : nat) w' ob,
    MultiVector_copy 0 w0 = Done (this, w')
    ∧ this ≠ 0%nat
    ∧ objects w' !! this = Some ob
    ∧ length (mv ob) = 3%nat
    ∧ values w' (mv ob) = Some [[1; 2]; [3; 4]; [5; 6]]
    ∧ arrays w' = arrays w0.
Proof.
  destruct (copy_is_deep w0 0 ob0)
    as (this & w' & ob & H1 & H2 & H3 & H4 & H5 & _ & _ & _ & _ & H10).
  - reflexivity.
  - eexists. reflexivity.
  - vm_compute. discriminate.
  - exists this, w', ob.
    split; [exact H1|]. split; [exact H2|]. split; [exact H3|].
    split; [exact H4|]. split; [exact H5|exact H10].
Defined.

Lemma calls_keep_sizes_witness :
  sizes w0_scaled = sizes w0 ∧ arrays w0_scaled = arrays w0.
Proof.
  assert (Hrun : exec 0 (Scale_a 0) w0 = Done (tt, w0_scaled))
    by reflexivity.
  exact (calls_keep_sizes w0 0 (Scale_a 0) w0_scaled Hrun).
Defined.

Lemma calls_footprint_witness :
  vectors w0_scaled !! 3%nat = vectors w0 !! 3%nat.
Proof.
  assert (Hrun : exec 0 (Scale_a 0) w0 = Done (tt, w0_scaled))
    by reflexivity.
  apply (calls_footprint w0 0 ob0 (Scale_a 0) w0_scaled eq_refl Hrun).
  compute_done.
Defined.

Lemma copy_independent_witness :
  ∃ w1 w2,
    MultiVector_copy 0 w0 = Done (3%nat, w1)
    ∧ exec 3 (Scale_a 0) w1 = Done (tt, w2)
    ∧ values w2 (mv ob0) = values w0 (mv ob0).
Proof.
  eexists _, _. split; [vm_compute; reflexivity|].
  split; [vm_compute; reflexivity|].
  eapply (copy_independent w0 0 ob0 3 _ (Scale_a 0) _).
  - reflexivity.
  - eexists. reflexivity.
  - vm_compute. discriminate.
  - vm_compute. reflexivity.
  - vm_compute. reflexivity.
  - intros v alpha H. discriminate H.
Defined.

Lemma short_output_buffer_witness :
  dot_v 0 3 0 w_short = Undefined
  ∧ norm_all 0 "linf" 0 w_short = Undefined.
Proof.
  destruct (short_output_buffer w_short 0 ob0 0 [7; 7]) as [Hd Hn].
  - reflexivity.
  - reflexivity.
  - simpl. lia.
  - split; [apply Hd|apply Hn].
Defined.

Lemma short_coefficients_witness :
  scale_a 0 0 w_short = Undefined
  ∧ reduce 0 3 0 w_short = Undefined.
Proof.
  destruct (short_coefficients w_short 0 ob0 0 [7; 7]) as [Hs Hr].
  - reflexivity.
  - reflexivity.
  - simpl. lia.
  - split; [exact Hs|apply Hr].
Defined.

Lemma wf_w0 : wf w0.
Proof.
  assert (Hobs : ∀ (o : nat) ob, objects w0 !! o = Some ob →
            (o = 0%nat ∧ ob = ob0) ∨ (o = 1%nat ∧ ob = ob1)
            ∨ (o = 2%nat ∧ ob = ob2)).
  { intros [|[|[|o]]] ob H; simpl in H; try discriminate H;
      injection H as <-; auto. }
  assert (Hall : ∀ (P : nat → Prop) (ls : list nat),
            Forall P ls → ∀ l : nat, l ∈ ls → P l)
    by (intros P ls HP; by apply Forall_forall).
  split; [simpl; lia|]. split.
  - intros o ob [[-> ->]|[[-> ->]|[-> ->]]]%Hobs; simpl.
    + split; [compute_done|]. split; [apply Hall; compute_done|].
      split; [intros H; discriminate H|lia].
    + split; [compute_done|]. split; [apply Hall; compute_done|].
      split; [done|]. intros H. by destruct H.
    + split; [compute_done|]. split; [apply Hall; compute_done|].
      split; [intros H; discriminate H|lia].
  - intros o1 o2 ob1' ob2' Hne
      [[-> ->]|[[-> ->]|[-> ->]]]%Hobs [[-> ->]|[[-> ->]|[-> ->]]]%Hobs;
      try done; simpl;
      (split; [apply Hall; compute_done|]);
      intros H; try lia; by destruct H.
Qed.

Lemma calls_keep_wf_witness : wf w0_swapped ∧ wf w0_scaled.
Proof.
  split.
  - assert (Hrun : exec 0 (Swap 1) w0 = Done (tt, w0_swapped))
      by reflexivity.
    exact (calls_keep_wf w0 0 (Swap 1) w0_swapped wf_w0 Hrun).
  - assert (Hrun : exec 0 (Scale_a 0) w0 = Done (tt, w0_scaled))
      by reflexivity.
    exact (calls_keep_wf w0 0 (Scale_a 0) w0_scaled wf_w0 Hrun).
Defined.

Lemma constructors_keep_wf_witness :
  wf w0_new
  ∧ (∃ w', MultiVector_from 3 2 w0 = Done (3%nat, w') ∧ wf w')
  ∧ (∃ w', MultiVector_copy 0 w0 = Done (3%nat, w') ∧ wf w').
Proof.
  destruct (constructors_keep_wf w0 wf_w0) as (Hnew & Hfrom & Hcopy).
  split; [|split].
  - apply (Hnew 3%nat). reflexivity.
  - eexists. split; [vm_compute; reflexivity|].
    eapply (Hfrom 3%nat 2 3%nat);
      [eexists; reflexivity|lia|vm_compute; reflexivity].
  - eexists. split; [vm_compute; reflexivity|].
    eapply (Hcopy 0%nat 3%nat). vm_compute. reflexivity.
Defined.

Lemma wf_w0_new : wf w0_new.
Proof.
  apply (wf_extend w0 w0_new [] O O); try reflexivity. exact wf_w0.
Qed.

Lemma dot_path_by_identity_witness :
  dot_mv 0 0 0 w0_new = dot_self 0 0 w0_new
  ∧ dot_mv 0 2 0 w0_new = dot_nested (mv ob0) (mv ob2) 0 w0_new
  ∧ dot_mv 1 3 0 w0_new = dot_nested [] [] 0 w0_new.
Proof.
  split; [|split].
  - apply (dot_path_by_identity w0_new 0 0 ob0 ob0 0 wf_w0_new
             eq_refl eq_refl).
    reflexivity.
  - apply (dot_path_by_identity w0_new 0 2 ob0 ob2 0 wf_w0_new
             eq_refl eq_refl).
    lia.
  - apply (dot_path_by_identity w0_new 1 3 ob1 {| mv_begin := 0; mv := [] |}
             0 wf_w0_new eq_refl eq_refl).
    lia.
Defined.

Lemma py_results_written_witness :
  (∃ w',
     py_dot_v (λ _, 7) 0 3 w0 = Done (3%nat, w')
     ∧ arrays w'
       = arrays w0 ++ [[Zinner [1; 2] [1; 1]; Zinner [3; 4] [1; 1];
                        Zinner [5; 6] [1; 1]]])
  ∧ (∃ w',
       py_norm (λ _, 7) 0 "linf" w0 = Done (3%nat, w')
       ∧ arrays w'
         = arrays w0 ++ [[Znorm "linf" [1; 2]; Znorm "linf" [3; 4];
                          Znorm "linf" [5; 6]]]).
Proof.
  destruct (py_results_written w0 0 ob0 [[1; 2]; [3; 4]; [5; 6]] (λ _, 7)
              eq_refl eq_refl) as [Hd Hn].
  split.
  - destruct (Hd 3%nat [1; 1] eq_refl) as (w' & H1 & H2 & _).
    exists w'. split; [exact H1|exact H2].
  - destruct (Hn "linf") as (w' & H1 & H2 & _).
    exists w'. split; [exact H1|exact H2].
Defined.

Lemma py_dot_mv_written_witness :
  ∃ w',
    py_dot_mv (λ _, 7) 0 2 w0 = Done (3%nat, w')
    ∧ arrays w'
      = arrays w0 ++ [[Zinner [1; 2] [1; 1]; Zinner [3; 4] [1; 1];
                       Zinner [5; 6] [1; 1]]].
Proof.
  destruct (py_dot_mv_written w0 0 2 ob0 ob2 [[1; 2]; [3; 4]; [5; 6]]
              [[1; 1]] (λ _, 7))
    as (w' & out & H1 & H2 & _ & _ & _ & H6 & _).
  - reflexivity.
  - reflexivity.
  - reflexivity.
  - reflexivity.
  - intros H. discriminate H.
  - vm_compute. discriminate.
  - exists w'. split; [exact H1|].
    rewrite H2, H6; [reflexivity|]. intros H. discriminate H.
Defined.
